(** * Fixed-point kernels of the PULPino CMSIS-DSP port

    A shallow embedding of the Q7/Q15/Q31 vector, convolution and matrix
    kernels of [sw/libs/CMSIS_lib], together with the properties they are
    expected to satisfy.

    Conventions of the embedding:
    - a C integer of width [w] is a [Z]; conversions to a narrower type are
      written out with [wrap w];
    - a buffer is a [list Z]; a pointer into it is its offset ([nat]) from
      the base of the buffer; [load] and [store] are stdpp's lookup and
      insert (a store outside the buffer is dropped, a load outside of it
      reads 0: C leaves both undefined, the theorems assume buffers that
      are large enough);
    - [while (cnt > 0u) { body; cnt--; }] is [while_cnt cnt body];
    - the preprocessor switches [USE_DSP_RISCV] and
      [RISCV_MATH_MATRIX_CHECK] are boolean arguments. *)

From Stdlib Require Import ZArith List Lia Bool ArithRing.
From stdpp Require Import base list.
From coqutil Require Import Z.PushPullMod.

Local Open Scope Z_scope.

(** ** Machine integers *)

Module MachInt.

(** Conversion of an integer to the signed two's-complement type of [w]
    bits (what a C cast or an assignment to a narrower variable does). *)
Definition wrap (w : Z) (x : Z) : Z :=
  (x + 2 ^ (w - 1)) mod 2 ^ w - 2 ^ (w - 1).

Definition to_q7 : Z -> Z := wrap 8.
Definition to_q15 : Z -> Z := wrap 16.
Definition to_q31 : Z -> Z := wrap 32.
Definition to_q63 : Z -> Z := wrap 64.

(** The value of an expression of type [uint32_t]: arithmetic on
    [uint32_t] is modulo [2^32]. *)
Definition u32 (x : Z) : nat := Z.to_nat (x mod 2 ^ 32).

Definition INT32_MAX : Z := 2147483647.
Definition INT32_MIN : Z := -2147483648.

(** Membership in the value range of a type, as a boolean. *)
Definition in_bits (w : Z) (x : Z) : bool :=
  (- 2 ^ (w - 1) <=? x) && (x <? 2 ^ (w - 1)).

Definition is_q7 : Z -> bool := in_bits 8.
Definition is_q15 : Z -> bool := in_bits 16.
Definition is_q31 : Z -> bool := in_bits 32.

(** Modelled from the spec: [clip] of riscv_math.h (the header is not part
    of the sources), the clamp of a value between two bounds. *)
Definition clip (x lo hi : Z) : Z := Z.max lo (Z.min x hi).

(** Modelled from the spec: [__SSAT] of riscv_math.h, the saturation of a
    wide integer to the range of a [y]-bit two's-complement type. *)
Definition __SSAT (x : Z) (y : Z) : Z :=
  clip x (- 2 ^ (y - 1)) (2 ^ (y - 1) - 1).

End MachInt.
Export MachInt.

(** ** Buffers and loops *)

Module Mem.

Definition load (m : list Z) (p : nat) : Z := default 0 (m !! p).

Definition store (m : list Z) (p : nat) (v : Z) : list Z := <[p := v]> m.

(** [while (cnt > 0u) { body; cnt--; }] for a counter that the body does
    not touch. *)
Definition while_cnt {S : Type} (cnt : nat) (body : S -> S) (s : S) : S :=
  Nat.iter cnt body s.

(** [do { body; cnt--; } while (cnt > 0u);] on a [uint16_t] counter: a
    counter that starts at 0 wraps to 65535 after the first pass. *)
Definition do_while_cnt16 {S : Type} (cnt : nat) (body : S -> S) (s : S) : S :=
  Nat.iter (if (cnt =? 0)%nat then (2 ^ 16)%nat else cnt) body s.

(** [for (i = first; i < first + n; i++) body] on a state [S]. *)
Definition for_range {S : Type} (first n : nat) (body : nat -> S -> S) (s : S)
  : S :=
  fold_left (fun s i => body i s) (seq first n) s.

End Mem.
Export Mem.

(** ** Packed lanes *)

Module Lanes.

(** [shortV]: two 16-bit lanes packed in a 32-bit word; lane 0 is the
    element at the lower address. *)
Record shortV : Type := V2 { lane0 : Z; lane1 : Z }.

(** [charV]: four 8-bit lanes. *)
Record charV : Type := V4 { byte0 : Z; byte1 : Z; byte2 : Z; byte3 : Z }.

(** [*(shortV* )p]: the two consecutive elements at [p]. *)
Definition loadV2 (m : list Z) (p : nat) : shortV :=
  V2 (load m p) (load m (p + 1)).

Definition storeV2 (m : list Z) (p : nat) (v : shortV) : list Z :=
  store (store m p (lane0 v)) (p + 1) (lane1 v).

Definition loadV4 (m : list Z) (p : nat) : charV :=
  V4 (load m p) (load m (p + 1)) (load m (p + 2)) (load m (p + 3)).

Definition storeV4 (m : list Z) (p : nat) (v : charV) : list Z :=
  store (store (store (store m p (byte0 v)) (p + 1) (byte1 v))
               (p + 2) (byte2 v)) (p + 3) (byte3 v).

(** Assignment to one lane of a [shortV]: the value is converted to
    [short]. *)
Definition set_lane0 (v : shortV) (x : Z) : shortV := V2 (to_q15 x) (lane1 v).
Definition set_lane1 (v : shortV) (x : Z) : shortV := V2 (lane0 v) (to_q15 x).

(** Modelled from the spec: the packed-lane macros of riscv_math.h (the
    header is not part of the sources). [pack2] and [pack4] pack scalars
    into lanes, [sra2] and [sra4] shift every lane right arithmetically,
    [dotpv2] is the dot product of two 2-lane vectors, [sumdotpv2] adds it
    to a 32-bit accumulator, [mac] is the 32-bit multiply-accumulate. The
    result of each of the three is a 32-bit register: it wraps around. *)
Definition pack2 (x y : Z) : shortV := V2 (to_q15 x) (to_q15 y).

Definition pack4 (x y z t : Z) : charV :=
  V4 (to_q7 x) (to_q7 y) (to_q7 z) (to_q7 t).

Definition sra2 (a s : shortV) : shortV :=
  V2 (Z.shiftr (lane0 a) (lane0 s)) (Z.shiftr (lane1 a) (lane1 s)).

Definition sra4 (a s : charV) : charV :=
  V4 (Z.shiftr (byte0 a) (byte0 s)) (Z.shiftr (byte1 a) (byte1 s))
     (Z.shiftr (byte2 a) (byte2 s)) (Z.shiftr (byte3 a) (byte3 s)).

Definition dotpv2 (a b : shortV) : Z :=
  to_q31 (lane0 a * lane0 b + lane1 a * lane1 b).

Definition sumdotpv2 (a b : shortV) (acc : Z) : Z :=
  to_q31 (acc + dotpv2 a b).

Definition mac (x y acc : Z) : Z := to_q31 (acc + x * y).

End Lanes.
Export Lanes.

(** ** Element-wise vector kernels *)

(** The pointer variables of a vector kernel and the destination buffer
    they write to. A kernel returns the final contents of [pDst]'s
    buffer. *)
Record vstate (A : Type) : Type := VState {
  pSrc : nat;
  pIn : nat;
  pDst : nat;
  dst : list A
}.
Arguments VState {A} _ _ _ _.
Arguments pSrc {A} _.
Arguments pIn {A} _.
Arguments pDst {A} _.
Arguments dst {A} _.

Module SupportFunctions.

(** riscv_q15_to_q7.c: one pass of the packed loop of the
    [USE_DSP_RISCV] build (it reads through [pSrc]), then one pass of the
    scalar loop (it reads through [pIn]). *)
Definition q15_to_q7_packed (src : list Z) (s : vstate Z) : vstate Z :=
  let VectInB := pack2 8 8 in
  let VectInA := loadV2 src (pSrc s) in
  let VectInC := sra2 VectInA VectInB in
  (* *pDst++ = VectInC[0]; *pDst++ = VectInC[1]; pSrc+=2; *)
  let d1 := store (dst s) (pDst s) (to_q7 (lane0 VectInC)) in
  let d2 := store d1 (pDst s + 1) (to_q7 (lane1 VectInC)) in
  VState (pSrc s + 2) (pIn s) (pDst s + 2) d2.

Definition q15_to_q7_scalar (src : list Z) (s : vstate Z) : vstate Z :=
  (* *pDst++ = (q7_t) ( *pIn++ >> 8); *)
  VState (pSrc s) (pIn s + 1) (pDst s + 1)
         (store (dst s) (pDst s) (to_q7 (Z.shiftr (load src (pIn s)) 8))).

Definition riscv_q15_to_q7 (USE_DSP_RISCV : bool)
    (src : list Z) (dst0 : list Z) (blockSize : nat) : list Z :=
  (* q15_t *pIn = pSrc; *)
  let s0 := VState 0%nat 0%nat 0%nat dst0 in
  let '(s1, blkCnt) :=
    if USE_DSP_RISCV then
      (while_cnt (blockSize / 2)%nat (q15_to_q7_packed src) s0,
       (blockSize mod 2)%nat)
    else (s0, blockSize) in
  dst (while_cnt blkCnt (q15_to_q7_scalar src) s1).

(** riscv_q7_to_q15.c (the packed variant is commented out in the
    source). *)
Definition riscv_q7_to_q15
    (src : list Z) (dst0 : list Z) (blockSize : nat) : list Z :=
  let s0 := VState 0%nat 0%nat 0%nat dst0 in
  dst (while_cnt blockSize (fun s =>
         (* *pDst++ = (q15_t) * pIn++ << 8; *)
         VState (pSrc s) (pIn s + 1) (pDst s + 1)
                (store (dst s) (pDst s)
                       (to_q15 (Z.shiftl (to_q15 (load src (pIn s))) 8))))
       s0).

(** riscv_q15_to_q31.c *)
Definition riscv_q15_to_q31
    (src : list Z) (dst0 : list Z) (blockSize : nat) : list Z :=
  let s0 := VState 0%nat 0%nat 0%nat dst0 in
  dst (while_cnt blockSize (fun s =>
         (* *pDst++ = (q31_t) * pIn++ << 16; *)
         VState (pSrc s) (pIn s + 1) (pDst s + 1)
                (store (dst s) (pDst s)
                       (to_q31 (Z.shiftl (to_q31 (load src (pIn s))) 16))))
       s0).

(** riscv_fill_q7.c *)
Definition riscv_fill_q7 (USE_DSP_RISCV : bool)
    (value : Z) (dst0 : list Z) (blockSize : nat) : list Z :=
  let s0 := VState 0%nat 0%nat 0%nat dst0 in
  let scalar_body := fun s : vstate Z =>
        (* *pDst++ = value; *)
        VState (pSrc s) (pIn s) (pDst s + 1) (store (dst s) (pDst s) value) in
  if USE_DSP_RISCV then
    let VectInA := pack4 value value value value in
    let s1 := while_cnt (blockSize / 4)%nat (fun s =>
                (* *(charV* )pDst = VectInA; pDst+=4; *)
                VState (pSrc s) (pIn s) (pDst s + 4)
                       (storeV4 (dst s) (pDst s) VectInA)) s0 in
    dst (while_cnt (blockSize mod 4)%nat scalar_body s1)
  else
    dst (while_cnt blockSize scalar_body s0).

End SupportFunctions.
Export SupportFunctions.

Module BasicMathFunctions.

(** Modelled from the spec: the [p.abs] instruction emitted by the inline
    assembly of riscv_abs_q31, the absolute value of a 32-bit register. *)
Definition p_abs (x : Z) : Z := to_q31 (Z.abs x).

(** riscv_abs_q31.c *)
Definition riscv_abs_q31 (USE_DSP_RISCV : bool)
    (src : list Z) (dst0 : list Z) (blockSize : nat) : list Z :=
  let s0 := VState 0%nat 0%nat 0%nat dst0 in
  if USE_DSP_RISCV then
    dst (while_cnt blockSize (fun s =>
           let in_ := load src (pSrc s) in
           (* if(in == 0x80000000): the comparison is made on unsigned int *)
           let out :=
             if in_ mod 2 ^ 32 =? 2147483648 then INT32_MAX else p_abs in_ in
           VState (pSrc s + 1) (pIn s) (pDst s + 1)
                  (store (dst s) (pDst s) out)) s0)
  else
    dst (while_cnt blockSize (fun s =>
           let in_ := load src (pSrc s) in
           (* (in > 0) ? in : ((in == INT32_MIN) ? INT32_MAX : -in) *)
           let out :=
             if in_ >? 0 then in_
             else if in_ =? INT32_MIN then INT32_MAX else - in_ in
           VState (pSrc s + 1) (pIn s) (pDst s + 1)
                  (store (dst s) (pDst s) out)) s0).

(** riscv_offset_q15.c *)
Definition riscv_offset_q15 (USE_DSP_RISCV : bool)
    (src : list Z) (offset : Z) (dst0 : list Z) (blockSize : nat) : list Z :=
  let s0 := VState 0%nat 0%nat 0%nat dst0 in
  if USE_DSP_RISCV then
    let s1 := while_cnt (blockSize / 2)%nat (fun s =>
                let inA1 := load src (pSrc s) in
                let inA2 := load src (pSrc s + 1) in
                let d1 := store (dst s) (pDst s)
                            (to_q15 (clip (inA1 + offset) (-32768) 32767)) in
                let d2 := store d1 (pDst s + 1)
                            (to_q15 (clip (inA2 + offset) (-32768) 32767)) in
                VState (pSrc s + 2) (pIn s) (pDst s + 2) d2) s0 in
    dst (while_cnt (blockSize mod 2)%nat (fun s =>
           VState (pSrc s + 1) (pIn s) (pDst s + 1)
                  (store (dst s) (pDst s)
                     (to_q15 (clip (load src (pSrc s) + offset) (-32768) 32767))))
         s1)
  else
    dst (while_cnt blockSize (fun s =>
           (* *pDst++ = (q15_t) __SSAT(((q31_t) * pSrc++ + offset), 16); *)
           VState (pSrc s + 1) (pIn s) (pDst s + 1)
                  (store (dst s) (pDst s)
                     (to_q15 (__SSAT (to_q31 (load src (pSrc s)) + offset) 16))))
         s0).

(** riscv_shift_q7.c. [shiftBits] is an [int8_t]; the shifts are made on
    [int] after the integer promotions. *)
Definition riscv_shift_q7 (USE_DSP_RISCV : bool)
    (src : list Z) (shiftBits : Z) (dst0 : list Z) (blockSize : nat) : list Z :=
  let s0 := VState 0%nat 0%nat 0%nat dst0 in
  (* sign = (shiftBits & 0x80); *)
  let sign := Z.land shiftBits 128 in
  let '(s1, blkCnt) :=
    if USE_DSP_RISCV then
      let s :=
        if sign =? 0 then
          let one := fun s : vstate Z =>
            VState (pSrc s + 1) (pIn s) (pDst s + 1)
                   (store (dst s) (pDst s)
                      (to_q7 (clip (to_q31 (Z.shiftl (to_q15 (load src (pSrc s)))
                                                    shiftBits)) (-128) 127))) in
          while_cnt (blockSize / 4)%nat (fun s => one (one (one (one s)))) s0
        else
          let VectInB := pack4 (- shiftBits) (- shiftBits)
                               (- shiftBits) (- shiftBits) in
          while_cnt (blockSize / 4)%nat (fun s =>
            let VectInA := loadV4 src (pSrc s) in
            let VectInC := sra4 VectInA VectInB in
            VState (pSrc s + 4) (pIn s) (pDst s + 4)
                   (storeV4 (dst s) (pDst s) VectInC)) s0 in
      (s, (blockSize mod 4)%nat)
    else (s0, blockSize) in
  if sign =? 0 then
    dst (while_cnt blkCnt (fun s =>
           VState (pSrc s + 1) (pIn s) (pDst s + 1)
                  (store (dst s) (pDst s)
                     (to_q7 (__SSAT (to_q31 (Z.shiftl (to_q15 (load src (pSrc s)))
                                                      shiftBits)) 8))))
         s1)
  else
    dst (while_cnt blkCnt (fun s =>
           VState (pSrc s + 1) (pIn s) (pDst s + 1)
                  (store (dst s) (pDst s)
                     (to_q7 (Z.shiftr (load src (pSrc s)) (- shiftBits)))))
         s1).

End BasicMathFunctions.
Export BasicMathFunctions.

(** ** Floating-point kernels

    [float32_t] and its operations are kept abstract: no property below
    depends on the value of a floating-point operation. *)

Module FloatKernels.
Section Float.

Context {float32_t : Type}.
Variable fzero : float32_t.
Variable fmul : float32_t -> float32_t -> float32_t.
Variable fadd : float32_t -> float32_t -> float32_t.
Variable fdiv : float32_t -> float32_t -> float32_t.
Variable fgt0 : float32_t -> bool.
Variable float_of_int : Z -> float32_t.
Variable int_of_float : float32_t -> Z.
Variables f128 fhalf fneghalf : float32_t.

Definition fload (m : list float32_t) (p : nat) : float32_t :=
  default fzero (m !! p).

Definition fstore (m : list float32_t) (p : nat) (v : float32_t)
  : list float32_t := <[p := v]> m.

(** Two source pointers and a destination pointer: [pSrc] is [pSrcA],
    [pIn] is [pSrcB]. riscv_mult_f32.c *)
Definition riscv_mult_f32
    (srcA srcB : list float32_t) (dst0 : list float32_t) (blockSize : nat)
  : list float32_t :=
  let s0 := VState 0%nat 0%nat 0%nat dst0 in
  dst (while_cnt blockSize (fun s =>
         (* *pDst++ = ( *pSrcA++) * ( *pSrcB++); *)
         VState (pSrc s + 1) (pIn s + 1) (pDst s + 1)
                (fstore (dst s) (pDst s)
                        (fmul (fload srcA (pSrc s)) (fload srcB (pIn s)))))
       s0).

(** riscv_q7_to_float.c *)
Definition riscv_q7_to_float
    (src : list Z) (dst0 : list float32_t) (blockSize : nat)
  : list float32_t :=
  let s0 := VState 0%nat 0%nat 0%nat dst0 in
  dst (while_cnt blockSize (fun s =>
         (* *pDst++ = ((float32_t) * pIn++ / 128.0f); *)
         VState (pSrc s) (pIn s + 1) (pDst s + 1)
                (fstore (dst s) (pDst s)
                        (fdiv (float_of_int (load src (pIn s))) f128)))
       s0).

(** riscv_float_to_q7.c *)
Definition riscv_float_to_q7 (USE_DSP_RISCV RISCV_MATH_ROUNDING : bool)
    (src : list float32_t) (dst0 : list Z) (blockSize : nat) : list Z :=
  let s0 := VState 0%nat 0%nat 0%nat dst0 in
  let sat := fun x : Z =>
    if USE_DSP_RISCV then clip x (-128) 127 else __SSAT x 8 in
  dst (while_cnt blockSize (fun s =>
         let in0 := fload src (pIn s) in
         let in1 := fmul in0 f128 in
         let in2 :=
           if RISCV_MATH_ROUNDING
           then fadd in1 (if fgt0 in1 then fhalf else fneghalf)
           else in1 in
         VState (pSrc s) (pIn s + 1) (pDst s + 1)
                (store (dst s) (pDst s) (to_q7 (sat (to_q31 (int_of_float in2))))))
       s0).

End Float.
End FloatKernels.
Export FloatKernels.

(** ** Convolution (riscv_conv_opt_q15.c) *)

Module FilteringFunctions.

(** Modelled from the spec: riscv_fill_q15 and riscv_copy_q15, whose files
    are not part of the sources: [dst[n] = value] and [dst[n] = src[n]]
    for [n < blockSize]. [p] is the offset of the destination pointer in
    its buffer. *)
Definition riscv_fill_q15 (value : Z) (m : list Z) (p : nat) (blockSize : nat)
  : list Z :=
  dst (while_cnt blockSize (fun s =>
         VState (pSrc s) (pIn s) (pDst s + 1) (store (dst s) (pDst s) value))
       (VState 0%nat 0%nat p m)).

Definition riscv_copy_q15 (src : list Z) (m : list Z) (p : nat)
    (blockSize : nat) : list Z :=
  dst (while_cnt blockSize (fun s =>
         VState (pSrc s + 1) (pIn s) (pDst s + 1)
                (store (dst s) (pDst s) (load src (pSrc s))))
       (VState 0%nat 0%nat p m)).

(** The reversed copy of the shorter sequence into the second scratch
    buffer. [pScr2] walks down from the end of the buffer; after the last
    copy the source leaves it one element before the buffer, where it is
    never dereferenced (here it stays at 0). *)
Record conv_rev : Type := ConvRev {
  r_pScr2 : nat;
  r_px : nat;
  r_scr2 : list Z
}.

(** [*pScr2-- = *px++;] *)
Definition conv_rev_copy (pIn2 : list Z) (r : conv_rev) : conv_rev :=
  ConvRev (Nat.pred (r_pScr2 r)) (r_px r + 1)
          (store (r_scr2 r) (r_pScr2 r) (load pIn2 (r_px r))).

(** The variables of the loop that computes four outputs at a time.
    [VectInA] and [VectInB] are pointers into the first scratch buffer,
    [pIn2] is a pointer into the second one. *)
Record conv_quad : Type := ConvQuad {
  q_acc0 : Z;
  q_acc1 : Z;
  q_acc2 : Z;
  q_acc3 : Z;
  q_pScr1 : nat;
  q_pIn2 : nat;
  q_VectInA : nat;
  q_VectInB : nat
}.

(** One pass of the tap loop over four taps (source lines 236-275). *)
Definition conv_quad_tap (scr1 scr2 : list Z) (s : conv_quad) : conv_quad :=
  let VectInC := q_pIn2 s in
  let VectInC1 := (q_pIn2 s + 2)%nat in
  let VectInA := q_VectInA s in
  let VectInB := q_VectInB s in
  let acc0 := to_q63 (q_acc0 s + dotpv2 (loadV2 scr1 VectInA) (loadV2 scr2 VectInC)) in
  let acc2 := to_q63 (q_acc2 s + dotpv2 (loadV2 scr1 VectInB) (loadV2 scr2 VectInC)) in
  let VectInD := V2 (lane1 (loadV2 scr1 VectInA)) (lane0 (loadV2 scr1 VectInB)) in
  let acc1 := to_q63 (q_acc1 s + dotpv2 VectInD (loadV2 scr2 VectInC)) in
  let VectInA := q_pScr1 s in
  let acc0 := to_q63 (acc0 + dotpv2 (loadV2 scr1 VectInB) (loadV2 scr2 VectInC1)) in
  let acc2 := to_q63 (acc2 + dotpv2 (loadV2 scr1 VectInA) (loadV2 scr2 VectInC1)) in
  let VectInD := V2 (lane1 (loadV2 scr1 VectInB)) (lane0 (loadV2 scr1 VectInA)) in
  let acc3 := to_q63 (q_acc3 s + dotpv2 VectInD (loadV2 scr2 VectInC)) in
  let acc1 := to_q63 (acc1 + dotpv2 VectInD (loadV2 scr2 VectInC1)) in
  let VectInB := (q_pScr1 s + 2)%nat in
  let VectInD := V2 (lane1 (loadV2 scr1 VectInA)) (lane0 (loadV2 scr1 VectInB)) in
  let acc3 := to_q63 (acc3 + dotpv2 VectInD (loadV2 scr2 VectInC1)) in
  ConvQuad acc0 acc1 acc2 acc3 (q_pScr1 s + 4) (q_pIn2 s + 4) VectInA VectInB.

(** One pass of the loop over the remaining taps (source lines 283-296):
    four post-increments of [pScr1], then [pScr1 -= 3u]. The product of
    two [q15_t] is an [int]. *)
Definition conv_quad_rem (scr1 scr2 : list Z) (s : conv_quad) : conv_quad :=
  let p := q_pScr1 s in
  let y := load scr2 (q_pIn2 s) in
  ConvQuad (to_q63 (q_acc0 s + to_q31 (load scr1 p * y)))
           (to_q63 (q_acc1 s + to_q31 (load scr1 (p + 1) * y)))
           (to_q63 (q_acc2 s + to_q31 (load scr1 (p + 2) * y)))
           (to_q63 (q_acc3 s + to_q31 (load scr1 (p + 3) * y)))
           (p + 4 - 3) (q_pIn2 s + 1) (q_VectInA s) (q_VectInB s).

(** The output loops: [pScratch1] advances over the first scratch buffer,
    [pOut] over the destination. *)
Record conv_out : Type := ConvOut {
  o_pScratch1 : nat;
  o_pOut : nat;
  o_dst : list Z
}.

(** One pass of the loop that stores four outputs (source lines 218-311). *)
Definition conv_block (scr1 scr2 : list Z) (srcBLen : nat) (o : conv_out)
  : conv_out :=
  let pScr1 := o_pScratch1 o in
  let VectInA := pScr1 in
  let pScr1 := (pScr1 + 2)%nat in
  let VectInB := pScr1 in
  let pScr1 := (pScr1 + 2)%nat in
  let q := while_cnt (srcBLen / 4)%nat (conv_quad_tap scr1 scr2)
             (ConvQuad 0 0 0 0 pScr1 0%nat VectInA VectInB) in
  (* pScr1 -= 4u; *)
  let q := ConvQuad (q_acc0 q) (q_acc1 q) (q_acc2 q) (q_acc3 q)
             (q_pScr1 q - 4) (q_pIn2 q) (q_VectInA q) (q_VectInB q) in
  let q := while_cnt (srcBLen mod 4)%nat (conv_quad_rem scr1 scr2) q in
  let d := storeV2 (o_dst o) (o_pOut o)
             (pack2 (__SSAT (Z.shiftr (q_acc0 q) 15) 16)
                    (__SSAT (Z.shiftr (q_acc1 q) 15) 16)) in
  let d := storeV2 d (o_pOut o + 2)
             (pack2 (__SSAT (Z.shiftr (q_acc2 q) 15) 16)
                    (__SSAT (Z.shiftr (q_acc3 q) 15) 16)) in
  ConvOut (o_pScratch1 o + 4) (o_pOut o + 4) d.

(** The variables of the loop that computes one output at a time. *)
Record conv_single : Type := ConvSingle {
  t_acc0 : Z;
  t_pScr1 : nat;
  t_pIn2 : nat
}.

(** [acc0 += ( *pScr1++ * *pIn2++);] *)
Definition conv_single_tap (scr1 scr2 : list Z) (t : conv_single)
  : conv_single :=
  ConvSingle (to_q63 (t_acc0 t
                      + to_q31 (load scr1 (t_pScr1 t) * load scr2 (t_pIn2 t))))
             (t_pScr1 t + 1) (t_pIn2 t + 1).

(** One pass of the loop over the remaining outputs (source lines
    317-363). *)
Definition conv_tail (scr1 scr2 : list Z) (srcBLen : nat) (o : conv_out)
  : conv_out :=
  let t := while_cnt (srcBLen / 2)%nat
             (fun t => conv_single_tap scr1 scr2 (conv_single_tap scr1 scr2 t))
             (ConvSingle 0 (o_pScratch1 o) 0%nat) in
  let t := while_cnt (srcBLen mod 2)%nat (conv_single_tap scr1 scr2) t in
  ConvOut (o_pScratch1 o + 1) (o_pOut o + 1)
          (store (o_dst o) (o_pOut o)
                 (to_q15 (__SSAT (Z.shiftr (t_acc0 t) 15) 16))).

(** The operands after the exchange at the head of the function: the
    longer sequence [pIn1] with its length, then the shorter one [pIn2]. *)
Definition conv_operands (pSrcA : list Z) (srcALen : nat)
    (pSrcB : list Z) (srcBLen : nat) : (list Z * nat) * (list Z * nat) :=
  if (srcBLen <=? srcALen)%nat
  then ((pSrcA, srcALen), (pSrcB, srcBLen))
  else ((pSrcB, srcBLen), (pSrcA, srcALen)).

(** The second scratch buffer after the reversed copy (source lines
    142-177). *)
Definition conv_scratch2 (pIn2 : list Z) (srcBLen : nat) (pScratch2 : list Z)
  : list Z :=
  let r := ConvRev (srcBLen - 1) 0%nat pScratch2 in
  let r := while_cnt (srcBLen / 4)%nat
             (fun r => conv_rev_copy pIn2 (conv_rev_copy pIn2
                         (conv_rev_copy pIn2 (conv_rev_copy pIn2 r)))) r in
  let r := while_cnt (srcBLen mod 4)%nat (conv_rev_copy pIn2) r in
  r_scr2 r.

(** The first scratch buffer: [srcBLen - 1u] zeros, the longer sequence,
    [srcBLen - 1u] zeros (source lines 179-203). [srcBLen - 1u] is a
    [uint32_t]. *)
Definition conv_scratch1 (pIn1 : list Z) (srcALen srcBLen : nat)
    (pScratch1 : list Z) : list Z :=
  let n := u32 (Z.of_nat srcBLen - 1) in
  (* riscv_fill_q15(0, pScr1, (srcBLen - 1u)); pScr1 += (srcBLen - 1u); *)
  let m := riscv_fill_q15 0 pScratch1 0%nat n in
  (* riscv_copy_q15(pIn1, pScr1, srcALen); pScr1 += srcALen; *)
  let m := riscv_copy_q15 pIn1 m n srcALen in
  (* riscv_fill_q15(0, pScr1, (srcBLen - 1u)); *)
  riscv_fill_q15 0 m (n + srcALen)%nat n.

(** The lengths are [uint32_t], and so is the number of outputs
    [srcALen + srcBLen - 1u] (source lines 216 and 314). The result is the
    final contents of the destination buffer. *)
Definition riscv_conv_opt_q15 (pSrcA : list Z) (srcALen : nat)
    (pSrcB : list Z) (srcBLen : nat)
    (pDst pScratch1 pScratch2 : list Z) : list Z :=
  let '((pIn1, srcALen), (pIn2, srcBLen)) :=
    conv_operands pSrcA srcALen pSrcB srcBLen in
  let scr2 := conv_scratch2 pIn2 srcBLen pScratch2 in
  let scr1 := conv_scratch1 pIn1 srcALen srcBLen pScratch1 in
  let o := ConvOut 0%nat 0%nat pDst in
  (* blkCnt = (srcALen + srcBLen - 1u) >> 2; *)
  let o := while_cnt (u32 (Z.of_nat srcALen + Z.of_nat srcBLen - 1) / 4)%nat
             (conv_block scr1 scr2 srcBLen) o in
  (* blkCnt = (srcALen + srcBLen - 1u) & 0x3; *)
  let o := while_cnt (u32 (Z.of_nat srcALen + Z.of_nat srcBLen - 1) mod 4)%nat
             (conv_tail scr1 scr2 srcBLen) o in
  o_dst o.

End FilteringFunctions.
Export FilteringFunctions.

(** ** Fast convolution (riscv_conv_fast_q15)

    The function is the C text that follows the build rules in
    [sw/apps/sequential_tests/matrixMul16_dotp/CMakeLists.txt]; the line
    numbers below are those of that file. *)

Module FastConvolution.

(** [*p] for a pointer [p] that can stand before the first element of its
    buffer (C leaves a read there undefined; here it gives 0). *)
Definition loadz (m : list Z) (p : Z) : Z :=
  if p <? 0 then 0 else load m (Z.to_nat p).

(** [do { body } while (--k);] on a [uint32_t] counter: a counter that
    starts at 0 wraps around. *)
Definition do_while_cnt32 {S : Type} (k : nat) (body : S -> S) (s : S) : S :=
  Nat.iter (if (k =? 0)%nat then (2 ^ 32)%nat else k) body s.

(** The variables of a loop of multiply-accumulates: the 32-bit
    accumulator [sum], [px] in the longer sequence and [py] in the
    shorter one. *)
Record fast_mac : Type := FastMac {
  f_sum : Z;
  f_px : Z;
  f_py : Z
}.

(** [sum += ((q31_t) * px++ * *py--);] *)
Definition fast_mac_add (pIn1 pIn2 : list Z) (m : fast_mac) : fast_mac :=
  FastMac (to_q31 (f_sum m
                   + to_q31 (to_q31 (loadz pIn1 (f_px m)) * loadz pIn2 (f_py m))))
          (f_px m + 1) (f_py m - 1).

(** [sum = mac( *px++, *py--, sum);] *)
Definition fast_mac_mac (pIn1 pIn2 : list Z) (m : fast_mac) : fast_mac :=
  FastMac (mac (loadz pIn1 (f_px m)) (loadz pIn2 (f_py m)) (f_sum m))
          (f_px m + 1) (f_py m - 1).

(** The variables of the loops over the outputs of the first two stages. *)
Record fast_out : Type := FastOut {
  fo_count : nat;
  fo_px : Z;
  fo_py : Z;
  fo_pOut : nat;
  fo_dst : list Z
}.

(** Stage 1, one pass of the first loop (source lines 319-348). *)
Definition fast_stage1_short (pIn1 pIn2 : list Z) (o : fast_out) : fast_out :=
  let m := while_cnt (fo_count o) (fast_mac_add pIn1 pIn2)
             (FastMac 0 (fo_px o) (fo_py o)) in
  (* *pOut++ = (q15_t) (sum >> 15); py = pIn2 + count; px = pIn1; count++; *)
  FastOut (fo_count o + 1) 0 (Z.of_nat (fo_count o)) (fo_pOut o + 1)
          (store (fo_dst o) (fo_pOut o) (to_q15 (Z.shiftr (f_sum m) 15))).

(** [while ((count < 4u) && (blockSize1 > 0u)) { ...; blockSize1--; }]:
    the value of [blockSize1] after the loop, and the other variables. *)
Fixpoint fast_stage1_first (pIn1 pIn2 : list Z) (blockSize1 : nat)
    (o : fast_out) : nat * fast_out :=
  match blockSize1 with
  | O => (O, o)
  | S b =>
      if (fo_count o <? 4)%nat
      then fast_stage1_first pIn1 pIn2 b (fast_stage1_short pIn1 pIn2 o)
      else (blockSize1, o)
  end.

(** Stage 1, one pass of the second loop (source lines 357-405). *)
Definition fast_stage1_long (pIn1 pIn2 : list Z) (o : fast_out) : fast_out :=
  (* py++; *)
  let m := FastMac 0 (fo_px o) (fo_py o + 1) in
  let m := while_cnt (fo_count o / 4)%nat
             (fun m => fast_mac_add pIn1 pIn2 (fast_mac_add pIn1 pIn2
                         (fast_mac_add pIn1 pIn2 (fast_mac_add pIn1 pIn2 m)))) m in
  let m := while_cnt (fo_count o mod 4)%nat (fast_mac_add pIn1 pIn2) m in
  (* *pOut++ = (q15_t) (sum >> 15); py = pIn2 + (count - 1u); px = pIn1;
     count++; *)
  FastOut (fo_count o + 1) 0 (Z.of_nat (u32 (Z.of_nat (fo_count o) - 1)))
          (fo_pOut o + 1)
          (store (fo_dst o) (fo_pOut o) (to_q15 (Z.shiftr (f_sum m) 15))).

(** The variables of the loop of stage 2 that computes four outputs at a
    time. *)
Record fast_quad : Type := FastQuad {
  fq_acc0 : Z;
  fq_acc1 : Z;
  fq_acc2 : Z;
  fq_acc3 : Z;
  fq_px : Z;
  fq_py : Z;
  fq_VectInA : shortV;
  fq_VectInB : shortV;
  fq_VectInC : shortV;
  fq_VectInD : shortV;
  fq_VectInE : shortV
}.

(** One pass of the [do ... while (--k)] loop (source lines 465-519). *)
Definition fast_quad_tap (pIn1 pIn2 : list Z) (q : fast_quad) : fast_quad :=
  let px := fq_px q in
  (* a = *py; b = *(py+1); py -= 2; VectInC[0] = a; VectInC[1] = b; *)
  let VectInC := set_lane1 (set_lane0 (fq_VectInC q) (loadz pIn2 (fq_py q)))
                           (loadz pIn2 (fq_py q + 1)) in
  let py := fq_py q - 2 in
  let acc0 := sumdotpv2 (fq_VectInA q) VectInC (fq_acc0 q) in
  let acc1 := sumdotpv2 (fq_VectInB q) VectInC (fq_acc1 q) in
  (* a = *px; b = *(px + 1); VectInD[0] = a; VectInD[1] = b;
     a = *(px + 2); VectInE[0] = b; VectInE[1] = a; *)
  let VectInD := set_lane1 (set_lane0 (fq_VectInD q) (loadz pIn1 px))
                           (loadz pIn1 (px + 1)) in
  let VectInE := set_lane1 (set_lane0 (fq_VectInE q) (loadz pIn1 (px + 1)))
                           (loadz pIn1 (px + 2)) in
  let acc2 := sumdotpv2 VectInD VectInC (fq_acc2 q) in
  let acc3 := sumdotpv2 VectInE VectInC (fq_acc3 q) in
  (* a = *py; b = *(py+1); py -= 2; VectInC[0] = a; VectInC[1] = b; *)
  let VectInC := set_lane1 (set_lane0 VectInC (loadz pIn2 py))
                           (loadz pIn2 (py + 1)) in
  let py := py - 2 in
  let acc0 := sumdotpv2 VectInD VectInC acc0 in
  let acc1 := sumdotpv2 VectInE VectInC acc1 in
  (* a = *(px + 2); b = *(px + 3); VectInA[0] = a; VectInA[1] = b;
     a = *(px + 4); VectInB[0] = b; VectInB[1] = a; px += 4u; *)
  let VectInA := set_lane1 (set_lane0 (fq_VectInA q) (loadz pIn1 (px + 2)))
                           (loadz pIn1 (px + 3)) in
  let VectInB := set_lane1 (set_lane0 (fq_VectInB q) (loadz pIn1 (px + 3)))
                           (loadz pIn1 (px + 4)) in
  let px := px + 4 in
  let acc2 := sumdotpv2 VectInA VectInC acc2 in
  let acc3 := sumdotpv2 VectInB VectInC acc3 in
  FastQuad acc0 acc1 acc2 acc3 px py VectInA VectInB VectInC VectInD VectInE.

(** The taps left when [srcBLen] is not a multiple of 4 (source lines
    526-614); [k] is [srcBLen % 4]. *)
Definition fast_quad_rem (pIn1 pIn2 : list Z) (k : nat) (q : fast_quad)
  : fast_quad :=
  let px := fq_px q in
  let py := fq_py q in
  let q :=
    if (k =? 1)%nat then
      (* VectInC[0] = VectInC[1]; VectInC[1] = 0; *)
      let VectInC := set_lane0 (fq_VectInC q) (lane1 (fq_VectInC q)) in
      let VectInC := set_lane1 VectInC 0 in
      (* a = *px; b = *(px+1); px++; VectInD[0] = a; VectInD[1] = b; *)
      let VectInD := set_lane1 (set_lane0 (fq_VectInD q) (loadz pIn1 px))
                               (loadz pIn1 (px + 1)) in
      FastQuad (sumdotpv2 (fq_VectInA q) VectInC (fq_acc0 q))
               (sumdotpv2 (fq_VectInB q) VectInC (fq_acc1 q))
               (sumdotpv2 (fq_VectInB q) VectInC (fq_acc2 q))
               (sumdotpv2 VectInD VectInC (fq_acc3 q))
               (px + 1) py (fq_VectInA q) (fq_VectInB q) VectInC VectInD
               (fq_VectInE q)
    else q in
  let px := fq_px q in
  let q :=
    if (k =? 2)%nat then
      (* a = *py; b = *(py+1); VectInC[0] = a; VectInC[1] = b; *)
      let VectInC := set_lane1 (set_lane0 (fq_VectInC q) (loadz pIn2 py))
                               (loadz pIn2 (py + 1)) in
      (* a = *px; b = *(px + 1); VectInE[0] = a; VectInE[1] = b;
         a = *(px + 2); VectInD[0] = b; VectInD[1] = a; px += 2u; *)
      let VectInE := set_lane1 (set_lane0 (fq_VectInE q) (loadz pIn1 px))
                               (loadz pIn1 (px + 1)) in
      let VectInD := set_lane1 (set_lane0 (fq_VectInD q) (loadz pIn1 (px + 1)))
                               (loadz pIn1 (px + 2)) in
      FastQuad (sumdotpv2 (fq_VectInA q) VectInC (fq_acc0 q))
               (sumdotpv2 (fq_VectInB q) VectInC (fq_acc1 q))
               (sumdotpv2 VectInE VectInC (fq_acc2 q))
               (sumdotpv2 VectInD VectInC (fq_acc3 q))
               (px + 2) py (fq_VectInA q) (fq_VectInB q) VectInC VectInD VectInE
    else q in
  let px := fq_px q in
  if (k =? 3)%nat then
    (* a = *py; b = *(py+1); VectInC[0] = a; VectInC[1] = b; *)
    let VectInC := set_lane1 (set_lane0 (fq_VectInC q) (loadz pIn2 py))
                             (loadz pIn2 (py + 1)) in
    (* a = *px; b = *(px + 1); VectInE[0] = a; VectInE[1] = b;
       a = *(px + 2); VectInD[0] = b; VectInD[1] = a; *)
    let VectInE := set_lane1 (set_lane0 (fq_VectInE q) (loadz pIn1 px))
                             (loadz pIn1 (px + 1)) in
    let VectInD := set_lane1 (set_lane0 (fq_VectInD q) (loadz pIn1 (px + 1)))
                             (loadz pIn1 (px + 2)) in
    let acc0 := sumdotpv2 (fq_VectInA q) VectInC (fq_acc0 q) in
    let acc1 := sumdotpv2 (fq_VectInB q) VectInC (fq_acc1 q) in
    let acc2 := sumdotpv2 VectInE VectInC (fq_acc2 q) in
    let acc3 := sumdotpv2 VectInD VectInC (fq_acc3 q) in
    (* VectInC[0] = VectInC[1]; VectInC[1] = 0; *)
    let VectInC := set_lane0 VectInC (lane1 VectInC) in
    let VectInC := set_lane1 VectInC 0 in
    (* a = *(px+2); b = *(px+3); VectInE[0] = a; VectInE[1] = b;
       px += 3u; *)
    let VectInE := set_lane1 (set_lane0 VectInE (loadz pIn1 (px + 2)))
                             (loadz pIn1 (px + 3)) in
    FastQuad (sumdotpv2 (fq_VectInB q) VectInC acc0)
             (sumdotpv2 VectInD VectInC acc1)
             (sumdotpv2 VectInD VectInC acc2)
             (sumdotpv2 VectInE VectInC acc3)
             (px + 3) py (fq_VectInA q) (fq_VectInB q) VectInC VectInD VectInE
  else q.

(** Stage 2, one pass of the loop that computes four outputs (source
    lines 441-634). The vectors [VectInC], [VectInD] and [VectInE] are
    written before they are read in every pass; they start here from
    zero lanes. *)
Definition fast_quad_accs (pIn1 pIn2 : list Z) (srcBLen : nat) (px py : Z)
    : fast_quad :=
  (* py = py - 1u; *)
  let py := py - 1 in
  (* a = *px++; b = *px++; VectInA[0] = a; VectInA[1] = b;
     a = *px; VectInB[0] = b; VectInB[1] = a; *)
  let VectInA := set_lane1 (set_lane0 (V2 0 0) (loadz pIn1 px))
                           (loadz pIn1 (px + 1)) in
  let VectInB := set_lane1 (set_lane0 (V2 0 0) (loadz pIn1 (px + 1)))
                           (loadz pIn1 (px + 2)) in
  let q := FastQuad 0 0 0 0 (px + 2) py VectInA VectInB (V2 0 0) (V2 0 0)
             (V2 0 0) in
  (* k = srcBLen >> 2u; do { ... } while (--k); *)
  let q := do_while_cnt32 (srcBLen / 4)%nat (fast_quad_tap pIn1 pIn2) q in
  (* k = srcBLen % 0x4u; *)
  fast_quad_rem pIn1 pIn2 (srcBLen mod 4)%nat q.

(** The stores that end the pass (source lines 617-634), and the
    pointers for the next one. *)
Definition fast_stage2_quad (pIn1 pIn2 : list Z) (srcBLen : nat) (pSrc2 : Z)
    (o : fast_out) : fast_out :=
  let q := fast_quad_accs pIn1 pIn2 srcBLen (fo_px o) (fo_py o) in
  let d := storeV2 (fo_dst o) (fo_pOut o)
             (pack2 (clip (Z.shiftr (fq_acc0 q) 15) (-32768) 32767)
                    (clip (Z.shiftr (fq_acc1 q) 15) (-32768) 32767)) in
  let d := storeV2 d (fo_pOut o + 2)
             (pack2 (clip (Z.shiftr (fq_acc2 q) 15) (-32768) 32767)
                    (clip (Z.shiftr (fq_acc3 q) 15) (-32768) 32767)) in
  (* count += 4u; px = pIn1 + count; py = pSrc2; *)
  FastOut (fo_count o + 4) (Z.of_nat (fo_count o + 4)) pSrc2 (fo_pOut o + 4) d.

(** Stage 2, one pass of the loop over the outputs left (source lines
    641-685). *)
Definition fast_stage2_tail (pIn1 pIn2 : list Z) (srcBLen : nat) (pSrc2 : Z)
    (o : fast_out) : fast_out :=
  let m := FastMac 0 (fo_px o) (fo_py o) in
  let m := while_cnt (srcBLen / 4)%nat
             (fun m => fast_mac_mac pIn1 pIn2 (fast_mac_mac pIn1 pIn2
                         (fast_mac_mac pIn1 pIn2 (fast_mac_mac pIn1 pIn2 m)))) m in
  let m := while_cnt (srcBLen mod 4)%nat (fast_mac_mac pIn1 pIn2) m in
  (* *pOut++ = (q15_t) (sum >> 15); count++; px = pIn1 + count;
     py = pSrc2; *)
  FastOut (fo_count o + 1) (Z.of_nat (fo_count o + 1)) pSrc2 (fo_pOut o + 1)
          (store (fo_dst o) (fo_pOut o) (to_q15 (Z.shiftr (f_sum m) 15))).

(** Stage 2 for [srcBLen < 4], one pass of the loop (source lines
    694-721). *)
Definition fast_stage2_single (pIn1 pIn2 : list Z) (srcBLen : nat) (pSrc2 : Z)
    (o : fast_out) : fast_out :=
  let m := while_cnt srcBLen (fast_mac_mac pIn1 pIn2)
             (FastMac 0 (fo_px o) (fo_py o)) in
  FastOut (fo_count o + 1) (Z.of_nat (fo_count o + 1)) pSrc2 (fo_pOut o + 1)
          (store (fo_dst o) (fo_pOut o) (to_q15 (Z.shiftr (f_sum m) 15))).

(** The variables of the loops of stage 3. *)
Record fast_tail : Type := FastTail {
  ft_blockSize3 : nat;
  ft_pSrc1 : Z;
  ft_px : Z;
  ft_py : Z;
  ft_pOut : nat;
  ft_dst : list Z
}.

(** Stage 3, one pass of the first loop (source lines 760-804); [pIn2]
    was set to [pSrc2 - 1u]. *)
Definition fast_stage3_long (pIn1 pIn2 : list Z) (pSrc2 : Z) (t : fast_tail)
  : fast_tail :=
  (* py++; *)
  let m := FastMac 0 (ft_px t) (ft_py t + 1) in
  let m := while_cnt (ft_blockSize3 t / 4)%nat
             (fun m => fast_mac_mac pIn1 pIn2 (fast_mac_mac pIn1 pIn2
                         (fast_mac_mac pIn1 pIn2 (fast_mac_mac pIn1 pIn2 m)))) m in
  let m := while_cnt (ft_blockSize3 t mod 4)%nat (fast_mac_mac pIn1 pIn2) m in
  (* *pOut++ = (q15_t) (sum >> 15); px = ++pSrc1; py = pIn2;
     blockSize3--; *)
  FastTail (ft_blockSize3 t - 1) (ft_pSrc1 t + 1) (ft_pSrc1 t + 1) (pSrc2 - 1)
           (ft_pOut t + 1)
           (store (ft_dst t) (ft_pOut t) (to_q15 (Z.shiftr (f_sum m) 15))).

(** [while ((j > 0u) && (blockSize3 > 0u)) { ...; blockSize3--; j--; }] *)
Fixpoint fast_stage3_first (pIn1 pIn2 : list Z) (pSrc2 : Z) (j : nat)
    (t : fast_tail) : fast_tail :=
  match j with
  | O => t
  | S j' =>
      if (0 <? ft_blockSize3 t)%nat
      then fast_stage3_first pIn1 pIn2 pSrc2 j' (fast_stage3_long pIn1 pIn2 pSrc2 t)
      else t
  end.

(** Stage 3, one pass of the second loop (source lines 812-837). *)
Definition fast_stage3_short (pIn1 pIn2 : list Z) (pSrc2 : Z) (t : fast_tail)
  : fast_tail :=
  let m := while_cnt (ft_blockSize3 t) (fast_mac_mac pIn1 pIn2)
             (FastMac 0 (ft_px t) (ft_py t)) in
  (* *pOut++ = (q15_t) (sum >> 15); px = ++pSrc1; py = pSrc2;
     blockSize3--; *)
  FastTail (ft_blockSize3 t - 1) (ft_pSrc1 t + 1) (ft_pSrc1 t + 1) pSrc2
           (ft_pOut t + 1)
           (store (ft_dst t) (ft_pOut t) (to_q15 (Z.shiftr (f_sum m) 15))).

(** [while (blockSize3 > 0u) { ...; blockSize3--; }]: [n] is the value of
    [blockSize3] when the loop is entered. *)
Definition fast_stage3_second (pIn1 pIn2 : list Z) (pSrc2 : Z) (n : nat)
    (t : fast_tail) : fast_tail :=
  while_cnt n (fast_stage3_short pIn1 pIn2 pSrc2) t.

(** riscv_conv_fast_q15: the final contents of the destination buffer.
    The lengths and the loop counters are [uint32_t]. *)
Definition riscv_conv_fast_q15 (pSrcA : list Z) (srcALen : nat)
    (pSrcB : list Z) (srcBLen : nat) (pDst : list Z) : list Z :=
  let '((pIn1, srcALen), (pIn2, srcBLen)) :=
    conv_operands pSrcA srcALen pSrcB srcBLen in
  let blockSize1 := u32 (Z.of_nat srcBLen - 1) in
  let blockSize2 := u32 (Z.of_nat srcALen - Z.of_nat blockSize1) in
  let blockSize3 := blockSize1 in
  (* count = 1u; px = pIn1; py = pIn2; *)
  let o := FastOut 1 0 0 0%nat pDst in
  let '(blockSize1, o) := fast_stage1_first pIn1 pIn2 blockSize1 o in
  (* py = py - 1; *)
  let o := FastOut (fo_count o) (fo_px o) (fo_py o - 1) (fo_pOut o) (fo_dst o) in
  let o := while_cnt blockSize1 (fast_stage1_long pIn1 pIn2) o in
  (* px = pIn1; pSrc2 = pIn2 + (srcBLen - 1u); py = pSrc2; count = 0u; *)
  let pSrc2 := Z.of_nat (u32 (Z.of_nat srcBLen - 1)) in
  let o := FastOut 0 0 pSrc2 (fo_pOut o) (fo_dst o) in
  let o :=
    if (4 <=? srcBLen)%nat then
      let o := while_cnt (blockSize2 / 4)%nat
                 (fast_stage2_quad pIn1 pIn2 srcBLen pSrc2) o in
      while_cnt (blockSize2 mod 4)%nat
        (fast_stage2_tail pIn1 pIn2 srcBLen pSrc2) o
    else
      while_cnt blockSize2 (fast_stage2_single pIn1 pIn2 srcBLen pSrc2) o in
  (* pSrc1 = (pIn1 + srcALen) - (srcBLen - 1u); px = pSrc1;
     pSrc2 = pIn2 + (srcBLen - 1u); pIn2 = pSrc2 - 1u; py = pIn2; *)
  let pSrc1 := Z.of_nat srcALen - Z.of_nat (u32 (Z.of_nat srcBLen - 1)) in
  let t := FastTail blockSize3 pSrc1 pSrc1 (pSrc2 - 1) (fo_pOut o) (fo_dst o) in
  (* j = blockSize3 >> 2u; *)
  let t := fast_stage3_first pIn1 pIn2 pSrc2 (blockSize3 / 4)%nat t in
  (* py = py + 1u; *)
  let t := FastTail (ft_blockSize3 t) (ft_pSrc1 t) (ft_px t) (ft_py t + 1)
             (ft_pOut t) (ft_dst t) in
  let t := fast_stage3_second pIn1 pIn2 pSrc2 (ft_blockSize3 t) t in
  ft_dst t.

End FastConvolution.
Export FastConvolution.

(** ** Matrix kernels *)

Module MatrixFunctions.

(** [riscv_matrix_instance_q15]: the dimensions are [uint16_t]. *)
Record riscv_matrix_instance_q15 : Type := Matrix {
  numRows : nat;
  numCols : nat;
  pData : list Z
}.

Inductive riscv_status : Type :=
| RISCV_MATH_SUCCESS
| RISCV_MATH_SIZE_MISMATCH.

(** The size check shared by the two kernels (made only when the library
    is built with [RISCV_MATH_MATRIX_CHECK]). *)
Definition size_mismatch (pSrcA pSrcB pDst : riscv_matrix_instance_q15) : bool :=
  negb (numCols pSrcA =? numRows pSrcB)%nat
  || negb (numRows pSrcA =? numRows pDst)%nat
  || negb (numCols pSrcB =? numCols pDst)%nat.

(** [i] is a [uint16_t]. *)
Definition u16 (n : nat) : nat := (n mod 2 ^ 16)%nat.

(** *** riscv_mat_mult_fast_q15.c *)

(** The transposition of [pSrcB] into the state buffer. *)
Record transp : Type := Transp {
  tp_pInB : nat;
  tp_px : nat;
  tp_i : nat;
  tp_pSrcBT : list Z
}.

(** [in = *pInB++; *px = in; px += numRowsB;] *)
Definition transp_elem (srcB : list Z) (numRowsB : nat) (s : transp) : transp :=
  Transp (tp_pInB s + 1) (tp_px s + numRowsB) (tp_i s)
         (store (tp_pSrcBT s) (tp_px s) (load srcB (tp_pInB s))).

Definition transp_row (srcB : list Z) (numRowsB numColsB : nat) (s : transp)
  : transp :=
  (* px = pSrcBT + i; *)
  let s := Transp (tp_pInB s) (tp_i s) (tp_i s) (tp_pSrcBT s) in
  let s := while_cnt (numColsB / 4)%nat
             (fun s => transp_elem srcB numRowsB (transp_elem srcB numRowsB
                         (transp_elem srcB numRowsB (transp_elem srcB numRowsB s))))
             s in
  let s := while_cnt (numColsB mod 4)%nat (transp_elem srcB numRowsB) s in
  (* i++; *)
  Transp (tp_pInB s) (tp_px s) (u16 (tp_i s + 1)) (tp_pSrcBT s).

Definition mat_transpose (srcB : list Z) (numRowsB numColsB : nat)
    (pState : list Z) : list Z :=
  tp_pSrcBT (do_while_cnt16 numRowsB (transp_row srcB numRowsB numColsB)
               (Transp 0%nat 0%nat 0%nat pState)).

(** The dot product of one output element: [sum] is a [q31_t]. *)
Record mac_state : Type := MacState {
  m_sum : Z;
  m_pInA : nat;
  m_pInB : nat
}.

Definition mac_quad (USE_DSP_RISCV : bool) (srcA srcBT : list Z) (m : mac_state)
  : mac_state :=
  let pInA := m_pInA m in
  let pInB := m_pInB m in
  if USE_DSP_RISCV then
    let sum := sumdotpv2 (loadV2 srcA pInA) (loadV2 srcBT pInB) (m_sum m) in
    let sum := sumdotpv2 (loadV2 srcA (pInA + 2)) (loadV2 srcBT (pInB + 2)) sum in
    MacState sum (pInA + 4) (pInB + 4)
  else
    let inA1 := load srcA pInA in
    let inB1 := load srcBT pInB in
    let inA2 := load srcA (pInA + 1) in
    let sum := to_q31 (m_sum m + to_q31 (inA1 * inB1)) in
    let inB2 := load srcBT (pInB + 1) in
    let inA1 := load srcA (pInA + 2) in
    let inB1 := load srcBT (pInB + 2) in
    let sum := to_q31 (sum + to_q31 (inA2 * inB2)) in
    let inA2 := load srcA (pInA + 3) in
    let inB2 := load srcBT (pInB + 3) in
    let sum := to_q31 (sum + to_q31 (inA1 * inB1)) in
    let sum := to_q31 (sum + to_q31 (inA2 * inB2)) in
    MacState sum (pInA + 4) (pInB + 4).

Definition mac_single (USE_DSP_RISCV : bool) (srcA srcBT : list Z)
    (m : mac_state) : mac_state :=
  let a := load srcA (m_pInA m) in
  let b := load srcBT (m_pInB m) in
  MacState (if USE_DSP_RISCV then mac a b (m_sum m)
            else to_q31 (m_sum m + to_q31 (to_q31 a * b)))
           (m_pInA m + 1) (m_pInB m + 1).

(** The column loop: [pInB] walks over the transposed matrix, [px] over
    the destination. *)
Record mat_out : Type := MatOut {
  mo_pInB : nat;
  mo_px : nat;
  mo_i : nat;
  mo_dst : list Z
}.

Definition mat_fast_cell (USE_DSP_RISCV : bool) (srcA srcBT : list Z)
    (numColsA : nat) (o : mat_out) : mat_out :=
  (* sum = 0; pInA = pSrcA->pData + i; *)
  let m := MacState 0 (mo_i o) (mo_pInB o) in
  let m := while_cnt (numColsA / 4)%nat (mac_quad USE_DSP_RISCV srcA srcBT) m in
  let m := while_cnt (numColsA mod 4)%nat (mac_single USE_DSP_RISCV srcA srcBT) m in
  (* *px = (q15_t) (sum >> 15); px++; *)
  MatOut (m_pInB m) (mo_px o + 1) (mo_i o)
         (store (mo_dst o) (mo_px o) (to_q15 (Z.shiftr (m_sum m) 15))).

Definition mat_fast_row (USE_DSP_RISCV : bool) (srcA srcBT : list Z)
    (numColsA numColsB : nat) (o : mat_out) : mat_out :=
  (* pInB = pSrcBT; *)
  let o := MatOut 0%nat (mo_px o) (mo_i o) (mo_dst o) in
  let o := do_while_cnt16 numColsB
             (mat_fast_cell USE_DSP_RISCV srcA srcBT numColsA) o in
  (* i = i + numColsA; *)
  MatOut (mo_pInB o) (mo_px o) (u16 (mo_i o + numColsA)) (mo_dst o).

(** The result is the status and the final contents of [pDst->pData]. *)
Definition riscv_mat_mult_fast_q15 (USE_DSP_RISCV RISCV_MATH_MATRIX_CHECK : bool)
    (pSrcA pSrcB pDst : riscv_matrix_instance_q15) (pState : list Z)
  : riscv_status * list Z :=
  let numRowsA := numRows pSrcA in
  let numColsB := numCols pSrcB in
  let numColsA := numCols pSrcA in
  let numRowsB := numRows pSrcB in
  if RISCV_MATH_MATRIX_CHECK && size_mismatch pSrcA pSrcB pDst then
    (RISCV_MATH_SIZE_MISMATCH, pData pDst)
  else
    let pSrcBT := mat_transpose (pData pSrcB) numRowsB numColsB pState in
    let o := do_while_cnt16 numRowsA
               (mat_fast_row USE_DSP_RISCV (pData pSrcA) pSrcBT numColsA numColsB)
               (MatOut 0%nat 0%nat 0%nat (pData pDst)) in
    (RISCV_MATH_SUCCESS, mo_dst o).

(** *** riscv_mat_cmplx_mult_q15.c *)

(** [in = *pInB++; *px = in; in = *pInB++; px[1] = in;
    px += numRowsB * 2;] *)
Definition cmplx_transp_elem (srcB : list Z) (numRowsB : nat) (s : transp)
  : transp :=
  let m := store (tp_pSrcBT s) (tp_px s) (load srcB (tp_pInB s)) in
  let m := store m (tp_px s + 1) (load srcB (tp_pInB s + 1)) in
  Transp (tp_pInB s + 2) (tp_px s + numRowsB * 2) (tp_i s) m.

Definition cmplx_transp_row (srcB : list Z) (numRowsB numColsB : nat)
    (s : transp) : transp :=
  let s := Transp (tp_pInB s) (tp_i s) (tp_i s) (tp_pSrcBT s) in
  let s := while_cnt numColsB (cmplx_transp_elem srcB numRowsB) s in
  (* i = i + 2u; *)
  Transp (tp_pInB s) (tp_px s) (u16 (tp_i s + 2)) (tp_pSrcBT s).

Definition cmplx_transpose (srcB : list Z) (numRowsB numColsB : nat)
    (pScratch : list Z) : list Z :=
  tp_pSrcBT (do_while_cnt16 numRowsB (cmplx_transp_row srcB numRowsB numColsB)
               (Transp 0%nat 0%nat 0%nat pScratch)).

(** The complex dot product of one output cell: [sumReal] and [sumImag]
    are [q63_t]. *)
Record cmac_state : Type := CMacState {
  c_sumReal : Z;
  c_sumImag : Z;
  c_pInA : nat;
  c_pInB : nat
}.

(** The multiply-accumulate of the complex numbers at offsets [oA] and
    [oB] from [pInA] and [pInB]; the pointers are left as they are. *)
Definition cmac (USE_DSP_RISCV : bool) (srcA srcBT : list Z) (oA oB : nat)
    (m : cmac_state) : cmac_state :=
  let a := load srcA (c_pInA m + oA) in
  let b := load srcA (c_pInA m + oA + 1) in
  let c := load srcBT (c_pInB m + oB) in
  let d := load srcBT (c_pInB m + oB + 1) in
  if USE_DSP_RISCV then
    (* VectInA[0] = a; VectInA[1] = -b; VectInB[0] = c; VectInB[1] = d; *)
    let VectInA := set_lane1 (set_lane0 (V2 0 0) a) (- b) in
    let VectInB := set_lane1 (set_lane0 (V2 0 0) c) d in
    let sumReal := to_q63 (c_sumReal m + dotpv2 VectInA VectInB) in
    (* VectInA[1] = b; VectInB[0] = d; VectInB[1] = c; *)
    let VectInA := set_lane1 VectInA b in
    let VectInB := set_lane1 (set_lane0 VectInB d) c in
    let sumImag := to_q63 (c_sumImag m + dotpv2 VectInA VectInB) in
    CMacState sumReal sumImag (c_pInA m) (c_pInB m)
  else
    let sumReal := to_q63 (c_sumReal m + to_q31 (to_q31 a * c)) in
    let sumImag := to_q63 (c_sumImag m + to_q31 (to_q31 a * d)) in
    let sumReal := to_q63 (sumReal - to_q31 (to_q31 b * d)) in
    let sumImag := to_q63 (sumImag + to_q31 (to_q31 b * c)) in
    CMacState sumReal sumImag (c_pInA m) (c_pInB m).

(** One pass of the loop over two columns: the pointers advance by four
    elements. *)
Definition cmac_pair (USE_DSP_RISCV : bool) (srcA srcBT : list Z)
    (m : cmac_state) : cmac_state :=
  let m := cmac USE_DSP_RISCV srcA srcBT 0 0 m in
  let m := cmac USE_DSP_RISCV srcA srcBT 2 2 m in
  CMacState (c_sumReal m) (c_sumImag m) (c_pInA m + 4) (c_pInB m + 4).

(** The odd column: [a = *pInA++; b = *pInA++; c = *pInB++;
    d = *pInB++;]. *)
Definition cmac_odd (USE_DSP_RISCV : bool) (srcA srcBT : list Z)
    (m : cmac_state) : cmac_state :=
  let m := cmac USE_DSP_RISCV srcA srcBT 0 0 m in
  CMacState (c_sumReal m) (c_sumImag m) (c_pInA m + 2) (c_pInB m + 2).

Definition cmplx_cell (USE_DSP_RISCV : bool) (srcA srcBT : list Z)
    (numColsA : nat) (o : mat_out) : mat_out :=
  (* sumReal = 0; sumImag = 0; pInA = pSrcA->pData + i * 2; *)
  let m := CMacState 0 0 (mo_i o * 2) (mo_pInB o) in
  let m := while_cnt (numColsA / 2)%nat (cmac_pair USE_DSP_RISCV srcA srcBT) m in
  let m := if (0 <? numColsA mod 2)%nat
           then cmac_odd USE_DSP_RISCV srcA srcBT m else m in
  let sat := fun x : Z =>
    if USE_DSP_RISCV then clip x (-32768) 32767 else __SSAT x 16 in
  let d := store (mo_dst o) (mo_px o)
             (to_q15 (sat (Z.shiftr (c_sumReal m) 15))) in
  let d := store d (mo_px o + 1)
             (to_q15 (sat (Z.shiftr (c_sumImag m) 15))) in
  MatOut (c_pInB m) (mo_px o + 2) (mo_i o) d.

Definition cmplx_row (USE_DSP_RISCV : bool) (srcA srcBT : list Z)
    (numColsA numColsB : nat) (o : mat_out) : mat_out :=
  let o := MatOut 0%nat (mo_px o) (mo_i o) (mo_dst o) in
  let o := do_while_cnt16 numColsB
             (cmplx_cell USE_DSP_RISCV srcA srcBT numColsA) o in
  MatOut (mo_pInB o) (mo_px o) (u16 (mo_i o + numColsA)) (mo_dst o).

Definition riscv_mat_cmplx_mult_q15 (USE_DSP_RISCV RISCV_MATH_MATRIX_CHECK : bool)
    (pSrcA pSrcB pDst : riscv_matrix_instance_q15) (pScratch : list Z)
  : riscv_status * list Z :=
  let numRowsA := numRows pSrcA in
  let numColsB := numCols pSrcB in
  let numColsA := numCols pSrcA in
  let numRowsB := numRows pSrcB in
  if RISCV_MATH_MATRIX_CHECK && size_mismatch pSrcA pSrcB pDst then
    (RISCV_MATH_SIZE_MISMATCH, pData pDst)
  else
    let pSrcBT := cmplx_transpose (pData pSrcB) numRowsB numColsB pScratch in
    let o := do_while_cnt16 numRowsA
               (cmplx_row USE_DSP_RISCV (pData pSrcA) pSrcBT numColsA numColsB)
               (MatOut 0%nat 0%nat 0%nat (pData pDst)) in
    (RISCV_MATH_SUCCESS, mo_dst o).

End MatrixFunctions.
Export MatrixFunctions.

(** ** Interrupt handlers (sw/libs/sys_lib/src/int.c) *)

Module SysLib.

Section Interrupts.

(** [handler_t] is the type of a pointer to a handler, [arg_t] the type
    [void *] of its argument; [null] is the null pointer.
    [MAX_INT_HANDLERS] is a constant of int.h, which is not part of the
    sources. *)
Context {handler_t arg_t : Type}.
Variable MAX_INT_HANDLERS : nat.
Variable handler_stub : handler_t.
Variable null : arg_t.

(** [struct ihnd]. *)
Record ihnd : Type := Ihnd { handler : handler_t; arg : arg_t }.

(** [int_init]: every entry of the table [int_handlers] is set to the
    stub. *)
Definition int_init (int_handlers : list ihnd) : list ihnd :=
  for_range 0 MAX_INT_HANDLERS
    (fun i t => <[i := Ihnd handler_stub null]> t) int_handlers.

(** [int_add]: the value returned and the table. *)
Definition int_add (irq : nat) (h : handler_t) (a : arg_t)
    (int_handlers : list ihnd) : Z * list ihnd :=
  if (MAX_INT_HANDLERS <=? irq)%nat then (0, int_handlers)
  else (1, <[irq := Ihnd h a]> int_handlers).

(** [int_main]: the entry of the table whose handler is called with its
    argument, for the value [mcause] read from the cause register (an
    [int]); [None] when no handler is called. [1 << 31] is the sign bit.
    The store to the [ICP] register that ends the function is outside of
    the table and is left out. *)
Definition int_main (mcause : Z) (int_handlers : list ihnd) : option ihnd :=
  if Z.land mcause (- 2 ^ 31) =? 0 then None
  else int_handlers !! Z.to_nat (Z.land mcause 31).

End Interrupts.

End SysLib.
Export SysLib.

(** ** The SPI loader (fpga/sw/apps/spi_loader/main.c) *)

Module SpiLoader.

(** [spi_load]: the size of the transfer, [in_size] rounded up to 32-bit
    words (source lines 155-158). *)
Definition spi_load_size (in_size : Z) : Z :=
  if Z.land in_size 3 =? 0 then in_size
  else Z.land in_size (Z.lnot 3) + 4.

(** A call [spi_load(addr[start], (char* )&data[start], in_size)]. *)
Record spi_load_call : Type := SpiLoad {
  sl_addr : Z;
  sl_start : nat;
  sl_in_size : Z
}.

(** The variables of the loop of [process_file] that builds blocks of
    consecutive addresses: [start_idx] and the calls of [spi_load] made
    so far, the last one first. *)
Record blocks : Type := Blocks {
  start_idx : nat;
  calls : list spi_load_call
}.

(** One pass of the loop (source lines 378-385); the addresses are
    [uint32_t]. *)
Definition process_file_block (addr : list Z) (entries : nat) (i : nat)
    (b : blocks) : blocks :=
  if negb (load addr i =? (load addr (i - 1) + 4) mod 2 ^ 32)
     || (i - start_idx b =? 255)%nat
     || (i =? entries - 1)%nat
  then Blocks i
         (SpiLoad (load addr (start_idx b)) (start_idx b)
                  (Z.of_nat (i - start_idx b + 1) * 4) :: calls b)
  else b.

(** The calls of [spi_load] made by [process_file] for the [entries]
    addresses read from the file, in the order they are made. *)
Definition process_file_blocks (addr : list Z) (entries : nat)
  : list spi_load_call :=
  rev (calls (for_range 1 (entries - 1)
                (process_file_block addr entries) (Blocks 0%nat []))).

End SpiLoader.
Export SpiLoader.

(** ** Reference values

    The values the kernels are expected to store, written after their
    documentation rather than after their code. *)

Module Reference.

(** [sumf f n] is the sum of [f 0], ..., [f (n - 1)]. *)
Fixpoint sumf (f : nat -> Z) (n : nat) : Z :=
  match n with
  | O => 0
  | S m => sumf f m + f m
  end.

(** Absolute value with saturation of the minimum. *)
Definition abs_q31_spec (x : Z) : Z :=
  if x =? INT32_MIN then INT32_MAX else Z.abs x.

(** A Q15 value with its low 8 bits zeroed: [x AND 0xFF00] on the 16-bit
    two's-complement pattern of [x]. *)
Definition q15_low8_zeroed (x : Z) : Z :=
  to_q15 (Z.land (x mod 2 ^ 16) 65280).

(** The linear convolution of two sequences that are zero outside of
    their range: the sum over [k] of [A[k] * B[n - k]]. *)
Definition conv_sum (A B : list Z) (n : nat) : Z :=
  sumf (fun k => nth k A 0 * nth (n - k) B 0) (S n).

(** The Q15 output of the convolution: the exact sum, shifted right by 15
    bits and saturated to 16 bits. *)
Definition conv_q15_spec (A B : list Z) (n : nat) : Z :=
  __SSAT (Z.shiftr (conv_sum A B n) 15) 16.

(** Element [(i, j)] of a row-major matrix. *)
Definition mat_elem (M : riscv_matrix_instance_q15) (i j : nat) : Z :=
  nth (i * numCols M + j) (pData M) 0.

(** The fast Q15 matrix product: the dot product of row [i] of [A] and
    column [j] of [B] in a 32-bit accumulator, shifted right by 15 bits
    and saturated to the Q15 range. *)
Definition mat_mult_fast_q15_spec (A B : riscv_matrix_instance_q15)
    (i j : nat) : Z :=
  __SSAT (Z.shiftr
            (to_q31 (sumf (fun k => mat_elem A i k * mat_elem B k j) (numCols A)))
            15) 16.

(** Real and imaginary part of element [(i, j)] of a row-major matrix of
    interleaved complex numbers. *)
Definition cmplx_re (M : riscv_matrix_instance_q15) (i j : nat) : Z :=
  nth (2 * (i * numCols M + j)) (pData M) 0.

Definition cmplx_im (M : riscv_matrix_instance_q15) (i j : nat) : Z :=
  nth (2 * (i * numCols M + j) + 1) (pData M) 0.

(** The complex Q15 matrix product: the exact sums of
    [a.re*b.re - a.im*b.im] and of [a.re*b.im + a.im*b.re], each shifted
    right by 15 bits and saturated to 16 bits once. *)
Definition cmplx_mult_re_spec (A B : riscv_matrix_instance_q15) (i j : nat) : Z :=
  __SSAT (Z.shiftr
            (sumf (fun k => cmplx_re A i k * cmplx_re B k j
                            - cmplx_im A i k * cmplx_im B k j) (numCols A))
            15) 16.

Definition cmplx_mult_im_spec (A B : riscv_matrix_instance_q15) (i j : nat) : Z :=
  __SSAT (Z.shiftr
            (sumf (fun k => cmplx_re A i k * cmplx_im B k j
                            + cmplx_im A i k * cmplx_re B k j) (numCols A))
            15) 16.

(** Vocabulary of the convolution proof. *)

(** The range of a [q15_t]. *)
Definition q15r (z : Z) : Prop := -32768 <= z <= 32767.

(** A Q15 value other than the minimum, -32768 (the only value whose
    square is [2^30]). *)
Definition not_min_q15 (z : Z) : bool := negb (z =? -32768).

(** The dot product of [n] elements of [x] from offset [q] with the first
    [n] elements of [y]. *)
Definition dot (x y : list Z) (q n : nat) : Z :=
  sumf (fun k => load x (q + k) * load y k) n.

(** The value stored for an accumulator. *)
Definition sat15 (v : Z) : Z := __SSAT (Z.shiftr v 15) 16.

(** The contents of the first scratch buffer: the longer sequence between
    two runs of [lb - 1] zeros. *)
Definition padded (L : list Z) (la lb : nat) (i : nat) : Z :=
  if (i <? lb - 1)%nat then 0
  else if (i <? lb - 1 + la)%nat then load L (i - (lb - 1)) else 0.

(** The Q7 value converted from a floating-point value [v]: [v * 128],
    rounded to the nearest when the library is built with
    [RISCV_MATH_ROUNDING], converted to a 32-bit integer and clamped to
    the Q7 range. *)
Definition float_to_q7_value {float32_t : Type}
    (fmul fadd : float32_t -> float32_t -> float32_t)
    (fgt0 : float32_t -> bool) (int_of_float : float32_t -> Z)
    (f128 fhalf fneghalf : float32_t)
    (RISCV_MATH_ROUNDING : bool) (v : float32_t) : Z :=
  let t := fmul v f128 in
  let t := if RISCV_MATH_ROUNDING
           then fadd t (if fgt0 t then fhalf else fneghalf) else t in
  Z.max (-128) (Z.min (to_q31 (int_of_float t)) 127).

(** Blocks of entries that follow one another from entry [first] to
    entry [last]: each block holds [sl_in_size / 4] entries from
    [sl_start], and the next block starts at the last entry of the one
    before. *)
Fixpoint blocks_chain (first : nat) (cs : list spi_load_call) (last : nat)
  : Prop :=
  match cs with
  | [] => first = last
  | c :: r =>
      sl_start c = first /\
      blocks_chain (first + Z.to_nat (sl_in_size c / 4) - 1) r last
  end.

(** The value stored by the fast convolution for the exact sum [s]: the
    sum wrapped to 32 bits, shifted right by 15 bits and truncated to 16
    bits. *)
Definition fast_q15 (s : Z) : Z := to_q15 (Z.shiftr (to_q31 s) 15).

(** The sum of [k] products of the elements of [x] from [px] upwards with
    the elements of [y] from [py] downwards. *)
Definition wsum (x y : list Z) (px py : Z) (k : nat) : Z :=
  sumf (fun i => loadz x (px + Z.of_nat i) * loadz y (py - Z.of_nat i)) k.

(** The destination after [t] outputs: output [n] is [v n] where [G n]
    holds, and the elements from [t] on are those of [d0]. *)
Definition out_inv (v : nat -> Z) (G : nat -> Prop) (d0 d : list Z) (t : nat)
  : Prop :=
  length d = length d0 /\
  (forall n, (n < t)%nat -> G n -> d !! n = Some (v n)) /\
  (forall n, (t <= n)%nat -> d !! n = d0 !! n).

(** Output [r] of the four that a pass of the four-at-a-time loop of
    stage 2 stores when it is entered with [count = c]. *)
Definition fast_quad_value (x y : list Z) (L c r : nat) : Z :=
  let q := fast_quad_accs x y L (Z.of_nat c) (Z.of_nat (L - 1)) in
  nth r [to_q15 (clip (Z.shiftr (fq_acc0 q) 15) (-32768) 32767);
         to_q15 (clip (Z.shiftr (fq_acc1 q) 15) (-32768) 32767);
         to_q15 (clip (Z.shiftr (fq_acc2 q) 15) (-32768) 32767);
         to_q15 (clip (Z.shiftr (fq_acc3 q) 15) (-32768) 32767)] 0.

(** The sum that the four-at-a-time loop of stage 2 accumulates for the
    output whose window starts at [x[a]]: the coefficients are read in
    pairs from the end of [y], and each pair is multiplied in memory
    order. *)
Definition quad_sum (x y : list Z) (a : nat) : Z :=
  sumf (fun p => nth (a + 2 * p) x 0 * nth (length y - 2 - 2 * p) y 0
                 + nth (a + 2 * p + 1) x 0 * nth (length y - 1 - 2 * p) y 0)
       (length y / 2).

(** The same sum over pointers: [m] pairs, the first one at [py] and
    [py + 1]. *)
Definition wsum2 (x y : list Z) (px py : Z) (m : nat) : Z :=
  sumf (fun p => loadz x (px + 2 * Z.of_nat p) * loadz y (py - 2 * Z.of_nat p)
                 + loadz x (px + 2 * Z.of_nat p + 1)
                   * loadz y (py - 2 * Z.of_nat p + 1)) m.

End Reference.
Export Reference.

(** * Properties *)

(** ** Integers, buffers and loops *)

Lemma in_bits_spec w x :
  in_bits w x = true <-> - 2 ^ (w - 1) <= x < 2 ^ (w - 1).
Proof.
  unfold in_bits. rewrite andb_true_iff, Z.leb_le, Z.ltb_lt. tauto.
Qed.

Lemma wrap_id w x :
  0 < w -> - 2 ^ (w - 1) <= x < 2 ^ (w - 1) -> wrap w x = x.
Proof.
  intros Hw Hx. unfold wrap.
  assert (E : 2 ^ w = 2 * 2 ^ (w - 1)).
  { replace w with (Z.succ (w - 1)) at 1 by lia. apply Z.pow_succ_r. lia. }
  rewrite Z.mod_small; lia.
Qed.

Lemma wrap_range w x :
  0 < w -> - 2 ^ (w - 1) <= wrap w x < 2 ^ (w - 1).
Proof.
  intros Hw. unfold wrap.
  assert (E : 2 ^ w = 2 * 2 ^ (w - 1)).
  { replace w with (Z.succ (w - 1)) at 1 by lia. apply Z.pow_succ_r. lia. }
  assert (0 < 2 ^ (w - 1)) by (apply Z.pow_pos_nonneg; lia).
  pose proof (Z.mod_pos_bound (x + 2 ^ (w - 1)) (2 ^ w)). lia.
Qed.

Lemma SSAT16_range x : -32768 <= __SSAT x 16 <= 32767.
Proof. unfold __SSAT, clip. simpl. lia. Qed.


Lemma while_cnt_0 {S : Type} (body : S -> S) s : while_cnt 0 body s = s.
Proof. reflexivity. Qed.

Lemma while_cnt_S {S : Type} n (body : S -> S) s :
  while_cnt (Datatypes.S n) body s = body (while_cnt n body s).
Proof. reflexivity. Qed.

Lemma length_store m p v : length (store m p v) = length m.
Proof. apply length_insert. Qed.

Lemma load_store_eq m p v : (p < length m)%nat -> load (store m p v) p = v.
Proof.
  intros H. unfold load, store. rewrite list_lookup_insert_eq; auto.
Qed.

Lemma load_store_ne m p q v : p <> q -> load (store m p v) q = load m q.
Proof.
  intros H. unfold load, store. rewrite list_lookup_insert_ne; auto.
Qed.

Lemma lookup_store_eq m p v :
  (p < length m)%nat -> store m p v !! p = Some v.
Proof. intros H. unfold store. apply list_lookup_insert_eq. exact H. Qed.

Lemma lookup_store_ne m p q v : p <> q -> store m p v !! q = m !! q.
Proof. intros H. unfold store. apply list_lookup_insert_ne. exact H. Qed.

Lemma load_lookup m p v : m !! p = Some v -> load m p = v.
Proof. intros H. unfold load. rewrite H. reflexivity. Qed.

Lemma lookup_load (m : list Z) p :
  (p < length m)%nat -> m !! p = Some (load m p).
Proof.
  intros H. unfold load.
  destruct (lookup_lt_is_Some_2 m p H) as [v Hv]. rewrite Hv. reflexivity.
Qed.

(** A loop that stores one element per pass: [ix] is the pointer the
    stored value is computed from, [g] the value stored for each position
    of [ix]. *)
Lemma vloop_spec (ix : vstate Z -> nat) (g : nat -> Z)
    (body : vstate Z -> vstate Z) (s0 : vstate Z) (n : nat) :
  (forall s, ix (body s) = (ix s + 1)%nat /\
             pDst (body s) = (pDst s + 1)%nat /\
             dst (body s) = store (dst s) (pDst s) (g (ix s))) ->
  let s := while_cnt n body s0 in
  ix s = (ix s0 + n)%nat /\
  pDst s = (pDst s0 + n)%nat /\
  length (dst s) = length (dst s0) /\
  (forall k, (k < n)%nat -> (pDst s0 + k < length (dst s0))%nat ->
             dst s !! (pDst s0 + k)%nat = Some (g (ix s0 + k)%nat)) /\
  (forall j, (j < pDst s0)%nat \/ (pDst s0 + n <= j)%nat ->
             dst s !! j = dst s0 !! j).
Proof.
  intros Hbody. induction n as [|n IH]; cbn zeta.
  - rewrite while_cnt_0. repeat split; auto; intros; lia.
  - rewrite while_cnt_S. cbn zeta in IH.
    destruct IH as (Hix & Hp & Hlen & Hin & Hout).
    destruct (Hbody (while_cnt n body s0)) as (Bix & Bp & Bd).
    rewrite Bix, Bp, Bd, Hix, Hp, length_store.
    repeat split; try lia.
    + intros k Hk Hlt.
      destruct (Nat.eq_dec k n) as [->|Hne].
      * apply lookup_store_eq. lia.
      * rewrite lookup_store_ne by lia. apply Hin; lia.
    + intros j Hj. rewrite lookup_store_ne by lia. apply Hout. lia.
Qed.

(** ** Absolute value *)

Lemma abs_q31_scalar_value x :
  is_q31 x = true ->
  (if x >? 0 then x else if x =? INT32_MIN then INT32_MAX else - x)
  = abs_q31_spec x.
Proof.
  intros _. unfold abs_q31_spec, INT32_MIN, INT32_MAX.
  destruct (x >? 0) eqn:E1; destruct (x =? -2147483648) eqn:E2; lia.
Qed.

Lemma abs_q31_dsp_value x :
  is_q31 x = true ->
  (if x mod 2 ^ 32 =? 2147483648 then INT32_MAX else p_abs x)
  = abs_q31_spec x.
Proof.
  intros Hx. apply in_bits_spec in Hx. simpl in Hx.
  unfold abs_q31_spec, INT32_MIN, INT32_MAX, p_abs, to_q31.
  destruct (x =? -2147483648) eqn:E2.
  - apply Z.eqb_eq in E2. subst x. reflexivity.
  - apply Z.eqb_neq in E2.
    assert (Hne : x mod 2 ^ 32 <> 2147483648).
    { destruct (Z_lt_le_dec x 0).
      - replace x with (x + 4294967296 - 1 * 2 ^ 32) by (simpl; lia).
        rewrite Zminus_mod, Z_mod_mult, Z.sub_0_r, Z.mod_mod by (simpl; lia).
        rewrite Z.mod_small; simpl; lia.
      - rewrite Z.mod_small; simpl; lia. }
    apply Z.eqb_neq in Hne. rewrite Hne.
    apply wrap_id; simpl; lia.
Qed.

Lemma abs_q31_spec_nonneg x : is_q31 x = true -> 0 <= abs_q31_spec x.
Proof.
  intros _. unfold abs_q31_spec, INT32_MAX.
  destruct (x =? INT32_MIN); lia.
Qed.

Lemma forallb_lookup (P : Z -> bool) (l : list Z) n x :
  forallb P l = true -> l !! n = Some x -> P x = true.
Proof.
  intros H Hl. rewrite forallb_forall in H. apply H.
  apply list_elem_of_In. eapply list_elem_of_lookup_2. exact Hl.
Qed.

(** C9: for every element of a Q31 input vector, on the scalar and on the
    DSP-accelerated path, [riscv_abs_q31] stores [2^31 - 1] when the
    element is [-2^31] and its absolute value otherwise; the stored
    element is never negative. *)
Theorem riscv_abs_q31_saturates (USE_DSP_RISCV : bool)
    (src dst0 : list Z) (blockSize n : nat) :
  forallb is_q31 src = true ->
  (blockSize <= length src)%nat ->
  (blockSize <= length dst0)%nat ->
  (n < blockSize)%nat ->
  exists x,
    src !! n = Some x /\
    riscv_abs_q31 USE_DSP_RISCV src dst0 blockSize !! n
    = Some (if x =? - 2 ^ 31 then 2 ^ 31 - 1 else Z.abs x) /\
    0 <= (if x =? - 2 ^ 31 then 2 ^ 31 - 1 else Z.abs x).
Proof.
  intros Hq Hs Hd Hn.
  assert (Hx : src !! n = Some (load src n)) by (apply lookup_load; lia).
  exists (load src n). split; [exact Hx|].
  pose proof (forallb_lookup _ _ _ _ Hq Hx) as Hq31.
  change (if load src n =? - 2 ^ 31 then 2 ^ 31 - 1 else Z.abs (load src n))
    with (abs_q31_spec (load src n)).
  split; [|apply abs_q31_spec_nonneg; exact Hq31].
  unfold riscv_abs_q31. destruct USE_DSP_RISCV.
  - rewrite <- (abs_q31_dsp_value _ Hq31).
    match goal with |- dst (while_cnt _ ?b ?s) !! _ = _ =>
      destruct (vloop_spec pSrc
        (fun i => if load src i mod 2 ^ 32 =? 2147483648
                  then INT32_MAX else p_abs (load src i)) b s blockSize)
        as (_ & _ & _ & Hin & _) end.
    { intros s. simpl. auto. }
    apply (Hin n); simpl; lia.
  - rewrite <- (abs_q31_scalar_value _ Hq31).
    match goal with |- dst (while_cnt _ ?b ?s) !! _ = _ =>
      destruct (vloop_spec pSrc
        (fun i => if load src i >? 0 then load src i
                  else if load src i =? INT32_MIN then INT32_MAX
                       else - load src i) b s blockSize)
        as (_ & _ & _ & Hin & _) end.
    { intros s. simpl. auto. }
    apply (Hin n); simpl; lia.
Qed.

Lemma riscv_abs_q31_saturates_witness :
  exists x,
    [-2147483648; -5; 7] !! 0%nat = Some x /\
    riscv_abs_q31 true [-2147483648; -5; 7] [0; 0; 0] 3 !! 0%nat
    = Some (if x =? - 2 ^ 31 then 2 ^ 31 - 1 else Z.abs x) /\
    0 <= (if x =? - 2 ^ 31 then 2 ^ 31 - 1 else Z.abs x).
Proof.
  apply (riscv_abs_q31_saturates true [-2147483648; -5; 7] [0; 0; 0] 3 0);
    [reflexivity | simpl; lia | simpl; lia | lia].
Defined.

(** ** Q15 to Q7 and back *)

Lemma shiftr8_q15 x : is_q15 x = true -> to_q7 (Z.shiftr x 8) = Z.shiftr x 8.
Proof.
  intros Hx. apply in_bits_spec in Hx. simpl in Hx.
  apply wrap_id; [lia|]. rewrite Z.shiftr_div_pow2 by lia.
  change (2 ^ 8) with 256. change (2 ^ (8 - 1)) with 128.
  split.
  - apply Z.div_le_lower_bound; lia.
  - apply Z.div_lt_upper_bound; lia.
Qed.

(** The portable build stores [src[n] >> 8] at every index. *)
Lemma riscv_q15_to_q7_portable (src dst0 : list Z) (blockSize n : nat) :
  (blockSize <= length dst0)%nat ->
  (n < blockSize)%nat ->
  riscv_q15_to_q7 false src dst0 blockSize !! n
  = Some (to_q7 (Z.shiftr (load src n) 8)).
Proof.
  intros Hd Hn. unfold riscv_q15_to_q7.
  destruct (vloop_spec pIn (fun i => to_q7 (Z.shiftr (load src i) 8))
              (q15_to_q7_scalar src) (VState 0%nat 0%nat 0%nat dst0) blockSize)
    as (_ & _ & _ & Hin & _).
  { intros s. simpl. auto. }
  apply (Hin n); simpl; lia.
Qed.

(** The packed loop of the [USE_DSP_RISCV] build: [pIn] stays where it
    was. *)
Lemma q15_to_q7_packed_loop (src dst0 : list Z) (k : nat) :
  let s := while_cnt k (q15_to_q7_packed src) (VState 0%nat 0%nat 0%nat dst0) in
  pSrc s = (2 * k)%nat /\ pIn s = 0%nat /\ pDst s = (2 * k)%nat /\
  length (dst s) = length dst0 /\
  (forall i, (i < 2 * k)%nat -> (2 * k <= length dst0)%nat ->
             dst s !! i = Some (to_q7 (Z.shiftr (load src i) 8))) /\
  (forall j, (2 * k <= j)%nat -> dst s !! j = dst0 !! j).
Proof.
  induction k as [|k IH]; cbn zeta.
  - rewrite while_cnt_0. simpl. repeat split; auto. intros; lia.
  - rewrite while_cnt_S. cbn zeta in IH.
    destruct IH as (Hs & Hi & Hp & Hlen & Hin & Hout).
    set (s := while_cnt k _ _) in *. clearbody s.
    unfold q15_to_q7_packed. cbn [pSrc pIn pDst dst].
    rewrite Hs, Hi, Hp, !length_store.
    repeat split; try lia.
    + intros i Hi2 Hl.
      assert (C : (i < 2 * k)%nat \/ i = (2 * k)%nat \/ i = (2 * k + 1)%nat) by lia.
      destruct C as [C | [-> | ->]].
      * rewrite !lookup_store_ne by lia. apply Hin; lia.
      * rewrite lookup_store_ne by lia.
        rewrite lookup_store_eq by lia. reflexivity.
      * rewrite lookup_store_eq by (rewrite length_store; lia). reflexivity.
    + intros j Hj. rewrite !lookup_store_ne by lia. apply Hout. lia.
Qed.

(** With [USE_DSP_RISCV], the element left over by an odd [blockSize] is
    converted from [src[0]], whatever the index it is stored at. *)
Lemma riscv_q15_to_q7_dsp_last (src dst0 : list Z) (k : nat) :
  (2 * k + 1 <= length dst0)%nat ->
  riscv_q15_to_q7 true src dst0 (2 * k + 1) !! (2 * k)%nat
  = Some (to_q7 (Z.shiftr (load src 0) 8)).
Proof.
  intros Hd. unfold riscv_q15_to_q7.
  replace ((2 * k + 1) / 2)%nat with k
    by (apply (Nat.div_unique _ 2 k 1); lia).
  replace ((2 * k + 1) mod 2)%nat with 1%nat
    by (apply (Nat.mod_unique _ 2 k 1); lia).
  destruct (q15_to_q7_packed_loop src dst0 k) as (_ & Hi & Hp & Hlen & _ & _).
  rewrite while_cnt_S, while_cnt_0. unfold q15_to_q7_scalar. cbn [dst].
  rewrite Hi, Hp. apply lookup_store_eq. lia.
Qed.

(** C7: with [USE_DSP_RISCV] and [blockSize = 3], [riscv_q15_to_q7]
    stores [src[0] >> 8] in [dst[2]] where [src[2] >> 8] is expected; the
    portable build stores the expected value. *)
Theorem riscv_q15_to_q7_dsp_odd_block :
  riscv_q15_to_q7 true [256; 512; 768] [0; 0; 0] 3 = [1; 2; 1] /\
  riscv_q15_to_q7 false [256; 512; 768] [0; 0; 0] 3 = [1; 2; 3] /\
  Z.shiftr 768 8 = 3.
Proof. repeat split; vm_compute; reflexivity. Qed.

Lemma land_ff00 a : 0 <= a < 65536 -> Z.land a 65280 = 256 * (a / 256).
Proof.
  intros Ha. apply Z.bits_inj'. intros n Hn.
  replace (256 * (a / 256)) with (Z.shiftl (Z.shiftr a 8) 8)
    by (rewrite Z.shiftl_mul_pow2, Z.shiftr_div_pow2 by lia;
        change (2 ^ 8) with 256; apply Z.mul_comm).
  change 65280 with (Z.shiftl (Z.ones 8) 8).
  rewrite Z.land_spec, !Z.shiftl_spec by lia.
  destruct (Z_lt_le_dec n 8) as [H8|H8].
  - rewrite !(Z.testbit_neg_r _ (n - 8)) by lia. apply andb_false_r.
  - rewrite Z.shiftr_spec by lia. replace (n - 8 + 8) with n by lia.
    destruct (Z_lt_le_dec n 16) as [H16|H16].
    + rewrite Z.ones_spec_low by lia. apply andb_true_r.
    + rewrite Z.ones_spec_high by lia. rewrite andb_false_r.
      symmetry.
      destruct (Z.eq_dec a 0) as [->|Hne]; [apply Z.bits_0|].
      apply Z.bits_above_log2; [lia|].
      apply Z.lt_le_trans with 16; [|exact H16].
      apply Z.log2_lt_pow2; simpl; lia.
Qed.

Lemma q15_low8_zeroed_eq x :
  is_q15 x = true -> q15_low8_zeroed x = 256 * (x / 256).
Proof.
  intros Hx. apply in_bits_spec in Hx. simpl in Hx.
  unfold q15_low8_zeroed, to_q15.
  destruct (Z_lt_le_dec x 0) as [Hneg|Hpos].
  - assert (E : x mod 2 ^ 16 = x + 65536).
    { symmetry. apply (Z.mod_unique _ _ (-1)); simpl; lia. }
    rewrite E, land_ff00 by lia.
    replace ((x + 65536) / 256) with (x / 256 + 256)
      by (replace (x + 65536) with (x + 256 * 256) by lia;
          rewrite Z.div_add by lia; reflexivity).
    unfold wrap. change (2 ^ (16 - 1)) with 32768. change (2 ^ 16) with 65536.
    assert (-128 <= x / 256 < 0).
    { split; [apply Z.div_le_lower_bound; lia|apply Z.div_lt_upper_bound; lia]. }
    replace (256 * (x / 256 + 256) + 32768)
      with (256 * (x / 256) + 32768 + 1 * 65536) by lia.
    rewrite Z.mod_add by lia. rewrite Z.mod_small; lia.
  - rewrite Z.mod_small by (simpl; lia). rewrite land_ff00 by lia.
    assert (0 <= x / 256 < 128).
    { split; [apply Z.div_le_lower_bound; lia|apply Z.div_lt_upper_bound; lia]. }
    apply wrap_id; simpl; lia.
Qed.

Lemma q7_to_q15_value x :
  is_q15 x = true ->
  to_q15 (Z.shiftl (to_q15 (to_q7 (Z.shiftr x 8))) 8) = q15_low8_zeroed x.
Proof.
  intros Hx. rewrite q15_low8_zeroed_eq, shiftr8_q15 by exact Hx.
  apply in_bits_spec in Hx. simpl in Hx.
  rewrite Z.shiftr_div_pow2 by lia. change (2 ^ 8) with 256.
  assert (-128 <= x / 256 < 128).
  { split; [apply Z.div_le_lower_bound; lia|apply Z.div_lt_upper_bound; lia]. }
  unfold to_q15. rewrite (wrap_id 16 (x / 256)) by (simpl; lia).
  rewrite Z.shiftl_mul_pow2 by lia. change (2 ^ 8) with 256.
  rewrite wrap_id by (simpl; lia). lia.
Qed.

(** In the portable build, narrowing then widening zeroes the low 8 bits
    of every element. *)
Lemma q15_q7_roundtrip_portable (src d7 d15 : list Z) (blockSize n : nat) :
  forallb is_q15 src = true ->
  (blockSize <= length src)%nat ->
  (blockSize <= length d7)%nat ->
  (blockSize <= length d15)%nat ->
  (n < blockSize)%nat ->
  riscv_q7_to_q15 (riscv_q15_to_q7 false src d7 blockSize) d15 blockSize !! n
  = Some (q15_low8_zeroed (load src n)).
Proof.
  intros Hq Hs H7 H15 Hn.
  pose proof (riscv_q15_to_q7_portable src d7 blockSize n H7 Hn) as Hnarrow.
  assert (Hx : is_q15 (load src n) = true).
  { apply (forallb_lookup _ src n); [exact Hq|]. apply lookup_load. lia. }
  unfold riscv_q7_to_q15.
  match goal with |- dst (while_cnt _ ?b ?s) !! _ = _ =>
    destruct (vloop_spec pIn
      (fun i => to_q15 (Z.shiftl (to_q15
         (load (riscv_q15_to_q7 false src d7 blockSize) i)) 8)) b s blockSize)
      as (_ & _ & _ & Hin & _) end.
  { intros s. simpl. auto. }
  specialize (Hin n Hn). simpl in Hin. rewrite Hin by lia.
  rewrite (load_lookup _ _ _ Hnarrow), q7_to_q15_value by exact Hx.
  reflexivity.
Qed.

(** C8: with [USE_DSP_RISCV] and [blockSize = 3], narrowing
    [[256; 512; 768]] and widening the result gives 256 for the last
    element, where 768 with its low 8 bits zeroed is 768; the portable
    build gives 768. *)
Theorem q15_q7_roundtrip_dsp_odd_block :
  riscv_q7_to_q15 (riscv_q15_to_q7 true [256; 512; 768] [0; 0; 0] 3) [0; 0; 0] 3
  = [256; 512; 256] /\
  riscv_q7_to_q15 (riscv_q15_to_q7 false [256; 512; 768] [0; 0; 0] 3) [0; 0; 0] 3
  = [256; 512; 768] /\
  q15_low8_zeroed 768 = 768.
Proof. repeat split; vm_compute; reflexivity. Qed.

(** ** Empty blocks *)

(** C10: a call of a vector kernel with [blockSize = 0] returns with the
    destination buffer as it was, in both builds: no store is made. *)
Theorem vector_kernels_empty_block :
  (forall (float32_t : Type) (fzero : float32_t) fmul
          (srcA srcB dst0 : list float32_t),
      riscv_mult_f32 fzero fmul srcA srcB dst0 0 = dst0) /\
  (forall dsp src offset dst0, riscv_offset_q15 dsp src offset dst0 0 = dst0) /\
  (forall dsp value dst0, riscv_fill_q7 dsp value dst0 0 = dst0) /\
  (forall dsp src dst0, riscv_q15_to_q7 dsp src dst0 0 = dst0) /\
  (forall src dst0, riscv_q7_to_q15 src dst0 0 = dst0) /\
  (forall src dst0, riscv_q15_to_q31 src dst0 0 = dst0) /\
  (forall dsp src dst0, riscv_abs_q31 dsp src dst0 0 = dst0) /\
  (forall dsp src shiftBits dst0,
      riscv_shift_q7 dsp src shiftBits dst0 0 = dst0) /\
  (forall (float32_t : Type) fdiv float_of_int (f128 : float32_t) src dst0,
      riscv_q7_to_float fdiv float_of_int f128 src dst0 0 = dst0) /\
  (forall (float32_t : Type) (fzero : float32_t) fmul fadd fgt0 int_of_float
          f128 fhalf fneghalf dsp rounding src dst0,
      riscv_float_to_q7 fzero fmul fadd fgt0 int_of_float f128 fhalf fneghalf
                        dsp rounding src dst0 0 = dst0).
Proof.
  repeat split; intros; try reflexivity.
  - destruct dsp; reflexivity.
  - destruct dsp; reflexivity.
  - destruct dsp; reflexivity.
  - destruct dsp; reflexivity.
  - unfold riscv_shift_q7.
    destruct dsp; destruct (Z.land shiftBits 128 =? 0); reflexivity.
Qed.

(** ** Matrix kernels: the size check *)

Lemma size_mismatch_true (A B D : riscv_matrix_instance_q15) :
  numCols A <> numRows B \/ numRows A <> numRows D \/ numCols B <> numCols D ->
  size_mismatch A B D = true.
Proof.
  intros H. unfold size_mismatch.
  destruct (Nat.eqb_spec (numCols A) (numRows B));
    destruct (Nat.eqb_spec (numRows A) (numRows D));
    destruct (Nat.eqb_spec (numCols B) (numCols D));
    simpl; try reflexivity.
  exfalso. destruct H as [H | [H | H]]; contradiction.
Qed.

(** C3, as amended: in a library built with [RISCV_MATH_MATRIX_CHECK],
    a call of [riscv_mat_mult_fast_q15] or of [riscv_mat_cmplx_mult_q15]
    whose dimensions do not agree returns [RISCV_MATH_SIZE_MISMATCH] and
    leaves the data of the destination as it was. *)
Theorem size_mismatch_reported (USE_DSP_RISCV : bool)
    (A B D : riscv_matrix_instance_q15) (pState : list Z) :
  numCols A <> numRows B \/ numRows A <> numRows D \/ numCols B <> numCols D ->
  riscv_mat_mult_fast_q15 USE_DSP_RISCV true A B D pState
  = (RISCV_MATH_SIZE_MISMATCH, pData D) /\
  riscv_mat_cmplx_mult_q15 USE_DSP_RISCV true A B D pState
  = (RISCV_MATH_SIZE_MISMATCH, pData D).
Proof.
  intros H. apply size_mismatch_true in H.
  unfold riscv_mat_mult_fast_q15, riscv_mat_cmplx_mult_q15.
  rewrite H. simpl. split; reflexivity.
Qed.

Lemma size_mismatch_reported_witness :
  riscv_mat_mult_fast_q15 false true
    (Matrix 1 1 [16384]) (Matrix 2 1 [2; 4]) (Matrix 1 1 [7]) [0; 0]
  = (RISCV_MATH_SIZE_MISMATCH, [7]) /\
  riscv_mat_cmplx_mult_q15 false true
    (Matrix 1 1 [16384]) (Matrix 2 1 [2; 4]) (Matrix 1 1 [7]) [0; 0]
  = (RISCV_MATH_SIZE_MISMATCH, [7]).
Proof.
  apply (size_mismatch_reported false
           (Matrix 1 1 [16384]) (Matrix 2 1 [2; 4]) (Matrix 1 1 [7]) [0; 0]).
  left. simpl. lia.
Defined.

(** C3 as stated fails in a library built without
    [RISCV_MATH_MATRIX_CHECK]: with a 1x1 matrix [A] and a 2x1 matrix [B]
    both kernels return [RISCV_MATH_SUCCESS] and overwrite the
    destination. *)
Lemma size_mismatch_unchecked :
  let A := Matrix 1 1 [16384] in
  let B := Matrix 2 1 [2; 4] in
  let D := Matrix 1 1 [7] in
  let r := riscv_mat_mult_fast_q15 false false A B D [0; 0] in
  let Ac := Matrix 1 1 [16384; 0] in
  let Bc := Matrix 2 1 [2; 0; 4; 0] in
  let Dc := Matrix 1 1 [7; 7] in
  let rc := riscv_mat_cmplx_mult_q15 false false Ac Bc Dc [0; 0; 0; 0] in
  (numCols A <> numRows B /\
   r = (RISCV_MATH_SUCCESS, [1]) /\
   fst r <> RISCV_MATH_SIZE_MISMATCH /\ snd r <> pData D) /\
  (numCols Ac <> numRows Bc /\
   rc = (RISCV_MATH_SUCCESS, [1; 0]) /\
   fst rc <> RISCV_MATH_SIZE_MISMATCH /\ snd rc <> pData Dc).
Proof.
  cbv zeta.
  assert (E1 : riscv_mat_mult_fast_q15 false false
                 (Matrix 1 1 [16384]) (Matrix 2 1 [2; 4]) (Matrix 1 1 [7]) [0; 0]
               = (RISCV_MATH_SUCCESS, [1])) by (vm_compute; reflexivity).
  assert (E2 : riscv_mat_cmplx_mult_q15 false false
                 (Matrix 1 1 [16384; 0]) (Matrix 2 1 [2; 0; 4; 0])
                 (Matrix 1 1 [7; 7]) [0; 0; 0; 0]
               = (RISCV_MATH_SUCCESS, [1; 0])) by (vm_compute; reflexivity).
  rewrite E1, E2. cbn [fst snd numCols numRows pData].
  split; (split; [lia|]); (split; [reflexivity|]); split; discriminate.
Qed.

(** ** Convolution *)

Lemma sumf_ext f g n :
  (forall k, (k < n)%nat -> f k = g k) -> sumf f n = sumf g n.
Proof.
  induction n as [|n IH]; intros H; simpl; [reflexivity|].
  rewrite IH by (intros; apply H; lia). rewrite H by lia. reflexivity.
Qed.

Lemma sumf_4 f n :
  sumf f (4 * S n)
  = sumf f (4 * n) + f (4 * n)%nat + f (4 * n + 1)%nat
    + f (4 * n + 2)%nat + f (4 * n + 3)%nat.
Proof.
  replace (4 * S n)%nat with (S (S (S (S (4 * n))))) by lia.
  cbn [sumf].
  replace (S (4 * n)) with (4 * n + 1)%nat by lia.
  replace (S (4 * n + 1)) with (4 * n + 2)%nat by lia.
  replace (S (4 * n + 2)) with (4 * n + 3)%nat by lia.
  reflexivity.
Qed.

Lemma prod_bound a b : q15r a -> q15r b -> -1073741824 <= a * b <= 1073741824.
Proof. unfold q15r. intros Ha Hb. nia. Qed.

Lemma prod_bound_tight a b :
  q15r a -> q15r b -> a <> -32768 \/ b <> -32768 ->
  -1073709056 <= a * b <= 1073709056.
Proof. unfold q15r. intros Ha Hb Hm. nia. Qed.

Lemma q63_id v : - 2 ^ 63 <= v < 2 ^ 63 -> to_q63 v = v.
Proof. intros H. apply wrap_id; [lia|exact H]. Qed.

Lemma q31_id v : - 2 ^ 31 <= v < 2 ^ 31 -> to_q31 v = v.
Proof. intros H. apply wrap_id; [lia|exact H]. Qed.

Lemma while_cnt_add {S : Type} n m (f : S -> S) s :
  while_cnt n f (while_cnt m f s) = while_cnt (m + n) f s.
Proof.
  unfold while_cnt. rewrite (Nat.add_comm m n). symmetry. apply Nat.iter_add.
Qed.

Lemma while_cnt_unroll2 {S : Type} n (f : S -> S) s :
  while_cnt n (fun t => f (f t)) s = while_cnt (2 * n) f s.
Proof.
  induction n as [|n IH]; [reflexivity|].
  replace (2 * Datatypes.S n)%nat with (Datatypes.S (Datatypes.S (2 * n))) by lia.
  rewrite !while_cnt_S, IH. reflexivity.
Qed.

Lemma while_cnt_unroll4 {S : Type} n (f : S -> S) s :
  while_cnt n (fun t => f (f (f (f t)))) s = while_cnt (4 * n) f s.
Proof.
  induction n as [|n IH]; [reflexivity|].
  replace (4 * Datatypes.S n)%nat
    with (Datatypes.S (Datatypes.S (Datatypes.S (Datatypes.S (4 * n))))) by lia.
  rewrite !while_cnt_S, IH. reflexivity.
Qed.

Lemma while_cnt_split2 {S : Type} n (f : S -> S) s :
  while_cnt (n mod 2) f (while_cnt (n / 2) (fun t => f (f t)) s)
  = while_cnt n f s.
Proof.
  rewrite while_cnt_unroll2, while_cnt_add. f_equal.
  symmetry. apply Nat.div_mod_eq.
Qed.

Lemma while_cnt_split4 {S : Type} n (f : S -> S) s :
  while_cnt (n mod 4) f (while_cnt (n / 4) (fun t => f (f (f (f t)))) s)
  = while_cnt n f s.
Proof.
  rewrite while_cnt_unroll4, while_cnt_add. f_equal.
  symmetry. apply Nat.div_mod_eq.
Qed.

Lemma q15_SSAT v : to_q15 (__SSAT v 16) = __SSAT v 16.
Proof.
  pose proof (SSAT16_range v). apply wrap_id; [lia|].
  change (2 ^ (16 - 1)) with 32768. lia.
Qed.

(** Removes the conversions to [q63_t] of values that fit, innermost
    first. *)
Ltac drop_q63 :=
  repeat match goal with
  | |- context [to_q63 ?v] =>
      lazymatch v with
      | context [to_q63 _] => fail
      | _ => rewrite (q63_id v) by lia
      end
  end.

Section ConvDot.

Variables (x y : list Z) (lb W : nat).
Hypothesis Hx : forall i, (i < W)%nat -> q15r (load x i).
Hypothesis Hy : forall k, (k < lb)%nat -> q15r (load y k).
Hypothesis Hlb : Z.of_nat lb < 2 ^ 32.
Hypothesis Hmin :
  (forall i, (i < W)%nat -> load x i <> -32768) \/
  (forall k, (k < lb)%nat -> load y k <> -32768).

Lemma dot_bound q n :
  (n <= lb)%nat -> (q + n <= W)%nat ->
  - (Z.of_nat n * 1073741824) <= dot x y q n <= Z.of_nat n * 1073741824.
Proof.
  unfold dot. induction n as [|n IH]; intros Hn Hq; cbn [sumf]; [lia|].
  specialize (IH ltac:(lia) ltac:(lia)).
  pose proof (prod_bound (load x (q + n)) (load y n)
                (Hx (q + n)%nat ltac:(lia)) (Hy n ltac:(lia))).
  lia.
Qed.

Ltac prod_bounds :=
  repeat match goal with
  | |- context [load x ?i * load y ?k] =>
      lazymatch goal with
      | H : -1073741824 <= load x i * load y k <= 1073741824 |- _ => fail
      | _ => assert (-1073741824 <= load x i * load y k <= 1073741824)
               by (apply prod_bound; [apply Hx; lia | apply Hy; lia])
      end
  end.

Ltac prod_bounds_tight :=
  repeat match goal with
  | |- context [load x ?i * load y ?k] =>
      lazymatch goal with
      | H : -1073709056 <= load x i * load y k <= 1073709056 |- _ => fail
      | _ => assert (-1073709056 <= load x i * load y k <= 1073709056)
               by (apply prod_bound_tight;
                   [apply Hx; lia | apply Hy; lia
                   | destruct Hmin as [M|M];
                     [left; apply M; lia | right; apply M; lia]])
      end
  end.

Ltac norm_idx :=
  repeat match goal with
  | |- context [load _ ?e] => progress (ring_simplify e)
  end.

Lemma quad_tap_inv p j :
  (4 * j <= lb)%nat -> (p + 3 + 4 * j <= W)%nat ->
  while_cnt j (conv_quad_tap x y)
    (ConvQuad 0 0 0 0 (p + 2 + 2) 0%nat p (p + 2))
  = ConvQuad (dot x y p (4 * j)) (dot x y (p + 1) (4 * j))
             (dot x y (p + 2) (4 * j)) (dot x y (p + 3) (4 * j))
             (p + 4 + 4 * j) (4 * j) (p + 4 * j) (p + 4 * j + 2).
Proof.
  induction j as [|j IH]; intros Hj Hp.
  - rewrite while_cnt_0. simpl. f_equal; lia.
  - rewrite while_cnt_S, IH by lia.
    pose proof (dot_bound p (4 * j) ltac:(lia) ltac:(lia)) as B0.
    pose proof (dot_bound (p + 1) (4 * j) ltac:(lia) ltac:(lia)) as B1.
    pose proof (dot_bound (p + 2) (4 * j) ltac:(lia) ltac:(lia)) as B2.
    pose proof (dot_bound (p + 3) (4 * j) ltac:(lia) ltac:(lia)) as B3.
    unfold conv_quad_tap.
    cbn [q_acc0 q_acc1 q_acc2 q_acc3 q_pScr1 q_pIn2 q_VectInA q_VectInB].
    unfold dotpv2, loadV2. cbn [lane0 lane1].
    unfold dot at 5 6 7 8. rewrite !sumf_4. fold (dot x y p (4 * j)).
    fold (dot x y (p + 1) (4 * j)). fold (dot x y (p + 2) (4 * j)).
    fold (dot x y (p + 3) (4 * j)).
    norm_idx. prod_bounds_tight.
    rewrite !q31_id by lia. drop_q63.
    f_equal; try lia.
Qed.

Lemma quad_rem_inv p n0 r va vb :
  (n0 + r <= lb)%nat -> (p + 3 + n0 + r <= W)%nat ->
  while_cnt r (conv_quad_rem x y)
    (ConvQuad (dot x y p n0) (dot x y (p + 1) n0) (dot x y (p + 2) n0) (dot x y (p + 3) n0)
              (p + n0) n0 va vb)
  = ConvQuad (dot x y p (n0 + r)) (dot x y (p + 1) (n0 + r))
             (dot x y (p + 2) (n0 + r)) (dot x y (p + 3) (n0 + r))
             (p + n0 + r) (n0 + r) va vb.
Proof.
  induction r as [|r IH]; intros Hr Hp.
  - rewrite while_cnt_0, !Nat.add_0_r. reflexivity.
  - rewrite while_cnt_S, IH by lia.
    pose proof (dot_bound p (n0 + r) ltac:(lia) ltac:(lia)) as B0.
    pose proof (dot_bound (p + 1) (n0 + r) ltac:(lia) ltac:(lia)) as B1.
    pose proof (dot_bound (p + 2) (n0 + r) ltac:(lia) ltac:(lia)) as B2.
    pose proof (dot_bound (p + 3) (n0 + r) ltac:(lia) ltac:(lia)) as B3.
    unfold conv_quad_rem.
    cbn [q_acc0 q_acc1 q_acc2 q_acc3 q_pScr1 q_pIn2 q_VectInA q_VectInB].
    replace (n0 + S r)%nat with (S (n0 + r)) by lia.
    unfold dot at 5 6 7 8. cbn [sumf]. fold (dot x y p (n0 + r)).
    fold (dot x y (p + 1) (n0 + r)). fold (dot x y (p + 2) (n0 + r)).
    fold (dot x y (p + 3) (n0 + r)).
    norm_idx. prod_bounds.
    rewrite !q31_id by lia. drop_q63.
    f_equal; try lia.
Qed.

Lemma single_tap_inv p n :
  (n <= lb)%nat -> (p + n <= W)%nat ->
  while_cnt n (conv_single_tap x y) (ConvSingle 0 p 0%nat)
  = ConvSingle (dot x y p n) (p + n) n.
Proof.
  induction n as [|n IH]; intros Hn Hp.
  - rewrite while_cnt_0, Nat.add_0_r. reflexivity.
  - rewrite while_cnt_S, IH by lia.
    pose proof (dot_bound p n ltac:(lia) ltac:(lia)) as B0.
    unfold conv_single_tap. cbn [t_acc0 t_pScr1 t_pIn2].
    unfold dot at 2. cbn [sumf]. fold (dot x y p n).
    prod_bounds. rewrite !q31_id by lia. drop_q63.
    f_equal; lia.
Qed.

Lemma conv_block_spec p po d :
  (p + 3 + lb <= W)%nat ->
  conv_block x y lb (ConvOut p po d)
  = ConvOut (p + 4) (po + 4)
      (store (store (store (store d po (sat15 (dot x y p lb)))
                           (po + 1) (sat15 (dot x y (p + 1) lb)))
                    (po + 2) (sat15 (dot x y (p + 2) lb)))
             (po + 2 + 1) (sat15 (dot x y (p + 3) lb))).
Proof.
  intros Hp. unfold conv_block. cbn [o_pScratch1 o_pOut o_dst].
  pose proof (Nat.div_mod_eq lb 4) as E.
  rewrite quad_tap_inv by lia.
  cbn [q_acc0 q_acc1 q_acc2 q_acc3 q_pScr1 q_pIn2 q_VectInA q_VectInB].
  replace (p + 4 + 4 * (lb / 4) - 4)%nat with (p + 4 * (lb / 4))%nat by lia.
  rewrite quad_rem_inv by lia.
  cbn [q_acc0 q_acc1 q_acc2 q_acc3].
  rewrite <- E.
  unfold storeV2, pack2. cbn [lane0 lane1]. rewrite !q15_SSAT.
  reflexivity.
Qed.

Lemma conv_tail_spec p po d :
  (p + lb <= W)%nat ->
  conv_tail x y lb (ConvOut p po d)
  = ConvOut (p + 1) (po + 1) (store d po (sat15 (dot x y p lb))).
Proof.
  intros Hp. unfold conv_tail. cbn [o_pScratch1 o_pOut o_dst].
  rewrite while_cnt_split2, single_tap_inv by lia. cbn [t_acc0].
  rewrite q15_SSAT. reflexivity.
Qed.

Lemma conv_block_loop dst0 b :
  (4 * b + lb <= W + 1)%nat -> (4 * b <= length dst0)%nat ->
  let o := while_cnt b (conv_block x y lb) (ConvOut 0%nat 0%nat dst0) in
  o_pScratch1 o = (4 * b)%nat /\ o_pOut o = (4 * b)%nat /\
  length (o_dst o) = length dst0 /\
  (forall i, (i < 4 * b)%nat -> o_dst o !! i = Some (sat15 (dot x y i lb))) /\
  (forall i, (4 * b <= i)%nat -> o_dst o !! i = dst0 !! i).
Proof.
  induction b as [|b IH]; intros HW Hd; cbn zeta.
  - rewrite while_cnt_0. simpl. repeat split; auto. intros; lia.
  - rewrite while_cnt_S. cbn zeta in IH.
    destruct IH as (Hs & Hp & Hlen & Hin & Hout); [lia|lia|].
    set (o := while_cnt b _ _) in *. clearbody o.
    destruct o as [ps po d]. cbn [o_pScratch1 o_pOut o_dst] in *. subst ps po.
    rewrite conv_block_spec by lia. cbn [o_pScratch1 o_pOut o_dst].
    rewrite !length_store.
    repeat split; try lia.
    + intros i Hi.
      assert (C : (i < 4 * b)%nat \/ i = (4 * b)%nat \/ i = (4 * b + 1)%nat
                  \/ i = (4 * b + 2)%nat \/ i = (4 * b + 2 + 1)%nat) by lia.
      destruct C as [C | [-> | [-> | [-> | ->]]]].
      * rewrite !lookup_store_ne by lia. apply Hin. exact C.
      * rewrite !lookup_store_ne by lia.
        rewrite lookup_store_eq by lia. reflexivity.
      * rewrite !lookup_store_ne by lia.
        rewrite lookup_store_eq by (rewrite !length_store; lia). reflexivity.
      * rewrite !lookup_store_ne by lia.
        rewrite lookup_store_eq by (rewrite !length_store; lia). reflexivity.
      * rewrite lookup_store_eq by (rewrite !length_store; lia).
        do 2 f_equal. f_equal. lia.
    + intros i Hi. rewrite !lookup_store_ne by lia. apply Hout. lia.
Qed.

Lemma conv_tail_loop_full o0 m :
  o_pScratch1 o0 = o_pOut o0 ->
  (o_pOut o0 + m + lb <= W + 1)%nat ->
  (o_pOut o0 + m <= length (o_dst o0))%nat ->
  let o := while_cnt m (conv_tail x y lb) o0 in
  o_pScratch1 o = (o_pOut o0 + m)%nat /\
  o_pOut o = (o_pOut o0 + m)%nat /\
  length (o_dst o) = length (o_dst o0) /\
  (forall i, (o_pOut o0 <= i < o_pOut o0 + m)%nat ->
             o_dst o !! i = Some (sat15 (dot x y i lb))) /\
  (forall i, (i < o_pOut o0)%nat \/ (o_pOut o0 + m <= i)%nat ->
             o_dst o !! i = o_dst o0 !! i).
Proof.
  intros Hsync.
  induction m as [|m IH]; intros HW Hd; cbn zeta.
  - rewrite while_cnt_0. repeat split; auto; intros; lia.
  - rewrite while_cnt_S. cbn zeta in IH.
    destruct IH as (Hs & Hp & Hlen & Hin & Hout); [lia|lia|].
    set (o := while_cnt m _ _) in *. clearbody o.
    destruct o as [ps po d]. cbn [o_pScratch1 o_pOut o_dst] in *. subst ps po.
    rewrite conv_tail_spec by lia. cbn [o_pScratch1 o_pOut o_dst].
    rewrite length_store.
    repeat split; try lia.
    + intros i Hi.
      destruct (Nat.eq_dec i (o_pOut o0 + m)%nat) as [->|Hne].
      * apply lookup_store_eq. lia.
      * rewrite lookup_store_ne by lia. apply Hin. lia.
    + intros i Hi. rewrite lookup_store_ne by lia. apply Hout. lia.
Qed.

End ConvDot.

Lemma load_nth (m : list Z) p : load m p = nth p m 0.
Proof. unfold load. symmetry. apply nth_lookup. Qed.

Lemma fill_q15_spec v m p n :
  (p + n <= length m)%nat ->
  let r := riscv_fill_q15 v m p n in
  length r = length m /\
  (forall k, (k < n)%nat -> r !! (p + k)%nat = Some v) /\
  (forall j, (j < p)%nat \/ (p + n <= j)%nat -> r !! j = m !! j).
Proof.
  intros Hl. unfold riscv_fill_q15.
  cbn zeta.
  match goal with |- context [while_cnt _ ?b ?s] =>
    destruct (vloop_spec pDst (fun _ => v) b s n) as (_ & _ & Hlen & Hin & Hout)
  end.
  { intros s. simpl. auto. }
  cbn [pDst dst] in *. repeat split.
  - exact Hlen.
  - intros k Hk. apply Hin; lia.
  - exact Hout.
Qed.

Lemma copy_q15_spec src m p n :
  (p + n <= length m)%nat ->
  let r := riscv_copy_q15 src m p n in
  length r = length m /\
  (forall k, (k < n)%nat -> r !! (p + k)%nat = Some (load src k)) /\
  (forall j, (j < p)%nat \/ (p + n <= j)%nat -> r !! j = m !! j).
Proof.
  intros Hl. unfold riscv_copy_q15.
  cbn zeta.
  match goal with |- context [while_cnt _ ?b ?s] =>
    destruct (vloop_spec pSrc (fun i => load src i) b s n)
      as (_ & _ & Hlen & Hin & Hout)
  end.
  { intros s. simpl. auto. }
  cbn [pSrc pDst dst] in *. repeat split.
  - exact Hlen.
  - intros k Hk. apply Hin; lia.
  - exact Hout.
Qed.

Lemma u32_small z : 0 <= z < 2 ^ 32 -> u32 z = Z.to_nat z.
Proof. intros H. unfold u32. rewrite Z.mod_small by exact H. reflexivity. Qed.

Lemma u32_pred n :
  (1 <= n)%nat -> Z.of_nat n < 2 ^ 32 -> u32 (Z.of_nat n - 1) = (n - 1)%nat.
Proof. intros H1 H2. rewrite u32_small by lia. lia. Qed.

Lemma conv_scratch1_spec L la lb s1 i :
  (1 <= lb)%nat -> Z.of_nat lb < 2 ^ 32 ->
  (la + 2 * (lb - 1) <= length s1)%nat ->
  (i < la + 2 * (lb - 1))%nat ->
  load (conv_scratch1 L la lb s1) i = padded L la lb i.
Proof.
  intros Hlb Hlb32 Hl Hi. unfold conv_scratch1, padded.
  rewrite (u32_pred lb Hlb Hlb32). cbv zeta.
  destruct (fill_q15_spec 0 s1 0 (lb - 1)) as (L1 & I1 & O1); [lia|].
  set (m1 := riscv_fill_q15 0 s1 0 (lb - 1)) in *.
  destruct (copy_q15_spec L m1 (lb - 1) la) as (L2 & I2 & O2); [lia|].
  set (m2 := riscv_copy_q15 L m1 (lb - 1) la) in *.
  destruct (fill_q15_spec 0 m2 (lb - 1 + la) (lb - 1)) as (L3 & I3 & O3); [lia|].
  set (m3 := riscv_fill_q15 0 m2 (lb - 1 + la) (lb - 1)) in *.
  apply load_lookup.
  destruct (Nat.ltb_spec i (lb - 1)) as [C1|C1].
  - rewrite O3 by lia. rewrite O2 by lia.
    specialize (I1 i C1). simpl in I1. exact I1.
  - destruct (Nat.ltb_spec i (lb - 1 + la)) as [C2|C2].
    + rewrite O3 by lia.
      specialize (I2 (i - (lb - 1))%nat ltac:(lia)).
      replace (lb - 1 + (i - (lb - 1)))%nat with i in I2 by lia. exact I2.
    + specialize (I3 (i - (lb - 1 + la))%nat ltac:(lia)).
      replace (lb - 1 + la + (i - (lb - 1 + la)))%nat with i in I3 by lia.
      exact I3.
Qed.

Lemma conv_rev_loop S0 lb s2 k :
  (k <= lb)%nat -> (lb <= length s2)%nat ->
  let r := while_cnt k (conv_rev_copy S0) (ConvRev (lb - 1) 0%nat s2) in
  r_pScr2 r = (lb - 1 - k)%nat /\ r_px r = k /\
  length (r_scr2 r) = length s2 /\
  (forall i, (i < k)%nat -> r_scr2 r !! (lb - 1 - i)%nat = Some (load S0 i)).
Proof.
  induction k as [|k IH]; intros Hk Hl; cbn zeta.
  - rewrite while_cnt_0. simpl. repeat split; auto; try lia.
  - rewrite while_cnt_S. cbn zeta in IH.
    destruct IH as (Hp & Hx & Hlen & Hin); [lia|lia|].
    set (r := while_cnt k _ _) in *. clearbody r.
    unfold conv_rev_copy. cbn [r_pScr2 r_px r_scr2].
    rewrite Hp, Hx, length_store. repeat split; try lia.
    intros i Hi. destruct (Nat.eq_dec i k) as [->|Hne].
    + apply lookup_store_eq. lia.
    + rewrite lookup_store_ne by lia. apply Hin. lia.
Qed.

Lemma conv_scratch2_spec S0 lb s2 k :
  (lb <= length s2)%nat -> (k < lb)%nat ->
  load (conv_scratch2 S0 lb s2) k = load S0 (lb - 1 - k).
Proof.
  intros Hl Hk. unfold conv_scratch2. rewrite while_cnt_split4.
  destruct (conv_rev_loop S0 lb s2 lb) as (_ & _ & _ & Hin); [lia|lia|].
  apply load_lookup.
  specialize (Hin (lb - 1 - k)%nat ltac:(lia)).
  replace (lb - 1 - (lb - 1 - k))%nat with k in Hin by lia. exact Hin.
Qed.

(** Sums *)

Lemma sumf_shift f n : sumf f (S n) = f 0%nat + sumf (fun k => f (S k)) n.
Proof.
  induction n as [|n IH]; [simpl; lia|].
  change (sumf f (S (S n))) with (sumf f (S n) + f (S n)).
  rewrite IH. cbn [sumf]. lia.
Qed.

Lemma sumf_rev f n : sumf f n = sumf (fun k => f (n - 1 - k)%nat) n.
Proof.
  induction n as [|n IH]; [reflexivity|].
  rewrite (sumf_shift (fun k => f (S n - 1 - k)%nat)).
  replace (S n - 1 - 0)%nat with n by lia.
  rewrite (sumf_ext (fun k => f (S n - 1 - S k)%nat) (fun k => f (n - 1 - k)%nat))
    by (intros k Hk; f_equal; lia).
  rewrite <- IH. cbn [sumf]. lia.
Qed.

Lemma sumf_zero_tail f n m :
  (n <= m)%nat -> (forall k, (n <= k < m)%nat -> f k = 0) ->
  sumf f m = sumf f n.
Proof.
  intros Hnm. induction m as [|m IH]; intros Hz.
  - replace n with 0%nat by lia. reflexivity.
  - destruct (Nat.eq_dec n (S m)) as [->|Hne]; [reflexivity|].
    cbn [sumf]. rewrite IH by (try lia; intros; apply Hz; lia).
    rewrite Hz by lia. lia.
Qed.

Lemma conv_sum_comm A B n : conv_sum A B n = conv_sum B A n.
Proof.
  unfold conv_sum. rewrite sumf_rev. apply sumf_ext. intros k Hk.
  replace (S n - 1 - k)%nat with (n - k)%nat by lia.
  replace (n - (n - k))%nat with k by lia. apply Z.mul_comm.
Qed.

(** The dot product of the padded longer sequence with the reversed
    shorter one is the convolution sum. *)
Lemma padded_dot_conv_sum (L S0 : list Z) (n : nat) :
  (1 <= length S0)%nat ->
  sumf (fun k => padded L (length L) (length S0) (n + k)
                 * load S0 (length S0 - 1 - k)) (length S0)
  = conv_sum S0 L n.
Proof.
  intros Hlb. set (la := length L). set (lb := length S0).
  set (H := fun j : nat =>
              nth j S0 0 * (if (n <? j)%nat then 0 else nth (n - j) L 0)).
  rewrite sumf_rev.
  rewrite (sumf_ext _ H).
  2:{ intros j Hj. unfold H, padded.
      replace (lb - 1 - (lb - 1 - j))%nat with j by lia.
      rewrite !load_nth.
      replace (n + (lb - 1 - j) - (lb - 1))%nat with (n - j)%nat by lia.
      destruct (Nat.ltb_spec (n + (lb - 1 - j)) (lb - 1));
        destruct (Nat.ltb_spec n j); try lia.
      destruct (Nat.ltb_spec (n + (lb - 1 - j)) (lb - 1 + la)); [lia|].
      rewrite (nth_overflow L) by (fold la; lia). lia. }
  unfold conv_sum.
  rewrite (sumf_ext (fun k => nth k S0 0 * nth (n - k) L 0) H).
  2:{ intros k Hk. unfold H.
      destruct (Nat.ltb_spec n k); [lia|reflexivity]. }
  assert (Z1 : forall k, (lb <= k)%nat -> H k = 0).
  { intros k Hk. unfold H. rewrite (nth_overflow S0) by (fold lb; lia). lia. }
  assert (Z2 : forall k, (S n <= k)%nat -> H k = 0).
  { intros k Hk. unfold H. destruct (Nat.ltb_spec n k); lia. }
  destruct (Nat.le_ge_cases lb (S n)).
  - symmetry. apply sumf_zero_tail; [lia|]. intros; apply Z1; lia.
  - apply sumf_zero_tail; [lia|]. intros; apply Z2; lia.
Qed.

Lemma q15r_load (l : list Z) i : forallb is_q15 l = true -> q15r (load l i).
Proof.
  intros H. unfold q15r.
  destruct (l !! i) as [v|] eqn:E.
  - rewrite (load_lookup _ _ _ E).
    pose proof (forallb_lookup _ _ _ _ H E) as Hv.
    apply in_bits_spec in Hv. change (2 ^ (16 - 1)) with 32768 in Hv. lia.
  - unfold load. rewrite E. simpl. lia.
Qed.

Lemma padded_q15r L la lb i : forallb is_q15 L = true -> q15r (padded L la lb i).
Proof.
  intros H. unfold padded.
  destruct (i <? lb - 1)%nat; [unfold q15r; lia|].
  destruct (i <? lb - 1 + la)%nat; [apply q15r_load; exact H|unfold q15r; lia].
Qed.

Lemma not_min_load (l : list Z) i :
  forallb not_min_q15 l = true -> load l i <> -32768.
Proof.
  intros H. destruct (l !! i) as [v|] eqn:E.
  - rewrite (load_lookup _ _ _ E).
    pose proof (forallb_lookup _ _ _ _ H E) as Hv.
    unfold not_min_q15 in Hv. apply negb_true_iff, Z.eqb_neq in Hv. exact Hv.
  - unfold load. rewrite E. simpl. lia.
Qed.

Lemma padded_not_min L la lb i :
  forallb not_min_q15 L = true -> padded L la lb i <> -32768.
Proof.
  intros H. unfold padded.
  destruct (i <? lb - 1)%nat; [lia|].
  destruct (i <? lb - 1 + la)%nat; [apply not_min_load; exact H|lia].
Qed.

(** The output loops on the scratch buffers built from a longer sequence
    [L] and a shorter one [S0]. *)
Lemma conv_core (L S0 dst0 s1 s2 : list Z) :
  let la := length L in
  let lb := length S0 in
  forallb is_q15 L = true -> forallb is_q15 S0 = true ->
  forallb not_min_q15 L = true \/ forallb not_min_q15 S0 = true ->
  (1 <= la)%nat -> (1 <= lb)%nat -> Z.of_nat lb < 2 ^ 32 ->
  (la + lb - 1 <= length dst0)%nat ->
  (la + 2 * (lb - 1) <= length s1)%nat ->
  (lb <= length s2)%nat ->
  let x := conv_scratch1 L la lb s1 in
  let y := conv_scratch2 S0 lb s2 in
  let o := while_cnt ((la + lb - 1) mod 4)%nat (conv_tail x y lb)
             (while_cnt ((la + lb - 1) / 4)%nat (conv_block x y lb)
                (ConvOut 0%nat 0%nat dst0)) in
  length (o_dst o) = length dst0 /\
  (forall n, (n < la + lb - 1)%nat ->
             o_dst o !! n = Some (conv_q15_spec S0 L n)) /\
  (forall n, (la + lb - 1 <= n)%nat -> o_dst o !! n = dst0 !! n).
Proof.
  intros la lb HL HS HM Hla Hlb Hlb32 Hd H1 H2 x y.
  set (W := (la + 2 * (lb - 1))%nat).
  assert (Hx : forall i, (i < W)%nat -> q15r (load x i)).
  { intros i Hi. unfold x. rewrite conv_scratch1_spec by (fold W; lia).
    apply padded_q15r. exact HL. }
  assert (Hy : forall k, (k < lb)%nat -> q15r (load y k)).
  { intros k Hk. unfold y. rewrite conv_scratch2_spec by lia.
    apply q15r_load. exact HS. }
  assert (Hmin : (forall i, (i < W)%nat -> load x i <> -32768) \/
                 (forall k, (k < lb)%nat -> load y k <> -32768)).
  { destruct HM as [HM|HM]; [left|right].
    - intros i Hi. unfold x. rewrite conv_scratch1_spec by (fold W; lia).
      apply padded_not_min. exact HM.
    - intros k Hk. unfold y. rewrite conv_scratch2_spec by lia.
      apply not_min_load. exact HM. }
  assert (Hdot : forall n, (n < la + lb - 1)%nat ->
                           sat15 (dot x y n lb) = conv_q15_spec S0 L n).
  { intros n Hn. unfold sat15, conv_q15_spec. do 2 f_equal.
    rewrite <- padded_dot_conv_sum by (fold lb; lia).
    unfold dot. apply sumf_ext. intros k Hk. fold la lb.
    unfold x, y. rewrite conv_scratch1_spec, conv_scratch2_spec by lia.
    reflexivity. }
  pose proof (Nat.div_mod_eq (la + lb - 1) 4) as E.
  set (b := ((la + lb - 1) / 4)%nat) in *.
  set (m := ((la + lb - 1) mod 4)%nat) in *.
  destruct (conv_block_loop x y lb W Hx Hy Hlb32 Hmin dst0 b)
    as (Bs & Bp & Blen & Bin & Bout); [unfold W; lia|lia|].
  set (o0 := while_cnt b (conv_block x y lb) (ConvOut 0%nat 0%nat dst0)) in *.
  destruct (conv_tail_loop_full x y lb W Hx Hy Hlb32 o0 m)
    as (_ & _ & Tlen & Tin & Tout);
    [lia | rewrite Bp; unfold W; lia | rewrite Bp, Blen; lia |].
  cbn zeta. rewrite Bp in Tin, Tout. repeat split.
  - lia.
  - intros n Hn. destruct (Nat.lt_ge_cases n (4 * b)) as [C|C].
    + rewrite Tout by lia. rewrite Bin by exact C. f_equal. apply Hdot. exact Hn.
    + rewrite Tin by lia. f_equal. apply Hdot. exact Hn.
  - intros n Hn. rewrite Tout by lia. apply Bout. lia.
Qed.

(** The destination buffer after the call: the outputs, then what the
    buffer held beyond them. *)
Lemma conv_opt_closed_form (A B dst0 s1 s2 : list Z) :
  let la := length A in
  let lb := length B in
  forallb is_q15 A = true -> forallb is_q15 B = true ->
  forallb not_min_q15 A = true \/ forallb not_min_q15 B = true ->
  (1 <= la)%nat -> (1 <= lb)%nat ->
  Z.of_nat la + Z.of_nat lb - 1 < 2 ^ 32 ->
  (la + lb - 1 <= length dst0)%nat ->
  (Nat.max la lb + 2 * Nat.min la lb - 2 <= length s1)%nat ->
  (Nat.min la lb <= length s2)%nat ->
  riscv_conv_opt_q15 A la B lb dst0 s1 s2
  = (conv_q15_spec A B <$> seq 0 (la + lb - 1)) ++ drop (la + lb - 1) dst0.
Proof.
  intros la lb HA HB HM Hla Hlb Hsum Hd H1 H2.
  assert (Hla32 : Z.of_nat la < 2 ^ 32) by lia.
  assert (Hlb32 : Z.of_nat lb < 2 ^ 32) by lia.
  assert (Hu : u32 (Z.of_nat la + Z.of_nat lb - 1) = (la + lb - 1)%nat)
    by (rewrite u32_small by lia; lia).
  assert (Hu' : u32 (Z.of_nat lb + Z.of_nat la - 1) = (lb + la - 1)%nat)
    by (rewrite u32_small by lia; lia).
  assert (G : forall out,
             length out = length dst0 ->
             (forall n, (n < la + lb - 1)%nat ->
                        out !! n = Some (conv_q15_spec A B n)) ->
             (forall n, (la + lb - 1 <= n)%nat -> out !! n = dst0 !! n) ->
             out = (conv_q15_spec A B <$> seq 0 (la + lb - 1))
                   ++ drop (la + lb - 1) dst0).
  { intros out R1 R2 R3. apply list_eq. intros n.
    destruct (Nat.lt_ge_cases n (la + lb - 1)) as [C|C].
    - rewrite lookup_app_l by (rewrite length_fmap, length_seq; exact C).
      rewrite list_lookup_fmap, lookup_seq_lt by exact C.
      rewrite R2 by exact C. reflexivity.
    - rewrite lookup_app_r by (rewrite length_fmap, length_seq; exact C).
      rewrite length_fmap, length_seq, lookup_drop, R3 by exact C.
      f_equal. lia. }
  unfold riscv_conv_opt_q15, conv_operands.
  destruct (Nat.leb_spec lb la) as [C|C].
  - rewrite Hu.
    destruct (conv_core A B dst0 s1 s2) as (R1 & R2 & R3); try assumption;
      fold la lb; try lia.
    fold la lb in R1, R2, R3. apply G.
    + exact R1.
    + intros n Hn. rewrite R2 by exact Hn.
      unfold conv_q15_spec. rewrite (conv_sum_comm B A). reflexivity.
    + exact R3.
  - rewrite Hu'.
    destruct (conv_core B A dst0 s1 s2) as (R1 & R2 & R3); try assumption;
      fold la lb; try lia; [tauto|].
    fold la lb in R1, R2, R3.
    replace (lb + la - 1)%nat with (la + lb - 1)%nat in * by lia.
    apply G; assumption.
Qed.

(** X1: [riscv_conv_opt_q15] on Q15 sequences [A] and [B] of at least one
    element, one of which holds no -32768, with buffers of the documented
    sizes: the first [lenA + lenB - 1] elements of the destination are
    written and nothing else; output [n] is the zero-padded convolution
    sum of [A[k] * B[n - k]], shifted right by 15 bits and saturated to
    16 bits. *)
Theorem riscv_conv_opt_q15_saturated_convolution
    (A B pDst pScratch1 pScratch2 : list Z) :
  let srcALen := length A in
  let srcBLen := length B in
  forallb is_q15 A = true -> forallb is_q15 B = true ->
  forallb not_min_q15 A = true \/ forallb not_min_q15 B = true ->
  (1 <= srcALen)%nat -> (1 <= srcBLen)%nat ->
  Z.of_nat srcALen + Z.of_nat srcBLen - 1 < 2 ^ 32 ->
  (srcALen + srcBLen - 1 <= length pDst)%nat ->
  (Nat.max srcALen srcBLen + 2 * Nat.min srcALen srcBLen - 2
   <= length pScratch1)%nat ->
  (Nat.min srcALen srcBLen <= length pScratch2)%nat ->
  let out := riscv_conv_opt_q15 A srcALen B srcBLen pDst pScratch1 pScratch2 in
  length out = length pDst /\
  (forall n, (n < srcALen + srcBLen - 1)%nat ->
             out !! n
             = Some (__SSAT (Z.shiftr
                               (sumf (fun k => nth k A 0 * nth (n - k) B 0) (S n))
                               15) 16)) /\
  (forall n, (srcALen + srcBLen - 1 <= n)%nat -> out !! n = pDst !! n).
Proof.
  intros la lb HA HB HM Hla Hlb Hsum Hd H1 H2 out. subst out.
  pose proof (conv_opt_closed_form A B pDst pScratch1 pScratch2
                HA HB HM Hla Hlb Hsum Hd H1 H2) as E.
  cbn zeta in E. fold la lb in E. rewrite E. clear E.
  assert (Hlen : length (conv_q15_spec A B <$> seq 0 (la + lb - 1))
                 = (la + lb - 1)%nat)
    by (rewrite length_fmap, length_seq; reflexivity).
  split; [|split].
  - rewrite length_app, Hlen, length_drop. lia.
  - intros n Hn. rewrite lookup_app_l by (rewrite Hlen; exact Hn).
    rewrite list_lookup_fmap, lookup_seq_lt by exact Hn. reflexivity.
  - intros n Hn. rewrite lookup_app_r by (rewrite Hlen; exact Hn).
    rewrite Hlen, lookup_drop. f_equal. lia.
Qed.

(** The scenario of the specification, with the operands scaled by [2^8]
    and [2^7]: the convolution of [[1; 2; 3]] and [[1; 1]] is
    [[1; 3; 5; 3]]. *)
Lemma riscv_conv_opt_q15_saturated_convolution_witness :
  let out := riscv_conv_opt_q15 [256; 512; 768] 3 [128; 128] 2
               [0; 0; 0; 0; 9] [0; 0; 0; 0; 0] [0; 0] in
  length out = 5%nat /\
  out !! 0%nat = Some 1 /\ out !! 1%nat = Some 3 /\
  out !! 2%nat = Some 5 /\ out !! 3%nat = Some 3 /\
  out !! 4%nat = Some 9.
Proof.
  destruct (riscv_conv_opt_q15_saturated_convolution
              [256; 512; 768] [128; 128] [0; 0; 0; 0; 9] [0; 0; 0; 0; 0] [0; 0])
    as (H1 & H2 & H3);
    [reflexivity | reflexivity | left; reflexivity | simpl; lia | simpl; lia
    | reflexivity | simpl; lia | simpl; lia | simpl; lia |].
  exact (conj H1
          (conj (H2 0%nat ltac:(simpl; lia))
          (conj (H2 1%nat ltac:(simpl; lia))
          (conj (H2 2%nat ltac:(simpl; lia))
          (conj (H2 3%nat ltac:(simpl; lia))
                (H3 4%nat ltac:(simpl; lia))))))).
Defined.

(** X2: the output of [riscv_conv_opt_q15] on Q15 sequences one of which
    holds no -32768 does not depend on the order of the two operands, nor
    on the contents of the scratch buffers. *)
Theorem riscv_conv_opt_q15_exchange_operands
    (A B pDst pScratch1 pScratch2 pScratch1' pScratch2' : list Z) :
  let srcALen := length A in
  let srcBLen := length B in
  forallb is_q15 A = true -> forallb is_q15 B = true ->
  forallb not_min_q15 A = true \/ forallb not_min_q15 B = true ->
  (1 <= srcALen)%nat -> (1 <= srcBLen)%nat ->
  Z.of_nat srcALen + Z.of_nat srcBLen - 1 < 2 ^ 32 ->
  (srcALen + srcBLen - 1 <= length pDst)%nat ->
  (Nat.max srcALen srcBLen + 2 * Nat.min srcALen srcBLen - 2
   <= Nat.min (length pScratch1) (length pScratch1'))%nat ->
  (Nat.min srcALen srcBLen
   <= Nat.min (length pScratch2) (length pScratch2'))%nat ->
  riscv_conv_opt_q15 A srcALen B srcBLen pDst pScratch1 pScratch2
  = riscv_conv_opt_q15 B srcBLen A srcALen pDst pScratch1' pScratch2'.
Proof.
  intros la lb HA HB HM Hla Hlb Hsum Hd H1 H2.
  pose proof (conv_opt_closed_form A B pDst pScratch1 pScratch2
                HA HB HM Hla Hlb Hsum Hd) as E1.
  pose proof (conv_opt_closed_form B A pDst pScratch1' pScratch2'
                HB HA) as E2.
  cbn zeta in E1, E2. fold la lb in E1, E2.
  rewrite E1, E2 by (tauto || lia).
  replace (lb + la - 1)%nat with (la + lb - 1)%nat by lia.
  f_equal. apply list_fmap_ext. intros _ n _.
  unfold conv_q15_spec. rewrite (conv_sum_comm A B). reflexivity.
Qed.

Lemma riscv_conv_opt_q15_exchange_operands_witness :
  riscv_conv_opt_q15 [256; 512; 768; -32768; 5] 5 [128; 128; -7; 9] 4
    [0; 0; 0; 0; 0; 0; 0; 0] (replicate 11 0) [0; 0; 0; 0]
  = riscv_conv_opt_q15 [128; 128; -7; 9] 4 [256; 512; 768; -32768; 5] 5
      [0; 0; 0; 0; 0; 0; 0; 0] (replicate 11 7) [7; 7; 7; 7].
Proof.
  apply (riscv_conv_opt_q15_exchange_operands
           [256; 512; 768; -32768; 5] [128; 128; -7; 9]
           [0; 0; 0; 0; 0; 0; 0; 0] (replicate 11 0) [0; 0; 0; 0]
           (replicate 11 7) [7; 7; 7; 7]);
    [reflexivity | reflexivity | right; reflexivity | simpl; lia | simpl; lia
    | reflexivity | simpl; lia | simpl; lia | simpl; lia].
Defined.

(** C1: on two sequences of four elements -32768, [riscv_conv_opt_q15]
    stores -32768 in outputs 1, 2 and 3, where the convolution sum,
    accumulated exactly, shifted right by 15 bits and saturated to 16
    bits, is 32767 at every output: the 2-lane dot product of the tap
    loop wraps around in its 32-bit result before it is added to the
    64-bit accumulator. *)
Theorem riscv_conv_opt_q15_dot_product_wraps :
  riscv_conv_opt_q15 [-32768; -32768; -32768; -32768] 4
                     [-32768; -32768; -32768; -32768] 4
                     [0; 0; 0; 0; 0; 0; 0] (replicate 10 0) [0; 0; 0; 0]
  = [32767; -32768; -32768; -32768; 32767; 32767; 32767] /\
  conv_q15_spec [-32768; -32768; -32768; -32768]
                [-32768; -32768; -32768; -32768] <$> seq 0 7
  = [32767; 32767; 32767; 32767; 32767; 32767; 32767] /\
  dotpv2 (V2 (-32768) (-32768)) (V2 (-32768) (-32768)) = - 2 ^ 31.
Proof. split; [|split]; vm_compute; reflexivity. Qed.

(** C5: with [m = -32768], [riscv_conv_opt_q15] stores -32768 in output
    2 of the convolution of [[0; m; m; 0]] and [[m; m; 0; 0]], and 32767
    in output 2 when the two operands are exchanged: the two sequences
    have the same length, so no exchange is made inside the function, and
    only in the first call does a 2-lane dot product of four lanes
    -32768 wrap around. *)
Theorem riscv_conv_opt_q15_exchange_differs :
  riscv_conv_opt_q15 [0; -32768; -32768; 0] 4 [-32768; -32768; 0; 0] 4
                     [0; 0; 0; 0; 0; 0; 0] (replicate 10 0) [0; 0; 0; 0]
  = [0; 32767; -32768; 32767; 0; 0; 0] /\
  riscv_conv_opt_q15 [-32768; -32768; 0; 0] 4 [0; -32768; -32768; 0] 4
                     [0; 0; 0; 0; 0; 0; 0] (replicate 10 0) [0; 0; 0; 0]
  = [0; 32767; 32767; 32767; 0; 0; 0] /\
  conv_operands [0; -32768; -32768; 0] 4 [-32768; -32768; 0; 0] 4
  = (([0; -32768; -32768; 0], 4%nat), ([-32768; -32768; 0; 0], 4%nat)).
Proof. split; [|split]; vm_compute; reflexivity. Qed.


(** ** Kernels on which the two builds agree *)

Lemma while_cnt_ext {S : Type} n (f g : S -> S) s :
  (forall t, f t = g t) -> while_cnt n f s = while_cnt n g s.
Proof.
  intros H. induction n as [|n IH]; [reflexivity|].
  rewrite !while_cnt_S, IH. apply H.
Qed.

Lemma do_while_cnt16_ext {S : Type} n (f g : S -> S) s :
  (forall t, f t = g t) -> do_while_cnt16 n f s = do_while_cnt16 n g s.
Proof. intros H. unfold do_while_cnt16. apply (while_cnt_ext _ f g s H). Qed.

Lemma wrap_add_l w x y : 0 < w -> wrap w (wrap w x + y) = wrap w (x + y).
Proof.
  intros Hw. unfold wrap. f_equal.
  replace ((x + 2 ^ (w - 1)) mod 2 ^ w - 2 ^ (w - 1) + y + 2 ^ (w - 1))
    with ((x + 2 ^ (w - 1)) mod 2 ^ w + y) by lia.
  rewrite Z.add_mod_idemp_l by (apply Z.pow_nonzero; lia).
  f_equal. lia.
Qed.

Lemma wrap_add_r w x y : 0 < w -> wrap w (x + wrap w y) = wrap w (x + y).
Proof.
  intros Hw. rewrite (Z.add_comm x (wrap w y)), wrap_add_l by exact Hw.
  f_equal. lia.
Qed.

Lemma q31_add_l x y : to_q31 (to_q31 x + y) = to_q31 (x + y).
Proof. apply wrap_add_l. lia. Qed.

Lemma q31_add_r x y : to_q31 (x + to_q31 y) = to_q31 (x + y).
Proof. apply wrap_add_r. lia. Qed.

(** Equalities between 32-bit accumulations are equalities modulo
    [2^32]. *)
Ltac q31_equality :=
  unfold mac, sumdotpv2, dotpv2, loadV2, to_q31, wrap; cbn [lane0 lane1];
  change (2 ^ (32 - 1)) with 2147483648; change (2 ^ 32) with 4294967296;
  f_equal; Z.mod_equality.

Lemma mac_quad_builds_agree srcA srcBT m :
  mac_quad true srcA srcBT m = mac_quad false srcA srcBT m.
Proof.
  unfold mac_quad, loadV2. cbv beta iota zeta.
  replace (m_pInA m + 2 + 1)%nat with (m_pInA m + 3)%nat by lia.
  replace (m_pInB m + 2 + 1)%nat with (m_pInB m + 3)%nat by lia.
  f_equal. q31_equality.
Qed.

Lemma mac_single_builds_agree srcA srcBT m :
  mac_single true srcA srcBT m = mac_single false srcA srcBT m.
Proof. unfold mac_single. cbv beta iota zeta. f_equal. q31_equality. Qed.

Lemma mat_fast_cell_builds_agree srcA srcBT numColsA o :
  mat_fast_cell true srcA srcBT numColsA o
  = mat_fast_cell false srcA srcBT numColsA o.
Proof.
  unfold mat_fast_cell.
  rewrite (while_cnt_ext _ _ _ _ (mac_quad_builds_agree srcA srcBT)).
  rewrite (while_cnt_ext _ _ _ _ (mac_single_builds_agree srcA srcBT)).
  reflexivity.
Qed.

Lemma mat_fast_row_builds_agree srcA srcBT numColsA numColsB o :
  mat_fast_row true srcA srcBT numColsA numColsB o
  = mat_fast_row false srcA srcBT numColsA numColsB o.
Proof.
  unfold mat_fast_row.
  rewrite (do_while_cnt16_ext _ _ _ _
             (mat_fast_cell_builds_agree srcA srcBT numColsA)).
  reflexivity.
Qed.

(** The two builds of [riscv_mat_mult_fast_q15] return the same result on
    every input. *)
Lemma riscv_mat_mult_fast_q15_builds_agree chk A B D pState :
  riscv_mat_mult_fast_q15 true chk A B D pState
  = riscv_mat_mult_fast_q15 false chk A B D pState.
Proof.
  unfold riscv_mat_mult_fast_q15.
  destruct (chk && size_mismatch A B D); [reflexivity|].
  rewrite (do_while_cnt16_ext _ _ _ _
             (mat_fast_row_builds_agree _ _ _ _)).
  reflexivity.
Qed.

(** The two builds of [riscv_abs_q31] store the same elements. *)
Lemma riscv_abs_q31_builds_agree src dst0 blockSize :
  forallb is_q31 src = true ->
  riscv_abs_q31 true src dst0 blockSize = riscv_abs_q31 false src dst0 blockSize.
Proof.
  intros Hq. unfold riscv_abs_q31. f_equal. apply while_cnt_ext. intros s.
  assert (Hx : is_q31 (load src (pSrc s)) = true).
  { destruct (src !! pSrc s) as [v|] eqn:E.
    - rewrite (load_lookup _ _ _ E). exact (forallb_lookup _ _ _ _ Hq E).
    - unfold load. rewrite E. reflexivity. }
  cbn zeta. rewrite abs_q31_dsp_value, abs_q31_scalar_value by exact Hx.
  reflexivity.
Qed.

(** The two builds of [riscv_offset_q15] store the same elements. *)
Lemma riscv_offset_q15_builds_agree src offset dst0 blockSize :
  forallb is_q15 src = true ->
  riscv_offset_q15 true src offset dst0 blockSize
  = riscv_offset_q15 false src offset dst0 blockSize.
Proof.
  intros Hq. unfold riscv_offset_q15. f_equal.
  set (f := fun s : vstate Z =>
              VState (pSrc s + 1) (pIn s) (pDst s + 1)
                (store (dst s) (pDst s)
                   (to_q15 (clip (load src (pSrc s) + offset) (-32768) 32767)))).
  rewrite (while_cnt_ext (blockSize / 2) _ (fun s => f (f s))).
  2:{ intros s. unfold f. cbn [pSrc pIn pDst dst]. f_equal; lia. }
  rewrite while_cnt_split2. apply while_cnt_ext. intros s. unfold f.
  do 3 f_equal. unfold __SSAT. change (- 2 ^ (16 - 1)) with (-32768).
  change (2 ^ (16 - 1) - 1) with 32767. do 2 f_equal.
  pose proof (q15r_load src (pSrc s) Hq) as R. unfold q15r in R.
  symmetry. apply wrap_id; [lia|]. change (2 ^ (32 - 1)) with 2147483648. lia.
Qed.

(** The two builds of [riscv_fill_q7] store the same elements. *)
Lemma riscv_fill_q7_builds_agree value dst0 blockSize :
  is_q7 value = true ->
  riscv_fill_q7 true value dst0 blockSize
  = riscv_fill_q7 false value dst0 blockSize.
Proof.
  intros Hv. unfold riscv_fill_q7. f_equal.
  set (f := fun s : vstate Z =>
              VState (pSrc s) (pIn s) (pDst s + 1)
                     (store (dst s) (pDst s) value)).
  rewrite (while_cnt_ext (blockSize / 4) _ (fun s => f (f (f (f s))))).
  2:{ intros s. unfold f, storeV4, pack4. cbn [pSrc pIn pDst dst byte0 byte1 byte2 byte3].
      assert (E : to_q7 value = value).
      { apply in_bits_spec in Hv. apply wrap_id; [lia|exact Hv]. }
      rewrite E. f_equal; [lia|].
      replace (pDst s + 1 + 1)%nat with (pDst s + 2)%nat by lia.
      replace (pDst s + 2 + 1)%nat with (pDst s + 3)%nat by lia.
      reflexivity. }
  apply while_cnt_split4.
Qed.

(** The two builds of [riscv_q15_to_q7] store the same elements when
    [blockSize] is even. *)
Lemma riscv_q15_to_q7_builds_agree_even src dst0 k :
  (2 * k <= length dst0)%nat ->
  riscv_q15_to_q7 true src dst0 (2 * k) = riscv_q15_to_q7 false src dst0 (2 * k).
Proof.
  intros Hd. apply list_eq. intros n.
  assert (Hp : riscv_q15_to_q7 true src dst0 (2 * k)
               = dst (while_cnt k (q15_to_q7_packed src)
                        (VState 0%nat 0%nat 0%nat dst0))).
  { unfold riscv_q15_to_q7.
    replace ((2 * k) / 2)%nat with k
      by (apply (Nat.div_unique _ 2 k 0); lia).
    replace ((2 * k) mod 2)%nat with 0%nat
      by (apply (Nat.mod_unique _ 2 k 0); lia).
    reflexivity. }
  rewrite Hp.
  destruct (q15_to_q7_packed_loop src dst0 k) as (_ & _ & _ & _ & Pin & Pout).
  destruct (vloop_spec pIn (fun i => to_q7 (Z.shiftr (load src i) 8))
              (q15_to_q7_scalar src) (VState 0%nat 0%nat 0%nat dst0) (2 * k))
    as (_ & _ & _ & Sin & Sout).
  { intros s. simpl. auto. }
  unfold riscv_q15_to_q7. cbn [pIn pDst dst] in *.
  destruct (Nat.lt_ge_cases n (2 * k)) as [C|C].
  - rewrite Pin by lia. symmetry. apply (Sin n); lia.
  - rewrite Pout by lia. symmetry. apply Sout. lia.
Qed.


(** ** Matrix product, fast variant *)












(** C2: the product of the 1x1 matrices [[-32768]] and [[-32768]] is
    stored as -32768 by both builds of [riscv_mat_mult_fast_q15]: the
    accumulator [2^30] shifted by 15 bits is 32768, and it is converted to
    [q15_t] without saturation, where the saturated value is 32767. *)
Theorem riscv_mat_mult_fast_q15_not_saturated :
  let A := Matrix 1 1 [-32768] in
  let B := Matrix 1 1 [-32768] in
  riscv_mat_mult_fast_q15 false true A B (Matrix 1 1 [0]) [0]
  = (RISCV_MATH_SUCCESS, [-32768]) /\
  riscv_mat_mult_fast_q15 true true A B (Matrix 1 1 [0]) [0]
  = (RISCV_MATH_SUCCESS, [-32768]) /\
  mat_mult_fast_q15_spec A B 0 0 = 32767.
Proof. repeat split; vm_compute; reflexivity. Qed.

(** ** Complex matrix product *)








Lemma q15_id v : q15r v -> to_q15 v = v.
Proof.
  unfold q15r. intros H. apply wrap_id; [lia|].
  change (2 ^ (16 - 1)) with 32768. lia.
Qed.


Section CmplxCell.

Variables (dsp : bool) (srcA srcBT : list Z) (W : nat).
Hypothesis HA : forall i, q15r (load srcA i).
Hypothesis HB : forall i, (i < W)%nat -> q15r (load srcBT i).



End CmplxCell.




(** C4: with [USE_DSP_RISCV], the 1x1 product of [0 - 32768 i] and
    [0 + 1 i] is stored as [-1 + 0 i]: [-b] does not fit the 16-bit lane
    it is assigned to when [b = -32768]. The expected cell, and the one
    the portable build stores, is [1 + 0 i]. *)
Theorem riscv_mat_cmplx_mult_q15_dsp_min_imag :
  let A := Matrix 1 1 [0; -32768] in
  let B := Matrix 1 1 [0; 1] in
  riscv_mat_cmplx_mult_q15 true true A B (Matrix 1 1 [0; 0]) [0; 0]
  = (RISCV_MATH_SUCCESS, [-1; 0]) /\
  riscv_mat_cmplx_mult_q15 false true A B (Matrix 1 1 [0; 0]) [0; 0]
  = (RISCV_MATH_SUCCESS, [1; 0]) /\
  cmplx_mult_re_spec A B 0 0 = 1 /\
  cmplx_mult_im_spec A B 0 0 = 0.
Proof. repeat split; vm_compute; reflexivity. Qed.

(** ** The two builds compared *)

(** C6: the two builds disagree on [riscv_q15_to_q7] for an odd
    [blockSize] and on [riscv_mat_cmplx_mult_q15] for an imaginary part
    of -32768 in the first operand. *)
Theorem dsp_and_portable_builds_differ :
  riscv_q15_to_q7 true [-32768; 0; 32767] [0; 0; 0] 3 = [-128; 0; -128] /\
  riscv_q15_to_q7 false [-32768; 0; 32767] [0; 0; 0] 3 = [-128; 0; 127] /\
  riscv_mat_cmplx_mult_q15 true true
    (Matrix 1 1 [1000; -32768]) (Matrix 1 1 [2000; 3000])
    (Matrix 1 1 [0; 0]) [0; 0]
  = (RISCV_MATH_SUCCESS, [-2939; -1909]) /\
  riscv_mat_cmplx_mult_q15 false true
    (Matrix 1 1 [1000; -32768]) (Matrix 1 1 [2000; 3000])
    (Matrix 1 1 [0; 0]) [0; 0]
  = (RISCV_MATH_SUCCESS, [3061; -1909]).
Proof. repeat split; vm_compute; reflexivity. Qed.


(** * Further properties of the kernels and of the board support *)

(** ** Element-wise kernels in closed form *)

(** A buffer whose first [n] elements are [f] of the first [n] source
    elements and whose other elements are those of [dst0]. *)
Lemma mapped_prefix {A B : Type} (d : A) (f : A -> B)
    (src : list A) (dst0 out : list B) (n : nat) :
  (n <= length src)%nat ->
  (n <= length dst0)%nat ->
  length out = length dst0 ->
  (forall k, (k < n)%nat -> out !! k = Some (f (default d (src !! k)))) ->
  (forall k, (n <= k)%nat -> out !! k = dst0 !! k) ->
  out = (f <$> take n src) ++ drop n dst0.
Proof.
  intros Hs Hd Hlen Hin Hout. apply list_eq. intros k.
  assert (Ht : length (f <$> take n src) = n)
    by (rewrite length_fmap, length_take; lia).
  destruct (Nat.lt_ge_cases k n) as [C|C].
  - rewrite lookup_app_l by lia. rewrite list_lookup_fmap, lookup_take_lt by exact C.
    rewrite Hin by exact C.
    destruct (lookup_lt_is_Some_2 src k ltac:(lia)) as [v Hv].
    rewrite Hv. reflexivity.
  - rewrite lookup_app_r by lia. rewrite Ht, lookup_drop, Hout by exact C.
    f_equal. lia.
Qed.

(** The loop of a kernel that reads one element and stores one element
    per pass, for any element types. *)
Lemma vloop_from_start {B : Type} (ix : vstate B -> nat) (g : nat -> B)
    (body : vstate B -> vstate B) (dst0 : list B) (n : nat) :
  (forall s, ix (body s) = (ix s + 1)%nat /\
             pDst (body s) = (pDst s + 1)%nat /\
             dst (body s) = <[pDst s := g (ix s)]> (dst s)) ->
  ix (VState 0%nat 0%nat 0%nat dst0) = 0%nat ->
  (n <= length dst0)%nat ->
  let out := dst (while_cnt n body (VState 0%nat 0%nat 0%nat dst0)) in
  length out = length dst0 /\
  (forall k, (k < n)%nat -> out !! k = Some (g k)) /\
  (forall k, (n <= k)%nat -> out !! k = dst0 !! k).
Proof.
  intros Hbody Hix Hn. cbn zeta.
  assert (G : forall m, (m <= length dst0)%nat ->
            let s := while_cnt m body (VState 0%nat 0%nat 0%nat dst0) in
            ix s = m /\ pDst s = m /\ length (dst s) = length dst0 /\
            (forall k, (k < m)%nat -> dst s !! k = Some (g k)) /\
            (forall k, (m <= k)%nat -> dst s !! k = dst0 !! k)).
  { induction m as [|m IH]; intros Hm; cbn zeta.
    - rewrite while_cnt_0. cbn [pDst dst]. rewrite Hix.
      split; [reflexivity|]. split; [reflexivity|]. split; [reflexivity|].
      split; [intros; lia|reflexivity].
    - rewrite while_cnt_S.
      destruct (IH ltac:(lia)) as (I1 & I2 & I3 & I4 & I5).
      destruct (Hbody (while_cnt m body (VState 0%nat 0%nat 0%nat dst0)))
        as (B1 & B2 & B3).
      rewrite B1, B2, B3, I1, I2, length_insert, I3.
      split; [lia|]. split; [lia|]. split; [reflexivity|]. split.
      + intros k Hk. destruct (Nat.eq_dec k m) as [->|Hne].
        * apply list_lookup_insert_eq. lia.
        * rewrite list_lookup_insert_ne by lia. apply I4. lia.
      + intros k Hk. rewrite list_lookup_insert_ne by lia. apply I5. lia. }
  destruct (G n Hn) as (_ & _ & G3 & G4 & G5). auto.
Qed.

Lemma q7_id v : -128 <= v <= 127 -> to_q7 v = v.
Proof. intros H. apply wrap_id; [lia|]. change (2 ^ (8 - 1)) with 128. lia. Qed.

Lemma q7r_load (l : list Z) i :
  forallb is_q7 l = true -> -128 <= load l i <= 127.
Proof.
  intros H. destruct (l !! i) as [v|] eqn:E.
  - rewrite (load_lookup _ _ _ E).
    pose proof (forallb_lookup _ _ _ _ H E) as Hv.
    apply in_bits_spec in Hv. change (2 ^ (8 - 1)) with 128 in Hv. lia.
  - unfold load. rewrite E. simpl. lia.
Qed.

(** X3: in both builds, [riscv_offset_q15] on a Q15 vector stores
    [src[n] + offset] clamped to [[-32768, 32767]] in the first
    [blockSize] elements of the destination and leaves the others as they
    were. *)
Theorem riscv_offset_q15_saturating_sum (USE_DSP_RISCV : bool)
    (src : list Z) (offset : Z) (dst0 : list Z) (blockSize : nat) :
  forallb is_q15 src = true ->
  is_q15 offset = true ->
  (blockSize <= length src)%nat ->
  (blockSize <= length dst0)%nat ->
  riscv_offset_q15 USE_DSP_RISCV src offset dst0 blockSize
  = ((fun x => Z.max (-32768) (Z.min (x + offset) 32767)) <$> take blockSize src)
    ++ drop blockSize dst0.
Proof.
  intros Hq _ Hs Hd.
  assert (E : riscv_offset_q15 USE_DSP_RISCV src offset dst0 blockSize
              = riscv_offset_q15 false src offset dst0 blockSize).
  { destruct USE_DSP_RISCV; [|reflexivity].
    apply riscv_offset_q15_builds_agree. exact Hq. }
  rewrite E. unfold riscv_offset_q15.
  match goal with |- dst (while_cnt _ ?b ?s) = _ =>
    destruct (vloop_from_start pSrc
      (fun i => to_q15 (__SSAT (to_q31 (load src i) + offset) 16))
      b dst0 blockSize) as (L & Hin & Hout) end.
  { intros s. cbn [pSrc pDst dst]. auto. }
  { reflexivity. }
  { exact Hd. }
  apply (mapped_prefix 0); try assumption.
  intros k Hk. rewrite Hin by exact Hk. f_equal.
  rewrite q15_SSAT. fold (load src k).
  pose proof (q15r_load src k Hq) as R. unfold q15r in R.
  rewrite q31_id by lia. reflexivity.
Qed.

Lemma riscv_offset_q15_saturating_sum_witness :
  riscv_offset_q15 true [32000; -5; 7] 1000 [0; 0; 0; 9] 3
  = ((fun x => Z.max (-32768) (Z.min (x + 1000) 32767)) <$> take 3 [32000; -5; 7])
    ++ drop 3 [0; 0; 0; 9].
Proof.
  apply (riscv_offset_q15_saturating_sum true [32000; -5; 7] 1000 [0; 0; 0; 9] 3);
    [reflexivity | reflexivity | simpl; lia | simpl; lia].
Defined.

(** X4: in both builds, [riscv_fill_q7] sets the first [blockSize]
    elements of the destination to [value] and leaves the others as they
    were. *)
Theorem riscv_fill_q7_fills_block (USE_DSP_RISCV : bool)
    (value : Z) (dst0 : list Z) (blockSize : nat) :
  is_q7 value = true ->
  (blockSize <= length dst0)%nat ->
  riscv_fill_q7 USE_DSP_RISCV value dst0 blockSize
  = replicate blockSize value ++ drop blockSize dst0.
Proof.
  intros Hv Hd.
  assert (E : riscv_fill_q7 USE_DSP_RISCV value dst0 blockSize
              = riscv_fill_q7 false value dst0 blockSize).
  { destruct USE_DSP_RISCV; [|reflexivity].
    apply riscv_fill_q7_builds_agree. exact Hv. }
  rewrite E. unfold riscv_fill_q7. cbv beta iota zeta.
  match goal with |- dst (while_cnt _ ?b ?s) = _ =>
    destruct (vloop_from_start pDst (fun _ => value) b dst0 blockSize)
      as (L & Hin & Hout) end.
  { intros s. cbn [pSrc pDst dst]. auto. }
  { reflexivity. }
  { exact Hd. }
  apply list_eq. intros k.
  destruct (Nat.lt_ge_cases k blockSize) as [C|C].
  - rewrite lookup_app_l by (rewrite length_replicate; exact C).
    rewrite Hin by exact C. symmetry. apply lookup_replicate_2. exact C.
  - rewrite lookup_app_r by (rewrite length_replicate; exact C).
    rewrite length_replicate, lookup_drop, Hout by exact C. f_equal. lia.
Qed.

Lemma riscv_fill_q7_fills_block_witness :
  riscv_fill_q7 true (-3) [1; 2; 3; 4; 5; 6; 7] 6
  = replicate 6 (-3) ++ drop 6 [1; 2; 3; 4; 5; 6; 7].
Proof.
  apply (riscv_fill_q7_fills_block true (-3) [1; 2; 3; 4; 5; 6; 7] 6);
    [reflexivity | simpl; lia].
Defined.

Lemma q7_to_q15_exact x :
  -128 <= x <= 127 -> to_q15 (Z.shiftl (to_q15 x) 8) = 256 * x.
Proof.
  intros H. unfold to_q15. rewrite (wrap_id 16 x) by (simpl; lia).
  rewrite Z.shiftl_mul_pow2 by lia. change (2 ^ 8) with 256.
  rewrite wrap_id by (simpl; lia). lia.
Qed.

Lemma riscv_q7_to_q15_loop (src dst0 : list Z) (blockSize : nat) :
  (blockSize <= length dst0)%nat ->
  let out := riscv_q7_to_q15 src dst0 blockSize in
  length out = length dst0 /\
  (forall k, (k < blockSize)%nat ->
             out !! k = Some (to_q15 (Z.shiftl (to_q15 (load src k)) 8))) /\
  (forall k, (blockSize <= k)%nat -> out !! k = dst0 !! k).
Proof.
  intros Hd. unfold riscv_q7_to_q15.
  match goal with |- context [while_cnt _ ?b ?s] =>
    apply (vloop_from_start pIn
      (fun i => to_q15 (Z.shiftl (to_q15 (load src i)) 8)) b dst0 blockSize) end.
  - intros s. cbn [pIn pDst dst]. auto.
  - reflexivity.
  - exact Hd.
Qed.

(** X5: [riscv_q7_to_q15] stores [256 * src[n]], without overflow, in
    the first [blockSize] elements of the destination and leaves the
    others as they were. *)
Theorem riscv_q7_to_q15_scales_by_256
    (src dst0 : list Z) (blockSize : nat) :
  forallb is_q7 src = true ->
  (blockSize <= length src)%nat ->
  (blockSize <= length dst0)%nat ->
  riscv_q7_to_q15 src dst0 blockSize
  = (Z.mul 256 <$> take blockSize src) ++ drop blockSize dst0.
Proof.
  intros Hq Hs Hd.
  destruct (riscv_q7_to_q15_loop src dst0 blockSize Hd) as (L & Hin & Hout).
  apply (mapped_prefix 0); try assumption.
  intros k Hk. rewrite Hin by exact Hk. f_equal. fold (load src k).
  apply q7_to_q15_exact. apply q7r_load. exact Hq.
Qed.

Lemma riscv_q7_to_q15_scales_by_256_witness :
  riscv_q7_to_q15 [-128; 127; 5] [0; 0; 0; 1] 3
  = (Z.mul 256 <$> take 3 [-128; 127; 5]) ++ drop 3 [0; 0; 0; 1].
Proof.
  apply (riscv_q7_to_q15_scales_by_256 [-128; 127; 5] [0; 0; 0; 1] 3);
    [reflexivity | simpl; lia | simpl; lia].
Defined.

(** X6: [riscv_q15_to_q31] stores [65536 * src[n]], without overflow,
    in the first [blockSize] elements of the destination and leaves the
    others as they were. *)
Theorem riscv_q15_to_q31_scales_by_65536
    (src dst0 : list Z) (blockSize : nat) :
  forallb is_q15 src = true ->
  (blockSize <= length src)%nat ->
  (blockSize <= length dst0)%nat ->
  riscv_q15_to_q31 src dst0 blockSize
  = (Z.mul 65536 <$> take blockSize src) ++ drop blockSize dst0.
Proof.
  intros Hq Hs Hd. unfold riscv_q15_to_q31.
  match goal with |- dst (while_cnt _ ?b ?s) = _ =>
    destruct (vloop_from_start pIn
      (fun i => to_q31 (Z.shiftl (to_q31 (load src i)) 16)) b dst0 blockSize)
      as (L & Hin & Hout) end.
  { intros s. cbn [pIn pDst dst]. auto. }
  { reflexivity. }
  { exact Hd. }
  apply (mapped_prefix 0); try assumption.
  intros k Hk. rewrite Hin by exact Hk. f_equal. fold (load src k).
  pose proof (q15r_load src k Hq) as R. unfold q15r in R.
  rewrite (q31_id (load src k)) by lia.
  rewrite Z.shiftl_mul_pow2 by lia. change (2 ^ 16) with 65536.
  rewrite q31_id by lia. lia.
Qed.

Lemma riscv_q15_to_q31_scales_by_65536_witness :
  riscv_q15_to_q31 [-32768; 32767; 5] [0; 0; 0; 1] 3
  = (Z.mul 65536 <$> take 3 [-32768; 32767; 5]) ++ drop 3 [0; 0; 0; 1].
Proof.
  apply (riscv_q15_to_q31_scales_by_65536 [-32768; 32767; 5] [0; 0; 0; 1] 3);
    [reflexivity | simpl; lia | simpl; lia].
Defined.

(** X7: widening a Q7 vector with [riscv_q7_to_q15] and narrowing the
    result with [riscv_q15_to_q7] gives the vector back, in the portable
    build for every [blockSize] and in the [USE_DSP_RISCV] build for an
    even [blockSize]. *)
Theorem q7_q15_q7_roundtrip (USE_DSP_RISCV : bool)
    (src d15 d7 : list Z) (blockSize : nat) :
  forallb is_q7 src = true ->
  (blockSize <= length src)%nat ->
  (blockSize <= length d15)%nat ->
  (blockSize <= length d7)%nat ->
  USE_DSP_RISCV = false \/ Nat.Even blockSize ->
  riscv_q15_to_q7 USE_DSP_RISCV (riscv_q7_to_q15 src d15 blockSize) d7 blockSize
  = take blockSize src ++ drop blockSize d7.
Proof.
  intros Hq Hs H15 H7 Hb.
  assert (E : riscv_q15_to_q7 USE_DSP_RISCV
                (riscv_q7_to_q15 src d15 blockSize) d7 blockSize
              = riscv_q15_to_q7 false
                  (riscv_q7_to_q15 src d15 blockSize) d7 blockSize).
  { destruct USE_DSP_RISCV; [|reflexivity].
    destruct Hb as [Hb|[k Hk]]; [discriminate|]. subst blockSize.
    apply riscv_q15_to_q7_builds_agree_even. exact H7. }
  rewrite E. clear E.
  destruct (riscv_q7_to_q15_loop src d15 blockSize H15) as (_ & Win & _).
  set (w := riscv_q7_to_q15 src d15 blockSize) in *.
  unfold riscv_q15_to_q7.
  destruct (vloop_from_start pIn
    (fun i => to_q7 (Z.shiftr (load w i) 8)) (q15_to_q7_scalar w)
    d7 blockSize) as (L & Hin & Hout).
  { intros s. cbn [pIn pDst dst q15_to_q7_scalar]. auto. }
  { reflexivity. }
  { exact H7. }
  rewrite <- (list_fmap_id (take blockSize src)).
  apply (mapped_prefix 0); [exact Hs|exact H7|exact L| |exact Hout].
  intros k Hk. rewrite Hin by exact Hk. f_equal.
  rewrite (load_lookup _ _ _ (Win k Hk)). fold (load src k).
  pose proof (q7r_load src k Hq) as Q.
  rewrite q7_to_q15_exact by exact Q.
  rewrite Z.shiftr_div_pow2 by lia. change (2 ^ 8) with 256.
  rewrite Z.mul_comm, Z.div_mul by lia. apply q7_id. exact Q.
Qed.

Lemma q7_q15_q7_roundtrip_witness :
  riscv_q15_to_q7 true (riscv_q7_to_q15 [-128; 127; 5; 6] [0; 0; 0; 0] 4)
    [9; 9; 9; 9; 9] 4
  = take 4 [-128; 127; 5; 6] ++ drop 4 [9; 9; 9; 9; 9].
Proof.
  apply (q7_q15_q7_roundtrip true [-128; 127; 5; 6] [0; 0; 0; 0] [9; 9; 9; 9; 9] 4);
    [reflexivity | simpl; lia | simpl; lia | simpl; lia
    | right; exists 2%nat; reflexivity].
Defined.

Lemma pow2_range s : 0 <= s <= 7 -> 1 <= 2 ^ s <= 128.
Proof.
  intros Hs. split.
  - change 1 with (2 ^ 0). apply Z.pow_le_mono_r; lia.
  - change 128 with (2 ^ 7). apply Z.pow_le_mono_r; lia.
Qed.

Lemma shift_q7_left_value x s :
  -128 <= x <= 127 -> 0 <= s <= 7 ->
  to_q7 (__SSAT (to_q31 (Z.shiftl (to_q15 x) s)) 8)
  = Z.max (-128) (Z.min (x * 2 ^ s) 127).
Proof.
  intros Hx Hs. unfold to_q15. rewrite (wrap_id 16 x) by (simpl; lia).
  rewrite Z.shiftl_mul_pow2 by lia.
  pose proof (pow2_range s Hs) as P.
  assert (B : -16384 <= x * 2 ^ s <= 16384) by nia.
  rewrite q31_id by (change (2 ^ 31) with 2147483648; lia).
  unfold __SSAT, clip. change (- 2 ^ (8 - 1)) with (-128).
  change (2 ^ (8 - 1) - 1) with 127. apply q7_id. lia.
Qed.

Lemma shift_q7_right_value x k :
  -128 <= x <= 127 -> 0 <= k ->
  -128 <= Z.shiftr x k <= 127 /\ Z.shiftr x k = x / 2 ^ k.
Proof.
  intros Hx Hk. rewrite Z.shiftr_div_pow2 by lia.
  assert (P : 0 < 2 ^ k) by (apply Z.pow_pos_nonneg; lia).
  split; [|reflexivity].
  pose proof (Z.mul_div_le x (2 ^ k) P) as D1.
  pose proof (Z.mul_succ_div_gt x (2 ^ k) P) as D2.
  split; nia.
Qed.

Lemma shift_q7_sign_left s : 0 <= s <= 7 -> Z.land s 128 = 0.
Proof.
  intros H.
  assert (C : s = 0 \/ s = 1 \/ s = 2 \/ s = 3 \/ s = 4 \/ s = 5 \/ s = 6 \/ s = 7)
    by lia.
  destruct C as [->|[->|[->|[->|[->|[->|[->| ->]]]]]]]; reflexivity.
Qed.

Lemma shift_q7_sign_right s : -7 <= s <= -1 -> Z.land s 128 = 128.
Proof.
  intros H.
  assert (C : s = -1 \/ s = -2 \/ s = -3 \/ s = -4 \/ s = -5 \/ s = -6 \/ s = -7)
    by lia.
  destruct C as [->|[->|[->|[->|[->|[->| ->]]]]]]; reflexivity.
Qed.

Lemma clip_SSAT8 v : clip v (-128) 127 = __SSAT v 8.
Proof. reflexivity. Qed.

(** X9: in both builds, [riscv_shift_q7] with a shift of 0 to 7 bits
    stores [src[n] * 2^shiftBits] clamped to [[-128, 127]] in the first
    [blockSize] elements of the destination and leaves the others as they
    were. *)
Theorem riscv_shift_q7_left_saturates (USE_DSP_RISCV : bool)
    (src : list Z) (shiftBits : Z) (dst0 : list Z) (blockSize : nat) :
  forallb is_q7 src = true ->
  0 <= shiftBits <= 7 ->
  (blockSize <= length src)%nat ->
  (blockSize <= length dst0)%nat ->
  riscv_shift_q7 USE_DSP_RISCV src shiftBits dst0 blockSize
  = ((fun x => Z.max (-128) (Z.min (x * 2 ^ shiftBits) 127))
       <$> take blockSize src) ++ drop blockSize dst0.
Proof.
  intros Hq Hsh Hs Hd.
  set (f := fun s : vstate Z =>
              VState (pSrc s + 1) (pIn s) (pDst s + 1)
                (store (dst s) (pDst s)
                   (to_q7 (__SSAT (to_q31 (Z.shiftl (to_q15 (load src (pSrc s)))
                                                    shiftBits)) 8)))).
  assert (E : riscv_shift_q7 USE_DSP_RISCV src shiftBits dst0 blockSize
              = dst (while_cnt blockSize f (VState 0%nat 0%nat 0%nat dst0))).
  { unfold riscv_shift_q7. rewrite (shift_q7_sign_left _ Hsh).
    change (0 =? 0) with true. destruct USE_DSP_RISCV; cbv beta iota zeta.
    - rewrite <- (while_cnt_split4 blockSize f).
      apply (f_equal dst).
      rewrite (while_cnt_ext (blockSize / 4) _ (fun s => f (f (f (f s))))).
      + reflexivity.
      + intros s. unfold f. cbn [pSrc pIn pDst dst]. rewrite !clip_SSAT8. reflexivity.
    - reflexivity. }
 
  rewrite E.
  destruct (vloop_from_start pSrc
    (fun i => to_q7 (__SSAT (to_q31 (Z.shiftl (to_q15 (load src i)) shiftBits)) 8))
    f dst0 blockSize) as (L & Hin & Hout).
  { intros s. unfold f. cbn [pSrc pDst dst]. auto. }
  { reflexivity. }
  { exact Hd. }
 
  apply (mapped_prefix 0); try assumption.
  intros k Hk. rewrite Hin by exact Hk. f_equal. fold (load src k).
  apply shift_q7_left_value; [apply q7r_load; exact Hq|exact Hsh].
Qed.

Lemma riscv_shift_q7_left_saturates_witness :
  riscv_shift_q7 true [-128; 127; 5; 6; -3] 3 [0; 0; 0; 0; 0; 1] 5
  = ((fun x => Z.max (-128) (Z.min (x * 2 ^ 3) 127))
       <$> take 5 [-128; 127; 5; 6; -3]) ++ drop 5 [0; 0; 0; 0; 0; 1].
Proof.
  apply (riscv_shift_q7_left_saturates true [-128; 127; 5; 6; -3] 3
           [0; 0; 0; 0; 0; 1] 5);
    [reflexivity | lia | simpl; lia | simpl; lia].
Defined.

(** X10: in both builds, [riscv_shift_q7] with a shift of -1 to -7 bits
    stores [src[n] / 2^(-shiftBits)], rounded towards minus infinity, in
    the first [blockSize] elements of the destination and leaves the
    others as they were. *)
Theorem riscv_shift_q7_right_divides (USE_DSP_RISCV : bool)
    (src : list Z) (shiftBits : Z) (dst0 : list Z) (blockSize : nat) :
  forallb is_q7 src = true ->
  -7 <= shiftBits <= -1 ->
  (blockSize <= length src)%nat ->
  (blockSize <= length dst0)%nat ->
  riscv_shift_q7 USE_DSP_RISCV src shiftBits dst0 blockSize
  = ((fun x => x / 2 ^ (- shiftBits)) <$> take blockSize src)
    ++ drop blockSize dst0.
Proof.
  intros Hq Hsh Hs Hd.
  set (f := fun s : vstate Z =>
              VState (pSrc s + 1) (pIn s) (pDst s + 1)
                (store (dst s) (pDst s)
                   (to_q7 (Z.shiftr (load src (pSrc s)) (- shiftBits))))).
  assert (W : forall p, to_q7 (Z.shiftr (load src p) (- shiftBits))
                        = Z.shiftr (load src p) (- shiftBits)).
  { intros p. apply q7_id.
    apply shift_q7_right_value; [apply q7r_load; exact Hq|lia]. }
  assert (E : riscv_shift_q7 USE_DSP_RISCV src shiftBits dst0 blockSize
              = dst (while_cnt blockSize f (VState 0%nat 0%nat 0%nat dst0))).
  { unfold riscv_shift_q7. rewrite (shift_q7_sign_right _ Hsh).
    change (128 =? 0) with false. destruct USE_DSP_RISCV; cbv beta iota zeta.
    - rewrite <- (while_cnt_split4 blockSize f).
      apply (f_equal dst).
      rewrite (while_cnt_ext (blockSize / 4) _ (fun s => f (f (f (f s))))).
      + reflexivity.
      + intros s. unfold f, storeV4, sra4, loadV4, pack4.
        cbn [pSrc pIn pDst dst byte0 byte1 byte2 byte3].
        rewrite (q7_id (- shiftBits)) by lia. rewrite !W.
        replace (pSrc s + 1 + 1)%nat with (pSrc s + 2)%nat by lia.
        replace (pSrc s + 2 + 1)%nat with (pSrc s + 3)%nat by lia.
        replace (pSrc s + 3 + 1)%nat with (pSrc s + 4)%nat by lia.
        replace (pDst s + 1 + 1)%nat with (pDst s + 2)%nat by lia.
        replace (pDst s + 2 + 1)%nat with (pDst s + 3)%nat by lia.
        replace (pDst s + 3 + 1)%nat with (pDst s + 4)%nat by lia.
        reflexivity.
    - reflexivity. }
  rewrite E.
  destruct (vloop_from_start pSrc
    (fun i => to_q7 (Z.shiftr (load src i) (- shiftBits)))
    f dst0 blockSize) as (L & Hin & Hout).
  { intros s. unfold f. cbn [pSrc pDst dst]. auto. }
  { reflexivity. }
  { exact Hd. }
  apply (mapped_prefix 0); try assumption.
  intros k Hk. rewrite Hin by exact Hk. f_equal. fold (load src k).
  rewrite W. apply shift_q7_right_value; [apply q7r_load; exact Hq|lia].
Qed.

Lemma riscv_shift_q7_right_divides_witness :
  riscv_shift_q7 true [-128; 127; 5; 6; -3] (-2) [0; 0; 0; 0; 0; 1] 5
  = ((fun x => x / 2 ^ (- -2)) <$> take 5 [-128; 127; 5; 6; -3])
    ++ drop 5 [0; 0; 0; 0; 0; 1].
Proof.
  apply (riscv_shift_q7_right_divides true [-128; 127; 5; 6; -3] (-2)
           [0; 0; 0; 0; 0; 1] 5);
    [reflexivity | lia | simpl; lia | simpl; lia].
Defined.

Lemma riscv_abs_q31_loop (USE_DSP_RISCV : bool)
    (src dst0 : list Z) (blockSize : nat) :
  (forall k, (k < blockSize)%nat -> is_q31 (load src k) = true) ->
  (blockSize <= length dst0)%nat ->
  let out := riscv_abs_q31 USE_DSP_RISCV src dst0 blockSize in
  length out = length dst0 /\
  (forall k, (k < blockSize)%nat ->
             out !! k = Some (abs_q31_spec (load src k))) /\
  (forall k, (blockSize <= k)%nat -> out !! k = dst0 !! k).
Proof.
  intros Hq Hd. unfold riscv_abs_q31. destruct USE_DSP_RISCV; cbv zeta.
  - match goal with |- context [while_cnt _ ?b _] =>
      destruct (vloop_from_start pSrc
        (fun i => if load src i mod 2 ^ 32 =? 2147483648
                  then INT32_MAX else p_abs (load src i)) b dst0 blockSize)
        as (L & Hin & Hout) end.
    { intros s. cbn [pSrc pDst dst]. auto. }
    { reflexivity. }
    { exact Hd. }
    split; [exact L|]. split; [|exact Hout].
    intros k Hk. rewrite Hin by exact Hk.
    rewrite abs_q31_dsp_value by (apply Hq; exact Hk). reflexivity.
  - match goal with |- context [while_cnt _ ?b _] =>
      destruct (vloop_from_start pSrc
        (fun i => if load src i >? 0 then load src i
                  else if load src i =? INT32_MIN then INT32_MAX
                       else - load src i) b dst0 blockSize)
        as (L & Hin & Hout) end.
    { intros s. cbn [pSrc pDst dst]. auto. }
    { reflexivity. }
    { exact Hd. }
    split; [exact L|]. split; [|exact Hout].
    intros k Hk. rewrite Hin by exact Hk.
    rewrite abs_q31_scalar_value by (apply Hq; exact Hk). reflexivity.
Qed.

Lemma abs_q31_spec_range x :
  is_q31 x = true -> 0 <= abs_q31_spec x <= 2147483647.
Proof.
  intros H. apply in_bits_spec in H. change (2 ^ (32 - 1)) with 2147483648 in H.
  unfold abs_q31_spec, INT32_MIN, INT32_MAX.
  destruct (Z.eqb_spec x (-2147483648)); lia.
Qed.

Lemma abs_q31_spec_fixed a : 0 <= a -> abs_q31_spec a = a.
Proof.
  intros H. unfold abs_q31_spec, INT32_MIN.
  destruct (Z.eqb_spec a (-2147483648)); lia.
Qed.

(** X11: [riscv_abs_q31] applied to its own output stores that output
    again, whichever build makes each of the two calls: an absolute value
    is never changed by a second call. *)
Theorem riscv_abs_q31_idempotent (dsp1 dsp2 : bool)
    (src dst1 dst2 : list Z) (blockSize : nat) :
  forallb is_q31 src = true ->
  (blockSize <= length src)%nat ->
  (blockSize <= length dst1)%nat ->
  (blockSize <= length dst2)%nat ->
  riscv_abs_q31 dsp2 (riscv_abs_q31 dsp1 src dst1 blockSize) dst2 blockSize
  = take blockSize (riscv_abs_q31 dsp1 src dst1 blockSize)
    ++ drop blockSize dst2.
Proof.
  intros Hq Hs H1 H2.
  assert (Hq1 : forall k, (k < blockSize)%nat -> is_q31 (load src k) = true).
  { intros k Hk. apply (forallb_lookup _ src k); [exact Hq|].
    apply lookup_load. lia. }
  destruct (riscv_abs_q31_loop dsp1 src dst1 blockSize Hq1 H1) as (L1 & I1 & _).
  set (out1 := riscv_abs_q31 dsp1 src dst1 blockSize) in *.
  assert (Hq2 : forall k, (k < blockSize)%nat -> is_q31 (load out1 k) = true).
  { intros k Hk. rewrite (load_lookup _ _ _ (I1 k Hk)).
    pose proof (abs_q31_spec_range _ (Hq1 k Hk)).
    apply in_bits_spec. change (2 ^ (32 - 1)) with 2147483648. lia. }
  destruct (riscv_abs_q31_loop dsp2 out1 dst2 blockSize Hq2 H2) as (L2 & I2 & O2).
  rewrite <- (list_fmap_id (take blockSize out1)).
  apply (mapped_prefix 0); [lia|exact H2|exact L2| |exact O2].
  intros k Hk. rewrite I2 by exact Hk. f_equal. fold (load out1 k).
  rewrite (load_lookup _ _ _ (I1 k Hk)).
  apply abs_q31_spec_fixed. apply abs_q31_spec_range. apply Hq1. exact Hk.
Qed.

Lemma riscv_abs_q31_idempotent_witness :
  riscv_abs_q31 false (riscv_abs_q31 true [-2147483648; -5; 7] [0; 0; 0] 3)
    [1; 1; 1; 1] 3
  = take 3 (riscv_abs_q31 true [-2147483648; -5; 7] [0; 0; 0] 3)
    ++ drop 3 [1; 1; 1; 1].
Proof.
  apply (riscv_abs_q31_idempotent true false [-2147483648; -5; 7] [0; 0; 0]
           [1; 1; 1; 1] 3);
    [reflexivity | simpl; lia | simpl; lia | simpl; lia].
Defined.

Section FloatProperties.

Context {float32_t : Type}.
Variable fzero : float32_t.
Variable fmul : float32_t -> float32_t -> float32_t.
Variable fadd : float32_t -> float32_t -> float32_t.
Variable fdiv : float32_t -> float32_t -> float32_t.
Variable fgt0 : float32_t -> bool.
Variable float_of_int : Z -> float32_t.
Variable int_of_float : float32_t -> Z.
Variables f128 fhalf fneghalf : float32_t.

Lemma riscv_mult_f32_loop (srcA srcB dst0 : list float32_t) (blockSize : nat) :
  (blockSize <= length dst0)%nat ->
  let out := riscv_mult_f32 fzero fmul srcA srcB dst0 blockSize in
  length out = length dst0 /\
  (forall k, (k < blockSize)%nat ->
             out !! k = Some (fmul (fload fzero srcA k) (fload fzero srcB k))) /\
  (forall k, (blockSize <= k)%nat -> out !! k = dst0 !! k).
Proof.
  intros Hd. unfold riscv_mult_f32. cbv zeta.
  assert (G : forall m, (m <= length dst0)%nat ->
            let s := while_cnt m (fun s : vstate float32_t =>
                       VState (pSrc s + 1) (pIn s + 1) (pDst s + 1)
                         (fstore (dst s) (pDst s)
                            (fmul (fload fzero srcA (pSrc s))
                                  (fload fzero srcB (pIn s)))))
                     (VState 0%nat 0%nat 0%nat dst0) in
            pSrc s = m /\ pIn s = m /\ pDst s = m /\
            length (dst s) = length dst0 /\
            (forall k, (k < m)%nat ->
               dst s !! k = Some (fmul (fload fzero srcA k) (fload fzero srcB k))) /\
            (forall k, (m <= k)%nat -> dst s !! k = dst0 !! k)).
  { induction m as [|m IH]; intros Hm; cbv zeta.
    - rewrite while_cnt_0. cbn [pSrc pIn pDst dst].
      do 4 (split; [reflexivity|]). split; [intros; lia|reflexivity].
    - rewrite while_cnt_S.
      destruct (IH ltac:(lia)) as (I1 & I2 & I3 & I4 & I5 & I6).
      set (s := while_cnt m _ _) in *. clearbody s.
      cbn [pSrc pIn pDst dst]. unfold fstore.
      rewrite I1, I2, I3, length_insert, I4.
      split; [lia|]. split; [lia|]. split; [lia|]. split; [reflexivity|]. split.
      + intros k Hk. destruct (Nat.eq_dec k m) as [->|Hne].
        * apply list_lookup_insert_eq. lia.
        * rewrite list_lookup_insert_ne by lia. apply I5. lia.
      + intros k Hk. rewrite list_lookup_insert_ne by lia. apply I6. lia. }
  destruct (G blockSize Hd) as (_ & _ & _ & G4 & G5 & G6). auto.
Qed.

(** X12: [riscv_mult_f32] stores the product of [srcA[n]] and [srcB[n]]
    in the first [blockSize] elements of the destination and leaves the
    others as they were. *)
Theorem riscv_mult_f32_elementwise
    (srcA srcB dst0 : list float32_t) (blockSize : nat) :
  (blockSize <= length srcA)%nat ->
  (blockSize <= length srcB)%nat ->
  (blockSize <= length dst0)%nat ->
  riscv_mult_f32 fzero fmul srcA srcB dst0 blockSize
  = zip_with fmul (take blockSize srcA) (take blockSize srcB)
    ++ drop blockSize dst0.
Proof.
  intros HA HB Hd.
  destruct (riscv_mult_f32_loop srcA srcB dst0 blockSize Hd) as (L & Hin & Hout).
  assert (Hz : length (zip_with fmul (take blockSize srcA) (take blockSize srcB))
               = blockSize)
    by (rewrite length_zip_with, !length_take; lia).
  apply list_eq. intros k.
  destruct (Nat.lt_ge_cases k blockSize) as [C|C].
  - rewrite lookup_app_l by lia. rewrite Hin by exact C.
    rewrite lookup_zip_with, !lookup_take_lt by exact C.
    destruct (lookup_lt_is_Some_2 srcA k ltac:(lia)) as [a Ha].
    destruct (lookup_lt_is_Some_2 srcB k ltac:(lia)) as [b Hb].
    unfold fload. rewrite Ha, Hb. reflexivity.
  - rewrite lookup_app_r by lia. rewrite Hz, lookup_drop, Hout by exact C.
    f_equal. lia.
Qed.

(** X13: [riscv_q7_to_float] stores [(float32_t) src[n] / 128] in the
    first [blockSize] elements of the destination and leaves the others
    as they were. *)
Theorem riscv_q7_to_float_elementwise
    (src : list Z) (dst0 : list float32_t) (blockSize : nat) :
  (blockSize <= length src)%nat ->
  (blockSize <= length dst0)%nat ->
  riscv_q7_to_float fdiv float_of_int f128 src dst0 blockSize
  = ((fun x => fdiv (float_of_int x) f128) <$> take blockSize src)
    ++ drop blockSize dst0.
Proof.
  intros Hs Hd. unfold riscv_q7_to_float.
  match goal with |- dst (while_cnt _ ?b _) = _ =>
    destruct (vloop_from_start pIn
      (fun i => fdiv (float_of_int (load src i)) f128) b dst0 blockSize)
      as (L & Hin & Hout) end.
  { intros s. cbn [pIn pDst dst]. auto. }
  { reflexivity. }
  { exact Hd. }
  apply (mapped_prefix 0); try assumption.
Qed.

(** X14: in both builds, with or without [RISCV_MATH_ROUNDING],
    [riscv_float_to_q7] stores the integer converted from [src[n] * 128]
    clamped to [[-128, 127]]: whatever the source holds, every element it
    stores is in the Q7 range. *)
Theorem riscv_float_to_q7_saturates (USE_DSP_RISCV RISCV_MATH_ROUNDING : bool)
    (src : list float32_t) (dst0 : list Z) (blockSize : nat) :
  (blockSize <= length src)%nat ->
  (blockSize <= length dst0)%nat ->
  let out := riscv_float_to_q7 fzero fmul fadd fgt0 int_of_float
               f128 fhalf fneghalf USE_DSP_RISCV RISCV_MATH_ROUNDING
               src dst0 blockSize in
  out = (float_to_q7_value fmul fadd fgt0 int_of_float f128 fhalf fneghalf
           RISCV_MATH_ROUNDING <$> take blockSize src)
        ++ drop blockSize dst0 /\
  (forall n v, (n < blockSize)%nat -> out !! n = Some v -> -128 <= v <= 127).
Proof.
  intros Hs Hd out.
  assert (E : out = (float_to_q7_value fmul fadd fgt0 int_of_float f128 fhalf fneghalf
           RISCV_MATH_ROUNDING <$> take blockSize src)
                    ++ drop blockSize dst0).
  { subst out. unfold riscv_float_to_q7. cbv zeta.
    match goal with |- dst (while_cnt _ ?b _) = _ =>
      destruct (vloop_from_start pIn
        (fun i => float_to_q7_value fmul fadd fgt0 int_of_float f128 fhalf fneghalf
           RISCV_MATH_ROUNDING (fload fzero src i))
        b dst0 blockSize) as (L & Hin & Hout) end.
    { intros s. cbn [pIn pDst dst].
      split; [reflexivity|]. split; [reflexivity|].
      unfold store. f_equal. unfold float_to_q7_value. cbv zeta.
      destruct USE_DSP_RISCV; (apply q7_id; unfold __SSAT, clip;
        change (- 2 ^ (8 - 1)) with (-128);
        change (2 ^ (8 - 1) - 1) with 127; lia). }
    { reflexivity. }
    { exact Hd. }
    apply (mapped_prefix fzero); try assumption. }
  split; [exact E|].
  intros n v Hn Hv. rewrite E in Hv.
  rewrite lookup_app_l in Hv by (rewrite length_fmap, length_take; lia).
  rewrite list_lookup_fmap in Hv.
  destruct (take blockSize src !! n) as [w|]; [|discriminate].
  cbn in Hv. injection Hv as <-. unfold float_to_q7_value. cbv zeta. lia.
Qed.

End FloatProperties.

Lemma riscv_float_to_q7_saturates_witness :
  let out := riscv_float_to_q7 0 Z.mul Z.add (fun x => 0 <? x) (fun x => x / 1000)
               128 500 (-500) true true [1000; -3000; 20] [0; 0; 0; 9] 3 in
  out = (float_to_q7_value Z.mul Z.add (fun x => 0 <? x) (fun x => x / 1000)
           128 500 (-500) true <$> take 3 [1000; -3000; 20])
        ++ drop 3 [0; 0; 0; 9] /\
  (forall n v, (n < 3)%nat -> out !! n = Some v -> -128 <= v <= 127).
Proof.
  apply (riscv_float_to_q7_saturates 0 Z.mul Z.add (fun x => 0 <? x)
           (fun x => x / 1000) 128 500 (-500) true true
           [1000; -3000; 20] [0; 0; 0; 9] 3); simpl; lia.
Defined.

Lemma riscv_mult_f32_elementwise_witness :
  riscv_mult_f32 0 Z.mul [2; 3; 4] [5; 6; 7] [0; 0; 0; 9] 3
  = zip_with Z.mul (take 3 [2; 3; 4]) (take 3 [5; 6; 7]) ++ drop 3 [0; 0; 0; 9].
Proof.
  apply (riscv_mult_f32_elementwise 0 Z.mul [2; 3; 4] [5; 6; 7] [0; 0; 0; 9] 3);
    simpl; lia.
Defined.

(** X8: [riscv_q15_to_q7] on a Q15 vector stores [src[n] / 256], rounded
    towards minus infinity, in the first [blockSize] elements of the
    destination and leaves the others as they were, in the portable build
    for every [blockSize] and in the [USE_DSP_RISCV] build for an even
    [blockSize]. *)
Theorem riscv_q15_to_q7_divides_by_256 (USE_DSP_RISCV : bool)
    (src dst0 : list Z) (blockSize : nat) :
  forallb is_q15 src = true ->
  (blockSize <= length src)%nat ->
  (blockSize <= length dst0)%nat ->
  USE_DSP_RISCV = false \/ Nat.Even blockSize ->
  riscv_q15_to_q7 USE_DSP_RISCV src dst0 blockSize
  = ((fun x => x / 256) <$> take blockSize src) ++ drop blockSize dst0.
Proof.
  intros Hq Hs Hd Hb.
  assert (E : riscv_q15_to_q7 USE_DSP_RISCV src dst0 blockSize
              = riscv_q15_to_q7 false src dst0 blockSize).
  { destruct USE_DSP_RISCV; [|reflexivity].
    destruct Hb as [Hb|[k Hk]]; [discriminate|]. subst blockSize.
    apply riscv_q15_to_q7_builds_agree_even. exact Hd. }
  rewrite E. unfold riscv_q15_to_q7.
  destruct (vloop_from_start pIn
    (fun i => to_q7 (Z.shiftr (load src i) 8)) (q15_to_q7_scalar src)
    dst0 blockSize) as (L & Hin & Hout).
  { intros s. cbn [pIn pDst dst q15_to_q7_scalar]. auto. }
  { reflexivity. }
  { exact Hd. }
  apply (mapped_prefix 0); try assumption.
  intros k Hk. rewrite Hin by exact Hk. f_equal. fold (load src k).
  assert (Hx : is_q15 (load src k) = true).
  { apply (forallb_lookup _ src k); [exact Hq|]. apply lookup_load. lia. }
  rewrite shiftr8_q15 by exact Hx.
  rewrite Z.shiftr_div_pow2 by lia. reflexivity.
Qed.

Lemma riscv_q15_to_q7_divides_by_256_witness :
  riscv_q15_to_q7 true [-32768; 32767; 255; -1] [0; 0; 0; 0; 9] 4
  = ((fun x => x / 256) <$> take 4 [-32768; 32767; 255; -1]) ++ drop 4 [0; 0; 0; 0; 9].
Proof.
  apply (riscv_q15_to_q7_divides_by_256 true [-32768; 32767; 255; -1]
           [0; 0; 0; 0; 9] 4);
    [reflexivity | simpl; lia | simpl; lia | right; exists 2%nat; reflexivity].
Defined.

Lemma riscv_q7_to_float_elementwise_witness :
  riscv_q7_to_float Z.div (fun x => 1000 * x) 128 [64; -128; 5] [0; 0; 0; 9] 3
  = ((fun x => (1000 * x) / 128) <$> take 3 [64; -128; 5]) ++ drop 3 [0; 0; 0; 9].
Proof.
  apply (riscv_q7_to_float_elementwise Z.div (fun x => 1000 * x) 128
           [64; -128; 5] [0; 0; 0; 9] 3); simpl; lia.
Defined.

(** ** Matrix kernels: scaled operands and builds *)






(** X16: [riscv_mat_mult_fast_q15] returns the same status and the same
    destination data in the [USE_DSP_RISCV] build and in the portable
    build, on every input. *)
Theorem riscv_mat_mult_fast_q15_build_independent
    (dsp1 dsp2 RISCV_MATH_MATRIX_CHECK : bool)
    (A B D : riscv_matrix_instance_q15) (pState : list Z) :
  riscv_mat_mult_fast_q15 dsp1 RISCV_MATH_MATRIX_CHECK A B D pState
  = riscv_mat_mult_fast_q15 dsp2 RISCV_MATH_MATRIX_CHECK A B D pState.
Proof.
  pose proof (riscv_mat_mult_fast_q15_builds_agree
                RISCV_MATH_MATRIX_CHECK A B D pState) as E.
  destruct dsp1, dsp2; [reflexivity|exact E|symmetry; exact E|reflexivity].
Qed.



(** ** Interrupt handlers *)

Lemma for_range_S {S : Type} first n (body : nat -> S -> S) s :
  for_range first (Datatypes.S n) body s
  = body (first + n)%nat (for_range first n body s).
Proof.
  unfold for_range. rewrite seq_S, fold_left_app. reflexivity.
Qed.

Lemma sign_bit_set m : m < 0 -> (Z.land m (- 2 ^ 31) =? 0) = false.
Proof.
  intros H. apply Z.eqb_neq.
  assert (Z.land m (- 2 ^ 31) < 0) by (apply Z.land_neg; split; [exact H|reflexivity]).
  lia.
Qed.

Lemma sign_bit_clear m :
  0 <= m < 2 ^ 31 -> (Z.land m (- 2 ^ 31) =? 0) = true.
Proof.
  intros H. apply Z.eqb_eq. apply Z.bits_inj'. intros n Hn.
  rewrite Z.land_spec, Z.bits_0.
  destruct (Z_lt_le_dec n 31) as [C|C].
  - change (- 2 ^ 31) with (Z.shiftl (-1) 31).
    rewrite Z.shiftl_spec_low by exact C. apply andb_false_r.
  - destruct (Z.eq_dec m 0) as [->|Hne]; [rewrite Z.bits_0; reflexivity|].
    rewrite Z.bits_above_log2; [reflexivity|lia|].
    apply Z.lt_le_trans with 31; [|exact C].
    apply Z.log2_lt_pow2; lia.
Qed.

Section InterruptProperties.

Context {handler_t arg_t : Type}.
Variable MAX_INT_HANDLERS : nat.
Variable handler_stub : handler_t.
Variable null : arg_t.

Lemma int_init_loop (t : list (@ihnd handler_t arg_t)) n :
  (n <= length t)%nat ->
  for_range 0 n (fun i t => <[i := Ihnd handler_stub null]> t) t
  = replicate n (Ihnd handler_stub null) ++ drop n t.
Proof.
  induction n as [|n IH]; intros Hn.
  - reflexivity.
  - rewrite for_range_S, IH by lia. cbn [Nat.add].
    apply list_eq. intros k.
    destruct (Nat.lt_trichotomy k n) as [C|[->|C]].
    + rewrite list_lookup_insert_ne by lia.
      rewrite !lookup_app_l by (rewrite length_replicate; lia).
      rewrite !lookup_replicate_2 by lia. reflexivity.
    + rewrite list_lookup_insert_eq
        by (rewrite length_app, length_replicate, length_drop; lia).
      rewrite lookup_app_l by (rewrite length_replicate; lia).
      rewrite lookup_replicate_2 by lia. reflexivity.
    + rewrite list_lookup_insert_ne by lia.
      rewrite !lookup_app_r by (rewrite length_replicate; lia).
      rewrite !length_replicate, !lookup_drop. f_equal. lia.
Qed.

(** X18: [int_init] sets every entry of the table to the stub with a
    null argument, so that [int_main] then calls the stub for every
    external interrupt whose cause indexes the table. *)
Theorem int_init_then_int_main (t : list (@ihnd handler_t arg_t)) (mcause : Z) :
  length t = MAX_INT_HANDLERS ->
  mcause < 0 ->
  (Z.to_nat (Z.land mcause 31) < MAX_INT_HANDLERS)%nat ->
  int_init MAX_INT_HANDLERS handler_stub null t
  = replicate MAX_INT_HANDLERS (Ihnd handler_stub null) /\
  int_main mcause (int_init MAX_INT_HANDLERS handler_stub null t)
  = Some (Ihnd handler_stub null).
Proof.
  intros Hl Hm Hc.
  assert (E : int_init MAX_INT_HANDLERS handler_stub null t
              = replicate MAX_INT_HANDLERS (Ihnd handler_stub null)).
  { unfold int_init. rewrite int_init_loop by lia.
    rewrite drop_ge by lia. apply app_nil_r. }
  split; [exact E|].
  unfold int_main. rewrite E, (sign_bit_set _ Hm).
  apply lookup_replicate_2. exact Hc.
Qed.

(** X19: [int_add] with [irq < MAX_INT_HANDLERS] returns 1; [int_main]
    then calls the handler with the argument that were registered when
    the cause is [irq], and calls what it called before for the other
    causes. *)
Theorem int_add_then_int_main (t : list (@ihnd handler_t arg_t))
    (irq : nat) (h : handler_t) (a : arg_t) (mcause : Z) :
  length t = MAX_INT_HANDLERS ->
  (irq < MAX_INT_HANDLERS)%nat ->
  mcause < 0 ->
  let r := int_add MAX_INT_HANDLERS irq h a t in
  fst r = 1 /\
  length (snd r) = MAX_INT_HANDLERS /\
  (Z.to_nat (Z.land mcause 31) = irq ->
   int_main mcause (snd r) = Some (Ihnd h a)) /\
  (Z.to_nat (Z.land mcause 31) <> irq ->
   int_main mcause (snd r) = int_main mcause t).
Proof.
  intros Hl Hi Hm r. subst r. unfold int_add.
  destruct (Nat.leb_spec MAX_INT_HANDLERS irq) as [C|C]; [lia|].
  cbn [fst snd]. split; [reflexivity|]. split; [rewrite length_insert; exact Hl|].
  unfold int_main. rewrite (sign_bit_set _ Hm). split.
  - intros ->. apply list_lookup_insert_eq. lia.
  - intros Hne. apply list_lookup_insert_ne. auto.
Qed.


(** X21: [int_main] calls no handler when bit 31 of the cause register
    is clear. *)
Theorem int_main_no_interrupt (t : list (@ihnd handler_t arg_t)) (mcause : Z) :
  0 <= mcause < 2 ^ 31 -> int_main mcause t = None.
Proof.
  intros H. unfold int_main. rewrite (sign_bit_clear _ H). reflexivity.
Qed.

End InterruptProperties.

Lemma int_init_then_int_main_witness :
  int_init 4 0 0 [Ihnd 1 1; Ihnd 2 2; Ihnd 3 3; Ihnd 4 4]
  = replicate 4 (Ihnd 0 0) /\
  int_main (- 2 ^ 31 + 3) (int_init 4 0 0 [Ihnd 1 1; Ihnd 2 2; Ihnd 3 3; Ihnd 4 4])
  = Some (Ihnd 0 0).
Proof.
  apply (int_init_then_int_main 4%nat 0 0
           [Ihnd 1 1; Ihnd 2 2; Ihnd 3 3; Ihnd 4 4] (- 2 ^ 31 + 3));
    [reflexivity | reflexivity | vm_compute; lia].
Defined.

Lemma int_add_then_int_main_witness :
  let r := int_add 4 2 7 8 [Ihnd 1 1; Ihnd 2 2; Ihnd 3 3; Ihnd 4 4] in
  fst r = 1 /\
  length (snd r) = 4%nat /\
  (Z.to_nat (Z.land (- 2 ^ 31 + 2) 31) = 2%nat ->
   int_main (- 2 ^ 31 + 2) (snd r) = Some (Ihnd 7 8)) /\
  (Z.to_nat (Z.land (- 2 ^ 31 + 2) 31) <> 2%nat ->
   int_main (- 2 ^ 31 + 2) (snd r)
   = int_main (- 2 ^ 31 + 2) [Ihnd 1 1; Ihnd 2 2; Ihnd 3 3; Ihnd 4 4]).
Proof.
  apply (int_add_then_int_main 4%nat [Ihnd 1 1; Ihnd 2 2; Ihnd 3 3; Ihnd 4 4]
           2%nat 7 8 (- 2 ^ 31 + 2));
    [reflexivity | lia | reflexivity].
Defined.

Lemma int_main_no_interrupt_witness :
  int_main 11 [Ihnd 1 1; Ihnd 2 2] = None.
Proof.
  apply (int_main_no_interrupt [Ihnd 1 1; Ihnd 2 2] 11). simpl. lia.
Defined.

(** ** The SPI loader *)

Lemma spi_load_size_value in_size :
  0 <= in_size ->
  spi_load_size in_size
  = if in_size mod 4 =? 0 then in_size else 4 * (in_size / 4) + 4.
Proof.
  intros H. unfold spi_load_size.
  change 3 with (Z.ones 2) at 1. rewrite Z.land_ones by lia.
  change (2 ^ 2) with 4.
  destruct (in_size mod 4 =? 0); [reflexivity|].
  f_equal. change (Z.land in_size (Z.lnot 3)) with (Z.ldiff in_size (Z.ones 2)).
  rewrite Z.ldiff_ones_r by lia.
  rewrite Z.shiftl_mul_pow2, Z.shiftr_div_pow2 by lia.
  change (2 ^ 2) with 4. lia.
Qed.



Lemma blocks_chain_snoc first l c :
  blocks_chain first l (sl_start c) ->
  blocks_chain first (l ++ [c])
    (sl_start c + Z.to_nat (sl_in_size c / 4) - 1).
Proof.
  revert first. induction l as [|d l IH]; intros first H.
  - cbn [app blocks_chain] in *. subst first. split; reflexivity.
  - cbn [app blocks_chain] in *. destruct H as (H1 & H2).
    split; [exact H1|]. apply IH. exact H2.
Qed.

(** The loop of [process_file] after the entries [1 .. k]. *)
Lemma process_file_loop (addr : list Z) (entries k : nat) :
  (k <= entries - 1)%nat ->
  let b := for_range 1 k (process_file_block addr entries) (Blocks 0%nat []) in
  (start_idx b <= k)%nat /\
  (k - start_idx b < 255)%nat /\
  (k = (entries - 1)%nat -> start_idx b = k) /\
  blocks_chain 0 (rev (calls b)) (start_idx b) /\
  Forall (fun c => 8 <= sl_in_size c <= 1024 /\ sl_in_size c mod 4 = 0 /\
                   sl_addr c = load addr (sl_start c)) (calls b).
Proof.
  induction k as [|k IH]; intros Hk; cbv zeta.
  - unfold for_range. cbn [seq fold_left start_idx calls rev blocks_chain].
    split; [lia|]. split; [lia|]. split; [lia|]. split; [reflexivity|].
    constructor.
  - rewrite for_range_S.
    destruct (IH ltac:(lia)) as (I1 & I2 & _ & I4 & I5).
    set (b := for_range 1 k _ _) in *. clearbody b.
    replace (1 + k)%nat with (S k) by lia.
    unfold process_file_block.
    destruct (negb (load addr (S k) =? (load addr (S k - 1) + 4) mod 2 ^ 32)
              || (S k - start_idx b =? 255)%nat
              || (S k =? entries - 1)%nat) eqn:C.
    + cbn [start_idx calls rev].
      split; [lia|]. split; [lia|]. split; [reflexivity|]. split.
      * pose proof (blocks_chain_snoc 0 (rev (calls b))
                      (SpiLoad (load addr (start_idx b)) (start_idx b)
                               (Z.of_nat (S k - start_idx b + 1) * 4)) I4) as Ch.
        cbn [sl_start sl_in_size] in Ch.
        rewrite Z.div_mul in Ch by lia.
        replace (start_idx b + Z.to_nat (Z.of_nat (S k - start_idx b + 1)) - 1)%nat
          with (S k) in Ch by lia.
        exact Ch.
      * constructor; [|exact I5]. cbn [sl_in_size sl_addr sl_start].
        split; [lia|]. split; [|reflexivity].
        apply Z.mod_mul. lia.
    + apply orb_false_iff in C. destruct C as (C12 & C3).
      apply orb_false_iff in C12. destruct C12 as (C1 & C2).
      apply Nat.eqb_neq in C2, C3.
      split; [lia|]. split; [lia|]. split; [lia|]. split; assumption.
Qed.

(** X23: every block sent by [process_file] holds 2 to 256 entries (8
    to 1024 bytes), needs no padding in [spi_load], and is sent to the
    address of its first entry. *)
Theorem process_file_blocks_sizes (addr : list Z) (entries : nat) :
  Forall (fun c => 8 <= sl_in_size c <= 1024 /\
                   spi_load_size (sl_in_size c) = sl_in_size c /\
                   sl_addr c = load addr (sl_start c))
         (process_file_blocks addr entries).
Proof.
  unfold process_file_blocks.
  destruct (process_file_loop addr entries (entries - 1) ltac:(lia))
    as (_ & _ & _ & _ & F).
  apply Forall_rev in F. eapply Forall_impl; [exact F|].
  intros c (R & M & A). split; [exact R|]. split; [|exact A].
  rewrite spi_load_size_value by lia. rewrite M. reflexivity.
Qed.

(** X24: the blocks sent by [process_file] start at entry 0, each one
    starts at the entry the one before ends with, and the last one ends
    at the last entry; no block is sent for a file of one entry. *)
Theorem process_file_blocks_overlap (addr : list Z) (entries : nat) :
  blocks_chain 0 (process_file_blocks addr entries) (entries - 1) /\
  ((2 <= entries)%nat -> process_file_blocks addr entries <> []) /\
  ((entries <= 1)%nat -> process_file_blocks addr entries = []).
Proof.
  unfold process_file_blocks.
  destruct (process_file_loop addr entries (entries - 1) ltac:(lia))
    as (_ & _ & S3 & Ch & _).
  rewrite S3 in Ch by reflexivity. split; [exact Ch|]. split.
  - intros H2 E. rewrite E in Ch. cbn [blocks_chain] in Ch. lia.
  - intros H1. replace (entries - 1)%nat with 0%nat by lia. reflexivity.
Qed.

(** ** Fast convolution *)

Lemma loadz_nat (m : list Z) (n : nat) : loadz m (Z.of_nat n) = nth n m 0.
Proof.
  unfold loadz. destruct (Z.ltb_spec (Z.of_nat n) 0) as [C|C]; [lia|].
  rewrite Nat2Z.id. apply load_nth.
Qed.

Lemma q31_mac_add S a b :
  to_q31 (to_q31 S + to_q31 (to_q31 a * b)) = to_q31 (S + a * b).
Proof.
  unfold to_q31, wrap.
  change (2 ^ (32 - 1)) with 2147483648; change (2 ^ 32) with 4294967296.
  f_equal. Z.mod_equality.
Qed.

Lemma fast_mac_add_loop x y px py k :
  while_cnt k (fast_mac_add x y) (FastMac 0 px py)
  = FastMac (to_q31 (wsum x y px py k)) (px + Z.of_nat k) (py - Z.of_nat k).
Proof.
  induction k as [|k IH].
  - rewrite while_cnt_0. cbn [wsum sumf Z.of_nat].
    rewrite Z.add_0_r, Z.sub_0_r. reflexivity.
  - rewrite while_cnt_S, IH. unfold fast_mac_add. cbn [f_sum f_px f_py].
    unfold wsum. cbn [sumf]. rewrite q31_mac_add. f_equal; lia.
Qed.

Lemma fast_mac_mac_loop x y px py k :
  while_cnt k (fast_mac_mac x y) (FastMac 0 px py)
  = FastMac (to_q31 (wsum x y px py k)) (px + Z.of_nat k) (py - Z.of_nat k).
Proof.
  induction k as [|k IH].
  - rewrite while_cnt_0. cbn [wsum sumf Z.of_nat].
    rewrite Z.add_0_r, Z.sub_0_r. reflexivity.
  - rewrite while_cnt_S, IH. unfold fast_mac_mac, mac. cbn [f_sum f_px f_py].
    unfold wsum. cbn [sumf]. rewrite q31_add_l. f_equal; lia.
Qed.

Lemma out_inv_store v G d0 d t w :
  out_inv v G d0 d t -> (t < length d0)%nat -> (G t -> w = v t) ->
  out_inv v G d0 (store d t w) (t + 1).
Proof.
  intros (L & Hin & Hout) Ht Hw. unfold out_inv.
  rewrite length_store. split; [exact L|]. split.
  - intros n Hn Gn. destruct (Nat.eq_dec n t) as [->|Hne].
    + rewrite lookup_store_eq by lia. f_equal. apply Hw. exact Gn.
    + rewrite lookup_store_ne by lia. apply Hin; [lia|exact Gn].
  - intros n Hn. rewrite lookup_store_ne by lia. apply Hout. lia.
Qed.

Lemma sumf_zero_head f a m :
  (forall k, (k < a)%nat -> f k = 0) ->
  sumf f (a + m) = sumf (fun i => f (a + i)%nat) m.
Proof.
  intros Hz. induction m as [|m IH].
  - rewrite Nat.add_0_r. cbn [sumf].
    induction a as [|a IHa]; [reflexivity|].
    cbn [sumf]. rewrite IHa by (intros; apply Hz; lia). rewrite Hz by lia. lia.
  - replace (a + S m)%nat with (S (a + m)) by lia. cbn [sumf].
    rewrite IH. reflexivity.
Qed.

(** The products of the window that a pass of the loops multiplies are
    all the non-zero products of the convolution sum. *)
Lemma window_conv_sum (x y : list Z) (n : nat) :
  let a := (n + 1 - length y)%nat in
  let e := Nat.min (n + 1) (length x) in
  (a <= e)%nat ->
  wsum x y (Z.of_nat a) (Z.of_nat (n - a)) (e - a) = conv_sum x y n.
Proof.
  intros a e Hae. unfold conv_sum.
  set (f := fun k => nth k x 0 * nth (n - k) y 0).
  rewrite (sumf_zero_tail f e (S n)).
  2:{ unfold e. lia. }
  2:{ intros k Hk. unfold f. rewrite (nth_overflow x) by (unfold e in Hk; lia).
      lia. }
  replace e with (a + (e - a))%nat at 2 by lia.
  rewrite sumf_zero_head.
  2:{ intros k Hk. unfold f. rewrite (nth_overflow y) by (unfold a in Hk; lia).
      lia. }
  unfold wsum. apply sumf_ext. intros i Hi. unfold f.
  rewrite <- Nat2Z.inj_add, loadz_nat.
  replace (Z.of_nat (n - a) - Z.of_nat i) with (Z.of_nat (n - (a + i)))
    by (unfold e in *; lia).
  rewrite loadz_nat. reflexivity.
Qed.

Section FastStages.

Variables (x y d0 : list Z) (v : nat -> Z) (G : nat -> Prop).
Let M := length x.
Let L := length y.
Let w := fun n => fast_q15 (conv_sum x y n).
Let quad := fun n =>
  (4 <= L)%nat /\ (L - 1 <= n < L - 1 + 4 * ((M - L + 1) / 4))%nat.
Hypothesis HL : (1 <= L)%nat.
Hypothesis HLM : (L <= M)%nat.
Hypothesis Hd0 : (M + L - 1 <= length d0)%nat.
Hypothesis H32 : Z.of_nat M + Z.of_nat L - 1 < 2 ^ 32.
Hypothesis Hv : forall n, G n -> ~ quad n -> v n = w n.

Lemma quad_le : (4 * ((M - L + 1) / 4) <= M - L + 1)%nat.
Proof. apply Nat.Div0.mul_div_le. Qed.

Lemma out_inv_w d t :
  out_inv v G d0 d t -> (t < length d0)%nat -> ~ quad t ->
  out_inv v G d0 (store d t (w t)) (t + 1).
Proof.
  intros I Ht Hq. apply out_inv_store; [exact I|exact Ht|].
  intros Gt. symmetry. apply Hv; assumption.
Qed.

Lemma pass_value n a k :
  (n < M + L - 1)%nat ->
  a = (n + 1 - L)%nat -> k = (Nat.min (n + 1) M - a)%nat ->
  to_q15 (Z.shiftr (to_q31 (wsum x y (Z.of_nat a) (Z.of_nat (n - a)) k)) 15)
  = w n.
Proof.
  intros Hn -> ->. unfold w, fast_q15. do 3 f_equal.
  apply window_conv_sum. fold M L. lia.
Qed.

(** Stage 1 *)

Lemma stage1_short_pass t d :
  (t + 1 <= L - 1)%nat ->
  fast_stage1_short x y (FastOut (t + 1) 0 (Z.of_nat t) t d)
  = FastOut (t + 1 + 1) 0 (Z.of_nat (t + 1)) (t + 1) (store d t (w t)).
Proof.
  intros Ht. unfold fast_stage1_short. cbn [fo_count fo_px fo_py fo_pOut fo_dst].
  rewrite fast_mac_add_loop. cbn [f_sum].
  rewrite <- (pass_value t 0 (t + 1)) by lia.
  replace (t - 0)%nat with t by lia. reflexivity.
Qed.

Lemma stage1_first_spec b t d :
  (t <= 3)%nat -> (t + b <= L - 1)%nat -> out_inv v G d0 d t ->
  let r := Nat.min b (3 - t) in
  exists d',
    fast_stage1_first x y b (FastOut (t + 1) 0 (Z.of_nat t) t d)
    = ((b - r)%nat, FastOut (t + r + 1) 0 (Z.of_nat (t + r)) (t + r) d') /\
    out_inv v G d0 d' (t + r).
Proof using HL HLM Hd0 H32 Hv.
  revert t d. induction b as [|b IH]; intros t d Ht Hb Hinv; cbv zeta.
  - exists d. cbn [fast_stage1_first Nat.min Nat.sub].
    rewrite !Nat.add_0_r. auto.
  - cbn [fast_stage1_first fo_count].
    destruct (Nat.ltb_spec (t + 1) 4) as [C|C].
    + rewrite stage1_short_pass by lia.
      destruct (IH (t + 1)%nat (store d t (w t))) as (d' & E & I);
        [lia|lia|apply out_inv_w; [exact Hinv|lia|pose proof quad_le; unfold quad; lia]|].
      cbv zeta in E, I.
      replace (Nat.min (S b) (3 - t)) with (1 + Nat.min b (3 - (t + 1)))%nat by lia.
      exists d'. replace (t + 1 + Nat.min b (3 - (t + 1)))%nat
        with (t + (1 + Nat.min b (3 - (t + 1))))%nat in E, I by lia.
      split; [|exact I]. rewrite E. f_equal; lia.
    + replace (Nat.min (S b) (3 - t)) with 0%nat by lia.
      exists d. rewrite !Nat.add_0_r, Nat.sub_0_r. auto.
Qed.

Lemma stage1_long_pass t d :
  (t + 1 <= L - 1)%nat ->
  fast_stage1_long x y (FastOut (t + 1) 0 (Z.of_nat t - 1) t d)
  = FastOut (t + 1 + 1) 0 (Z.of_nat (t + 1) - 1) (t + 1) (store d t (w t)).
Proof.
  intros Ht. unfold fast_stage1_long. cbn [fo_count fo_px fo_py fo_pOut fo_dst].
  rewrite while_cnt_split4.
  replace (Z.of_nat t - 1 + 1) with (Z.of_nat t) by lia.
  rewrite fast_mac_add_loop. cbn [f_sum].
  rewrite <- (pass_value t 0 (t + 1)) by lia.
  replace (t - 0)%nat with t by lia.
  rewrite u32_small by lia. f_equal. lia.
Qed.

Lemma stage1_long_spec b t d :
  (t + b <= L - 1)%nat -> out_inv v G d0 d t ->
  exists d',
    while_cnt b (fast_stage1_long x y) (FastOut (t + 1) 0 (Z.of_nat t - 1) t d)
    = FastOut (t + b + 1) 0 (Z.of_nat (t + b) - 1) (t + b) d' /\
    out_inv v G d0 d' (t + b).
Proof using HL HLM Hd0 H32 Hv.
  induction b as [|b IH]; intros Hb Hinv.
  - exists d. rewrite while_cnt_0, !Nat.add_0_r. auto.
  - destruct IH as (d' & E & I); [lia|exact Hinv|].
    rewrite while_cnt_S, E, stage1_long_pass by lia.
    exists (store d' (t + b) (w (t + b)%nat)). split.
    + f_equal; lia.
    + replace (t + S b)%nat with (t + b + 1)%nat by lia.
      apply out_inv_w; [exact I|lia|pose proof quad_le; unfold quad; lia].
Qed.

(** Stage 2 *)

Lemma stage2_single_pass c d :
  (c < M - L + 1)%nat ->
  fast_stage2_single x y L (Z.of_nat (L - 1))
    (FastOut c (Z.of_nat c) (Z.of_nat (L - 1)) (L - 1 + c) d)
  = FastOut (c + 1) (Z.of_nat (c + 1)) (Z.of_nat (L - 1)) (L - 1 + c + 1)
      (store d (L - 1 + c) (w (L - 1 + c)%nat)).
Proof.
  intros Hc. unfold fast_stage2_single.
  cbn [fo_count fo_px fo_py fo_pOut fo_dst].
  rewrite fast_mac_mac_loop. cbn [f_sum].
  rewrite <- (pass_value (L - 1 + c) c L) by lia.
  replace (L - 1 + c - c)%nat with (L - 1)%nat by lia. reflexivity.
Qed.

Lemma stage2_tail_single c d :
  fast_stage2_tail x y L (Z.of_nat (L - 1))
    (FastOut c (Z.of_nat c) (Z.of_nat (L - 1)) (L - 1 + c) d)
  = fast_stage2_single x y L (Z.of_nat (L - 1))
      (FastOut c (Z.of_nat c) (Z.of_nat (L - 1)) (L - 1 + c) d).
Proof.
  unfold fast_stage2_tail, fast_stage2_single.
  cbn [fo_count fo_px fo_py fo_pOut fo_dst].
  rewrite while_cnt_split4. reflexivity.
Qed.

Lemma stage2_loop_spec (f : fast_out -> fast_out) c0 c d :
  (forall c d, f (FastOut c (Z.of_nat c) (Z.of_nat (L - 1)) (L - 1 + c) d)
               = fast_stage2_single x y L (Z.of_nat (L - 1))
                   (FastOut c (Z.of_nat c) (Z.of_nat (L - 1)) (L - 1 + c) d)) ->
  (L < 4)%nat \/ (4 * ((M - L + 1) / 4) <= c0)%nat ->
  (c0 + c <= M - L + 1)%nat -> out_inv v G d0 d (L - 1 + c0) ->
  exists d',
    while_cnt c f (FastOut c0 (Z.of_nat c0) (Z.of_nat (L - 1)) (L - 1 + c0) d)
    = FastOut (c0 + c) (Z.of_nat (c0 + c)) (Z.of_nat (L - 1)) (L - 1 + (c0 + c)) d'
    /\ out_inv v G d0 d' (L - 1 + (c0 + c)).
Proof using HL HLM Hd0 H32 Hv.
  intros Hf Hc0. induction c as [|c IH]; intros Hc Hinv.
  - exists d. rewrite while_cnt_0, !Nat.add_0_r. auto.
  - destruct IH as (d' & E & I); [lia|exact Hinv|].
    rewrite while_cnt_S, E, Hf, stage2_single_pass by lia.
    exists (store d' (L - 1 + (c0 + c)) (w (L - 1 + (c0 + c))%nat)). split.
    + f_equal; lia.
    + replace (L - 1 + (c0 + S c))%nat with (L - 1 + (c0 + c) + 1)%nat by lia.
      apply out_inv_w; [exact I|lia|pose proof quad_le; unfold quad; lia].
Qed.

Lemma stage2_quad_pass c po d :
  fast_stage2_quad x y L (Z.of_nat (L - 1))
    (FastOut c (Z.of_nat c) (Z.of_nat (L - 1)) po d)
  = FastOut (c + 4) (Z.of_nat (c + 4)) (Z.of_nat (L - 1)) (po + 4)
      (store (store (store (store d po (fast_quad_value x y L c 0))
                           (po + 1) (fast_quad_value x y L c 1))
                    (po + 2) (fast_quad_value x y L c 2))
             (po + 2 + 1) (fast_quad_value x y L c 3)).
Proof.
  unfold fast_quad_value, fast_stage2_quad.
  cbn [fo_count fo_px fo_py fo_pOut fo_dst nth].
  generalize (fast_quad_accs x y L (Z.of_nat c) (Z.of_nat (L - 1))).
  intros q. unfold storeV2, pack2. cbn [lane0 lane1]. reflexivity.
Qed.

Lemma stage2_quad_spec q d :
  (4 * q <= M - L + 1)%nat ->
  (forall i r, (i < q)%nat -> (r < 4)%nat -> G (L - 1 + 4 * i + r)%nat ->
               fast_quad_value x y L (4 * i) r = v (L - 1 + 4 * i + r)%nat) ->
  out_inv v G d0 d (L - 1) ->
  exists d',
    while_cnt q (fast_stage2_quad x y L (Z.of_nat (L - 1)))
      (FastOut 0 0 (Z.of_nat (L - 1)) (L - 1) d)
    = FastOut (4 * q) (Z.of_nat (4 * q)) (Z.of_nat (L - 1)) (L - 1 + 4 * q) d'
    /\ out_inv v G d0 d' (L - 1 + 4 * q).
Proof using HL HLM Hd0 H32 Hv.
  induction q as [|q IH]; intros Hq HG Hinv.
  - exists d. rewrite while_cnt_0. replace (4 * 0)%nat with 0%nat by lia.
    rewrite Nat.add_0_r. auto.
  - destruct IH as (d' & E & I);
      [lia|intros i r Hi Hr; apply HG; lia|exact Hinv|].
    rewrite while_cnt_S, E, stage2_quad_pass.
    set (po := (L - 1 + 4 * q)%nat) in *.
    eexists. split.
    + f_equal; lia.
    + replace (L - 1 + 4 * S q)%nat with (po + 1 + 1 + 1 + 1)%nat by lia.
      replace (po + 2 + 1)%nat with (po + 1 + 1 + 1)%nat by lia.
      replace (po + 2)%nat with (po + 1 + 1)%nat by lia.
      assert (HG' : forall r, (r < 4)%nat -> G (po + r)%nat ->
                fast_quad_value x y L (4 * q) r = v (po + r)%nat).
      { intros r Hr Gn. unfold po in *.
        apply (HG q r); [lia|exact Hr|exact Gn]. }
      apply out_inv_store; [|lia|].
      2:{ replace (po + 1 + 1 + 1)%nat with (po + 3)%nat by lia.
          apply HG'; lia. }
      apply out_inv_store; [|lia|].
      2:{ replace (po + 1 + 1)%nat with (po + 2)%nat by lia.
          apply HG'; lia. }
      apply out_inv_store; [|lia|].
      2:{ apply HG'; lia. }
      apply out_inv_store; [exact I|lia|].
      replace po with (po + 0)%nat at 1 2 by lia. apply HG'; lia.
Qed.

(** Stage 3 *)

Lemma stage3_pass_value i :
  (i < L - 1)%nat ->
  to_q15 (Z.shiftr (to_q31 (wsum x y (Z.of_nat M - Z.of_nat (L - 1) + Z.of_nat i)
                              (Z.of_nat (L - 1)) (L - 1 - i))) 15)
  = w (M + i)%nat.
Proof.
  intros Hi. rewrite <- (pass_value (M + i) (M + i + 1 - L) (L - 1 - i)) by lia.
  replace (Z.of_nat M - Z.of_nat (L - 1) + Z.of_nat i)
    with (Z.of_nat (M + i + 1 - L)) by lia.
  replace (M + i - (M + i + 1 - L))%nat with (L - 1)%nat by lia.
  reflexivity.
Qed.

Lemma stage3_long_pass i d :
  (i < L - 1)%nat ->
  fast_stage3_long x y (Z.of_nat (L - 1))
    (FastTail (L - 1 - i) (Z.of_nat M - Z.of_nat (L - 1) + Z.of_nat i)
              (Z.of_nat M - Z.of_nat (L - 1) + Z.of_nat i)
              (Z.of_nat (L - 1) - 1) (M + i) d)
  = FastTail (L - 1 - (i + 1))
      (Z.of_nat M - Z.of_nat (L - 1) + Z.of_nat (i + 1))
      (Z.of_nat M - Z.of_nat (L - 1) + Z.of_nat (i + 1))
      (Z.of_nat (L - 1) - 1) (M + (i + 1))
      (store d (M + i) (w (M + i)%nat)).
Proof.
  intros Hi. unfold fast_stage3_long.
  cbn [ft_blockSize3 ft_pSrc1 ft_px ft_py ft_pOut ft_dst].
  rewrite while_cnt_split4.
  replace (Z.of_nat (L - 1) - 1 + 1) with (Z.of_nat (L - 1)) by lia.
  rewrite fast_mac_mac_loop. cbn [f_sum].
  rewrite stage3_pass_value by exact Hi. f_equal; lia.
Qed.

Lemma stage3_short_pass i d :
  (i < L - 1)%nat ->
  fast_stage3_short x y (Z.of_nat (L - 1))
    (FastTail (L - 1 - i) (Z.of_nat M - Z.of_nat (L - 1) + Z.of_nat i)
              (Z.of_nat M - Z.of_nat (L - 1) + Z.of_nat i)
              (Z.of_nat (L - 1)) (M + i) d)
  = FastTail (L - 1 - (i + 1))
      (Z.of_nat M - Z.of_nat (L - 1) + Z.of_nat (i + 1))
      (Z.of_nat M - Z.of_nat (L - 1) + Z.of_nat (i + 1))
      (Z.of_nat (L - 1)) (M + (i + 1))
      (store d (M + i) (w (M + i)%nat)).
Proof.
  intros Hi. unfold fast_stage3_short.
  cbn [ft_blockSize3 ft_pSrc1 ft_px ft_py ft_pOut ft_dst].
  rewrite fast_mac_mac_loop. cbn [f_sum].
  rewrite stage3_pass_value by exact Hi. f_equal; lia.
Qed.

Lemma stage3_first_spec j i d :
  (i + j <= L - 1)%nat -> out_inv v G d0 d (M + i) ->
  exists d',
    fast_stage3_first x y (Z.of_nat (L - 1)) j
      (FastTail (L - 1 - i) (Z.of_nat M - Z.of_nat (L - 1) + Z.of_nat i)
                (Z.of_nat M - Z.of_nat (L - 1) + Z.of_nat i)
                (Z.of_nat (L - 1) - 1) (M + i) d)
    = FastTail (L - 1 - (i + j))
        (Z.of_nat M - Z.of_nat (L - 1) + Z.of_nat (i + j))
        (Z.of_nat M - Z.of_nat (L - 1) + Z.of_nat (i + j))
        (Z.of_nat (L - 1) - 1) (M + (i + j)) d' /\
    out_inv v G d0 d' (M + (i + j)).
Proof using HL HLM Hd0 H32 Hv.
  revert i d. induction j as [|j IH]; intros i d Hj Hinv.
  - exists d. cbn [fast_stage3_first]. rewrite !Nat.add_0_r. auto.
  - cbn [fast_stage3_first ft_blockSize3].
    destruct (Nat.ltb_spec 0 (L - 1 - i)) as [C|C]; [|lia].
    rewrite stage3_long_pass by lia.
    destruct (IH (i + 1)%nat (store d (M + i) (w (M + i)%nat))) as (d' & E & I);
      [lia| |].
    { replace (M + (i + 1))%nat with (M + i + 1)%nat by lia.
      apply out_inv_w; [exact Hinv|lia|pose proof quad_le; unfold quad; lia]. }
    exists d'. replace (i + S j)%nat with (i + 1 + j)%nat by lia. auto.
Qed.

Lemma stage3_second_spec n i d :
  (i + n <= L - 1)%nat -> out_inv v G d0 d (M + i) ->
  exists d',
    while_cnt n (fast_stage3_short x y (Z.of_nat (L - 1)))
      (FastTail (L - 1 - i) (Z.of_nat M - Z.of_nat (L - 1) + Z.of_nat i)
                (Z.of_nat M - Z.of_nat (L - 1) + Z.of_nat i)
                (Z.of_nat (L - 1)) (M + i) d)
    = FastTail (L - 1 - (i + n))
        (Z.of_nat M - Z.of_nat (L - 1) + Z.of_nat (i + n))
        (Z.of_nat M - Z.of_nat (L - 1) + Z.of_nat (i + n))
        (Z.of_nat (L - 1)) (M + (i + n)) d' /\
    out_inv v G d0 d' (M + (i + n)).
Proof using HL HLM Hd0 H32 Hv.
  induction n as [|n IH]; intros Hn Hinv.
  - exists d. rewrite while_cnt_0, !Nat.add_0_r. auto.
  - destruct IH as (d' & E & I); [lia|exact Hinv|].
    rewrite while_cnt_S, E, stage3_short_pass by lia.
    exists (store d' (M + (i + n)) (w (M + (i + n))%nat)). split.
    + f_equal; f_equal; lia.
    + replace (M + (i + S n))%nat with (M + (i + n) + 1)%nat by lia.
      apply out_inv_w; [exact I|lia|pose proof quad_le; unfold quad; lia].
Qed.

End FastStages.

(** The outputs of a call whose first operand is not the shorter one. *)
Lemma conv_fast_core (x y d0 : list Z) (v : nat -> Z) (G : nat -> Prop) :
  let M := length x in
  let L := length y in
  (1 <= L)%nat -> (L <= M)%nat ->
  Z.of_nat M + Z.of_nat L - 1 < 2 ^ 32 ->
  (M + L - 1 <= length d0)%nat ->
  (forall n, G n ->
     ~ ((4 <= L)%nat /\ (L - 1 <= n < L - 1 + 4 * ((M - L + 1) / 4))%nat) ->
     v n = fast_q15 (conv_sum x y n)) ->
  (forall i r, (4 <= L)%nat -> (i < (M - L + 1) / 4)%nat -> (r < 4)%nat ->
     G (L - 1 + 4 * i + r)%nat ->
     fast_quad_value x y L (4 * i) r = v (L - 1 + 4 * i + r)%nat) ->
  out_inv v G d0 (riscv_conv_fast_q15 x M y L d0) (M + L - 1).
Proof.
  intros M L HL HLM H32 Hd0 Hv Hquad.
  assert (I0 : out_inv v G d0 d0 0).
  { split; [reflexivity|]. split; [intros; lia|reflexivity]. }
  unfold riscv_conv_fast_q15, conv_operands.
  destruct (Nat.leb_spec L M) as [_|C]; [|lia].
  rewrite !(u32_pred L HL ltac:(lia)).
  replace (u32 (Z.of_nat M - Z.of_nat (L - 1))) with (M - L + 1)%nat
    by (rewrite u32_small by lia; lia).
  cbv zeta.
  (* stage 1 *)
  destruct (stage1_first_spec x y d0 v G HL HLM Hd0 H32 Hv (L - 1) 0 d0
              ltac:(lia) ltac:(lia) I0) as (d1 & E1 & I1).
  cbv zeta in E1, I1. cbn [Nat.add Nat.sub] in E1, I1.
  change (Z.of_nat 0) with 0 in E1.
  fold M L in E1, I1. set (r := Nat.min (L - 1) 3) in *.
  rewrite E1. cbn [fo_count fo_px fo_py fo_pOut fo_dst].
  destruct (stage1_long_spec x y d0 v G HL HLM Hd0 H32 Hv (L - 1 - r) r d1
              ltac:(lia) I1) as (d2 & E2 & I2).
  fold M L in E2, I2. rewrite E2. cbn [fo_count fo_px fo_py fo_pOut fo_dst]. clear E1 E2.
  replace (r + (L - 1 - r))%nat with (L - 1)%nat in * by lia.
  (* stage 2 *)
  assert (S2 : exists d3,
    (if (4 <=? L)%nat
     then while_cnt ((M - L + 1) mod 4)
            (fast_stage2_tail x y L (Z.of_nat (L - 1)))
            (while_cnt ((M - L + 1) / 4)
               (fast_stage2_quad x y L (Z.of_nat (L - 1)))
               (FastOut 0 0 (Z.of_nat (L - 1)) (L - 1) d2))
     else while_cnt (M - L + 1) (fast_stage2_single x y L (Z.of_nat (L - 1)))
            (FastOut 0 0 (Z.of_nat (L - 1)) (L - 1) d2))
    = FastOut (M - L + 1) (Z.of_nat (M - L + 1)) (Z.of_nat (L - 1)) M d3
    /\ out_inv v G d0 d3 M).
  { pose proof (Nat.div_mod_eq (M - L + 1) 4) as Edm.
    destruct (Nat.leb_spec 4 L) as [C4|C4].
    - destruct (stage2_quad_spec x y d0 v G HL HLM Hd0 H32 Hv ((M - L + 1) / 4) d2)
        as (dq & Eq & Iq); [lia|exact (fun i r => Hquad i r C4)|exact I2|].
      fold M L in Eq, Iq. rewrite Eq.
      destruct (stage2_loop_spec x y d0 v G HL HLM Hd0 H32 Hv
                  (fast_stage2_tail x y L (Z.of_nat (L - 1)))
                  (4 * ((M - L + 1) / 4)) ((M - L + 1) mod 4) dq
                  (stage2_tail_single x y) (or_intror (Nat.le_refl _)) ltac:(lia) Iq) as (d3 & E3 & I3).
      fold M L in E3, I3. rewrite E3. rewrite <- Edm in *.
      replace (L - 1 + (M - L + 1))%nat with M in * by lia.
      exists d3. auto.
    - pose proof (stage2_loop_spec x y d0 v G HL HLM Hd0 H32 Hv
                    (fast_stage2_single x y L (Z.of_nat (L - 1)))
                    0 (M - L + 1) d2 (fun c d => eq_refl) (or_introl C4) ltac:(lia)) as S.
      rewrite Nat.add_0_r in S. cbn [Nat.add] in S.
      change (Z.of_nat 0) with 0 in S.
      destruct (S I2) as (d3 & E3 & I3).
      fold M L in E3, I3. rewrite E3. replace (L - 1 + (M - L + 1))%nat with M in * by lia.
      exists d3. auto. }
  destruct S2 as (d3 & E3 & I3). rewrite E3.
  cbn [fo_count fo_px fo_py fo_pOut fo_dst]. clear E3.
  (* stage 3 *)
  pose proof (stage3_first_spec x y d0 v G HL HLM Hd0 H32 Hv ((L - 1) / 4) 0 d3) as S3.
  rewrite Nat.add_0_r, Nat.sub_0_r, Z.add_0_r in S3. cbn [Nat.add] in S3.
  pose proof (Nat.div_mod_eq (L - 1) 4) as Edm.
  destruct (S3 ltac:(lia) I3) as (d4 & E4 & I4).
  fold M L in E4, I4. rewrite E4. cbn [ft_blockSize3 ft_pSrc1 ft_px ft_py ft_pOut ft_dst]. clear E4.
  replace (Z.of_nat (L - 1) - 1 + 1) with (Z.of_nat (L - 1)) by lia.
  unfold fast_stage3_second.
  destruct (stage3_second_spec x y d0 v G HL HLM Hd0 H32 Hv
              (L - 1 - (L - 1) / 4) ((L - 1) / 4) d4 ltac:(lia) I4)
    as (d5 & E5 & I5).
  fold M L in E5, I5. rewrite E5. cbn [ft_dst].
  replace ((L - 1) / 4 + (L - 1 - (L - 1) / 4))%nat with (L - 1)%nat in I5 by lia.
  replace (M + L - 1)%nat with (M + (L - 1))%nat by lia. exact I5.
Qed.

Lemma conv_fast_exchange (A B d : list Z) (la lb : nat) :
  (la < lb)%nat ->
  riscv_conv_fast_q15 A la B lb d = riscv_conv_fast_q15 B lb A la d.
Proof.
  intros H. unfold riscv_conv_fast_q15, conv_operands.
  destruct (Nat.leb_spec lb la) as [C|C]; [lia|].
  destruct (Nat.leb_spec la lb) as [C'|C']; [|lia].
  reflexivity.
Qed.

(** X25: for Q15 sequences of at least one element,
    [riscv_conv_fast_q15] writes the first [srcALen + srcBLen - 1]
    elements of the destination and leaves the others as they were. With
    [L] the shorter and [M] the longer length, every output [n] outside
    the four-at-a-time loop of stage 2 (that is [n < L - 1], or [L < 4],
    or [n >= L - 1 + 4 * ((M - L + 1) / 4)]) is the zero-padded
    convolution sum of [A[k] * B[n - k]] wrapped to 32 bits, shifted right
    by 15 bits and truncated to 16 bits. *)
Theorem riscv_conv_fast_q15_outputs (A B pDst : list Z) :
  let srcALen := length A in
  let srcBLen := length B in
  let L := Nat.min srcALen srcBLen in
  let M := Nat.max srcALen srcBLen in
  forallb is_q15 A = true -> forallb is_q15 B = true ->
  (1 <= srcALen)%nat -> (1 <= srcBLen)%nat ->
  Z.of_nat srcALen + Z.of_nat srcBLen - 1 < 2 ^ 32 ->
  (srcALen + srcBLen - 1 <= length pDst)%nat ->
  let out := riscv_conv_fast_q15 A srcALen B srcBLen pDst in
  length out = length pDst /\
  (forall n, (n < srcALen + srcBLen - 1)%nat ->
             (n < L - 1)%nat \/ (L < 4)%nat
             \/ (L - 1 + 4 * ((M - L + 1) / 4) <= n)%nat ->
             out !! n
             = Some (to_q15 (Z.shiftr
                      (to_q31 (sumf (fun k => nth k A 0 * nth (n - k) B 0) (S n)))
                      15))) /\
  (forall n, (srcALen + srcBLen - 1 <= n)%nat -> out !! n = pDst !! n).
Proof.
  intros la lb L M _ _ Hla Hlb H32 Hd out. subst out.
  destruct (Nat.le_gt_cases lb la) as [C|C].
  - destruct (conv_fast_core A B pDst
                (fun n => fast_q15 (conv_sum A B n))
                (fun n => (n < lb - 1)%nat \/ (lb < 4)%nat
                          \/ (lb - 1 + 4 * ((la - lb + 1) / 4) <= n)%nat))
      as (R1 & R2 & R3); fold la lb;
      [lia|lia|lia|lia|intros; reflexivity
      |intros i r H4 Hi Hr [Gn|[Gn|Gn]]; lia|].
    fold la lb in R1, R2, R3.
    assert (EL : L = lb) by (unfold L; lia).
    assert (EM : M = la) by (unfold M; lia).
    rewrite EL, EM. split; [exact R1|]. split; [|exact R3].
    intros n Hn Gn. apply R2; assumption.
  - rewrite conv_fast_exchange by exact C.
    destruct (conv_fast_core B A pDst
                (fun n => fast_q15 (conv_sum B A n))
                (fun n => (n < la - 1)%nat \/ (la < 4)%nat
                          \/ (la - 1 + 4 * ((lb - la + 1) / 4) <= n)%nat))
      as (R1 & R2 & R3); fold la lb;
      [lia|lia|lia|lia|intros; reflexivity
      |intros i r H4 Hi Hr [Gn|[Gn|Gn]]; lia|].
    fold la lb in R1, R2, R3.
    assert (EL : L = la) by (unfold L; lia).
    assert (EM : M = lb) by (unfold M; lia).
    rewrite EL, EM. split; [exact R1|]. split.
    + intros n Hn Gn. rewrite R2 by (assumption || lia).
      unfold fast_q15. rewrite (conv_sum_comm B A). reflexivity.
    + intros n Hn. apply R3. lia.
Qed.

Lemma riscv_conv_fast_q15_outputs_witness :
  let A := [256; 512; 768; 1024; 1280; 1536; 1792; 2048] in
  let B := [128; 256; 384; 512] in
  let pDst := [0; 0; 0; 0; 0; 0; 0; 0; 0; 0; 0; 9] in
  let out := riscv_conv_fast_q15 A 8 B 4 pDst in
  length out = 12%nat /\
  (forall n, (n < 8 + 4 - 1)%nat ->
             (n < 4 - 1)%nat \/ (4 < 4)%nat
             \/ (4 - 1 + 4 * ((8 - 4 + 1) / 4) <= n)%nat ->
             out !! n
             = Some (to_q15 (Z.shiftr
                      (to_q31 (sumf (fun k => nth k A 0 * nth (n - k) B 0) (S n)))
                      15))) /\
  (forall n, (8 + 4 - 1 <= n)%nat -> out !! n = pDst !! n).
Proof.
  apply (riscv_conv_fast_q15_outputs
           [256; 512; 768; 1024; 1280; 1536; 1792; 2048] [128; 256; 384; 512]
           [0; 0; 0; 0; 0; 0; 0; 0; 0; 0; 0; 9]);
    [reflexivity | reflexivity | simpl; lia | simpl; lia | reflexivity
    | simpl; lia].
Defined.

Lemma sumf_2 f n :
  sumf f (2 * S n) = sumf f (2 * n) + f (2 * n)%nat + f (2 * n + 1)%nat.
Proof.
  replace (2 * S n)%nat with (S (S (2 * n))) by lia. cbn [sumf].
  replace (S (2 * n)) with (2 * n + 1)%nat by lia. reflexivity.
Qed.

Lemma q15_loadz (m : list Z) (z : Z) :
  forallb is_q15 m = true -> to_q15 (loadz m z) = loadz m z.
Proof.
  intros H. unfold loadz. destruct (z <? 0); [reflexivity|].
  apply q15_id. apply q15r_load. exact H.
Qed.

Lemma q31_dot2 S a b c d e f g h :
  to_q31 (to_q31 (to_q31 S + to_q31 (a * b + c * d)) + to_q31 (e * f + g * h))
  = to_q31 (S + (a * b + c * d) + (e * f + g * h)).
Proof.
  unfold to_q31, wrap.
  change (2 ^ (32 - 1)) with 2147483648; change (2 ^ 32) with 4294967296.
  f_equal. Z.mod_equality.
Qed.

Ltac zcong :=
  lazymatch goal with
  | |- loadz ?m _ = loadz ?m _ => f_equal; lia
  | |- Z.add _ _ = Z.add _ _ => apply f_equal2; zcong
  | |- Z.mul _ _ = Z.mul _ _ => apply f_equal2; zcong
  | |- _ => reflexivity
  end.

Section QuadAccs.

Variables (x y : list Z).
Hypothesis Hx : forallb is_q15 x = true.
Hypothesis Hy : forallb is_q15 y = true.

(** The accumulators after [j] passes of the [do ... while (--k)] loop. *)
Lemma fast_quad_tap_iter (px py : Z) (j : nat) (vc vd ve : shortV) :
  exists vc' vd' ve',
    Nat.iter j (fast_quad_tap x y)
      (FastQuad 0 0 0 0 (px + 2) py
         (V2 (loadz x px) (loadz x (px + 1)))
         (V2 (loadz x (px + 1)) (loadz x (px + 2))) vc vd ve)
    = FastQuad (to_q31 (wsum2 x y px py (2 * j)))
               (to_q31 (wsum2 x y (px + 1) py (2 * j)))
               (to_q31 (wsum2 x y (px + 2) py (2 * j)))
               (to_q31 (wsum2 x y (px + 3) py (2 * j)))
               (px + 2 + 4 * Z.of_nat j) (py - 4 * Z.of_nat j)
               (V2 (loadz x (px + 4 * Z.of_nat j))
                   (loadz x (px + 4 * Z.of_nat j + 1)))
               (V2 (loadz x (px + 4 * Z.of_nat j + 1))
                   (loadz x (px + 4 * Z.of_nat j + 2)))
               vc' vd' ve'.
Proof using Hx Hy.
  induction j as [|j IH].
  - exists vc, vd, ve. change (Nat.iter 0 (fast_quad_tap x y) ?s) with s.
    replace (2 * 0)%nat with 0%nat by lia.
    unfold wsum2. cbn [sumf Z.of_nat].
    change (to_q31 0) with 0. rewrite !Z.mul_0_r, !Z.add_0_r, Z.sub_0_r.
    reflexivity.
  - destruct IH as (vc' & vd' & ve' & IH).
    rewrite Nat.iter_succ, IH. unfold fast_quad_tap.
    cbn [fq_acc0 fq_acc1 fq_acc2 fq_acc3 fq_px fq_py fq_VectInA fq_VectInB
         fq_VectInC fq_VectInD fq_VectInE].
    unfold set_lane0, set_lane1. cbn [lane0 lane1].
    rewrite !(q15_loadz x) by exact Hx. rewrite !(q15_loadz y) by exact Hy.
    eexists _, _, _.
    unfold sumdotpv2, dotpv2. cbn [lane0 lane1].
    rewrite !q31_dot2. unfold wsum2. rewrite !sumf_2.
    f_equal; try lia; try (f_equal; zcong); try (f_equal; f_equal; lia).
Qed.

(** The accumulators of a pass of the four-at-a-time loop when
    [srcBLen] is a multiple of 4. *)
Lemma fast_quad_accs_closed (L : nat) (px py : Z) :
  (4 <= L)%nat -> (L mod 4 = 0)%nat ->
  let q := fast_quad_accs x y L px py in
  fq_acc0 q = to_q31 (wsum2 x y px (py - 1) (L / 2)) /\
  fq_acc1 q = to_q31 (wsum2 x y (px + 1) (py - 1) (L / 2)) /\
  fq_acc2 q = to_q31 (wsum2 x y (px + 2) (py - 1) (L / 2)) /\
  fq_acc3 q = to_q31 (wsum2 x y (px + 3) (py - 1) (L / 2)).
Proof using Hx Hy.
  intros H4 Hm q. subst q. unfold fast_quad_accs.
  pose proof (Nat.div_mod_eq L 4) as E4.
  assert (E2 : (L / 2 = 2 * (L / 4))%nat).
  { rewrite E4 at 1. rewrite Hm, Nat.add_0_r.
    replace (4 * (L / 4))%nat with ((2 * (L / 4)) * 2)%nat by lia.
    apply Nat.div_mul. lia. }
  rewrite Hm. unfold fast_quad_rem. cbn [Nat.eqb].
  unfold do_while_cnt32.
  destruct (Nat.eqb_spec (L / 4) 0) as [C|C]; [lia|].
  unfold set_lane0, set_lane1. cbn [lane0 lane1].
  rewrite !(q15_loadz x) by exact Hx.
  destruct (fast_quad_tap_iter px (py - 1) (L / 4) (V2 0 0) (V2 0 0) (V2 0 0))
    as (vc & vd & ve & E).
  rewrite E. cbn [fq_acc0 fq_acc1 fq_acc2 fq_acc3]. rewrite E2. auto.
Qed.

End QuadAccs.

Lemma wsum2_quad_sum (x y : list Z) (a : nat) :
  wsum2 x y (Z.of_nat a) (Z.of_nat (length y - 1) - 1) (length y / 2)
  = quad_sum x y a.
Proof.
  unfold wsum2, quad_sum. apply sumf_ext. intros p Hp.
  assert (2 * p + 2 <= length y)%nat.
  { pose proof (Nat.Div0.mul_div_le (length y) 2). lia. }
  replace (Z.of_nat a + 2 * Z.of_nat p) with (Z.of_nat (a + 2 * p)) by lia.
  replace (Z.of_nat (a + 2 * p) + 1) with (Z.of_nat (a + 2 * p + 1)) by lia.
  replace (Z.of_nat (length y - 1) - 1 - 2 * Z.of_nat p)
    with (Z.of_nat (length y - 2 - 2 * p)) by lia.
  replace (Z.of_nat (length y - 2 - 2 * p) + 1)
    with (Z.of_nat (length y - 1 - 2 * p)) by lia.
  rewrite !loadz_nat. reflexivity.
Qed.

Lemma q15_clip v : to_q15 (clip v (-32768) 32767) = clip v (-32768) 32767.
Proof. apply q15_id. unfold q15r, clip. lia. Qed.

(** The values that a pass of the four-at-a-time loop stores when
    [srcBLen] is a multiple of 4. *)
Lemma fast_quad_value_closed (x y : list Z) (c r : nat) :
  forallb is_q15 x = true -> forallb is_q15 y = true ->
  (4 <= length y)%nat -> (length y mod 4 = 0)%nat -> (r < 4)%nat ->
  fast_quad_value x y (length y) c r
  = clip (Z.shiftr (to_q31 (quad_sum x y (c + r))) 15) (-32768) 32767.
Proof.
  intros Hx Hy H4 Hm Hr. unfold fast_quad_value.
  destruct (fast_quad_accs_closed x y Hx Hy (length y) (Z.of_nat c)
              (Z.of_nat (length y - 1)) H4 Hm) as (E0 & E1 & E2 & E3).
  cbv zeta. rewrite E0, E1, E2, E3, !q15_clip.
  replace (Z.of_nat c + 1) with (Z.of_nat (c + 1)) by lia.
  replace (Z.of_nat c + 2) with (Z.of_nat (c + 2)) by lia.
  replace (Z.of_nat c + 3) with (Z.of_nat (c + 3)) by lia.
  rewrite !wsum2_quad_sum.
  destruct r as [|[|[|[|r]]]]; [| | | |lia]; cbn [nth];
    rewrite ?Nat.add_0_r; reflexivity.
Qed.

(** X26: when [srcBLen] is a multiple of 4 and not more than [srcALen],
    output [srcBLen - 1 + c] of the four-at-a-time loop of stage 2 of
    [riscv_conv_fast_q15] is computed from the pairs of coefficients
    taken in memory order: it is the sum over [p] of
    [A[c + 2p] * B[srcBLen - 2 - 2p] + A[c + 2p + 1] * B[srcBLen - 1 - 2p]],
    wrapped to 32 bits, shifted right by 15 bits and clamped to
    [[-32768, 32767]] (the convolution sum would multiply [A[c + 2p]] by
    [B[srcBLen - 1 - 2p]]). *)
Theorem riscv_conv_fast_q15_unrolled_outputs (A B pDst : list Z) (c : nat) :
  let srcALen := length A in
  let srcBLen := length B in
  forallb is_q15 A = true -> forallb is_q15 B = true ->
  (4 <= srcBLen)%nat -> (srcBLen <= srcALen)%nat ->
  (srcBLen mod 4 = 0)%nat ->
  Z.of_nat srcALen + Z.of_nat srcBLen - 1 < 2 ^ 32 ->
  (srcALen + srcBLen - 1 <= length pDst)%nat ->
  (c < 4 * ((srcALen - srcBLen + 1) / 4))%nat ->
  riscv_conv_fast_q15 A srcALen B srcBLen pDst !! (srcBLen - 1 + c)%nat
  = Some (clip (Z.shiftr
                  (to_q31
                     (sumf (fun p =>
                              nth (c + 2 * p) A 0
                              * nth (srcBLen - 2 - 2 * p) B 0
                              + nth (c + 2 * p + 1) A 0
                                * nth (srcBLen - 1 - 2 * p) B 0)
                           (srcBLen / 2)))
                  15) (-32768) 32767).
Proof.
  intros la lb HA HB H4 Hle Hm H32 Hd Hc.
  pose proof (Nat.Div0.mul_div_le (la - lb + 1) 4) as Hq.
  set (G := fun n => (4 <= lb)%nat
                     /\ (lb - 1 <= n < lb - 1 + 4 * ((la - lb + 1) / 4))%nat).
  set (v := fun n => fast_quad_value A B lb (4 * ((n - (lb - 1)) / 4))
                                     ((n - (lb - 1)) mod 4)).
  destruct (conv_fast_core A B pDst v G) as (R1 & R2 & R3); fold la lb;
    [lia|lia|lia|lia| | |].
  - intros n Gn Hn. contradiction.
  - intros i r _ Hi Hr _. unfold v.
    replace (lb - 1 + 4 * i + r - (lb - 1))%nat with (r + i * 4)%nat by lia.
    rewrite Nat.div_add, Nat.Div0.mod_add by lia.
    rewrite Nat.div_small, Nat.mod_small by lia. reflexivity.
  - fold la lb in R2. rewrite R2; [|lia|unfold G; lia].
    f_equal. unfold v.
    replace (lb - 1 + c - (lb - 1))%nat with c by lia.
    unfold lb. rewrite fast_quad_value_closed;
      [|assumption|assumption|exact H4|exact Hm|apply Nat.mod_upper_bound; lia].
    rewrite <- (Nat.div_mod_eq c 4). reflexivity.
Qed.

Lemma riscv_conv_fast_q15_unrolled_outputs_witness :
  riscv_conv_fast_q15 [256; 512; 768; 1024; 1280; 1536; 1792; 2048] 8
    [128; 256; 384; 512] 4 [0; 0; 0; 0; 0; 0; 0; 0; 0; 0; 0; 9] !! 3%nat
  = Some 22.
Proof.
  apply (riscv_conv_fast_q15_unrolled_outputs
           [256; 512; 768; 1024; 1280; 1536; 1792; 2048] [128; 256; 384; 512]
           [0; 0; 0; 0; 0; 0; 0; 0; 0; 0; 0; 9] 0);
    [reflexivity | reflexivity | simpl; lia | simpl; lia | reflexivity
    | reflexivity | simpl; lia | vm_compute; lia].
Defined.
